(** * hashAB.js: HashAB signatures for the iTunesCDB and Locations.itdb.cbk

    A shallow embedding of the hashAB module of the TunesReloaded metadata
    editor (the second document of [src/modules/state.js]) and the
    properties of its three exported operations:

    - [recomputeITunesCDBHash]  (the spec's ContainerPatcher.patchSignature),
    - [computeLocationsCBK]     (the spec's ChecksumFileBuilder.buildChecksumFile),
    - [parseUUID]               (the spec's DeviceIdCodec.parse).

    Typed arrays are JavaScript objects with identity, so they live in a
    heap and the operations receive and return references; the module
    variable [wasmInstance], the console and the calls to the two external
    engines are part of the same world.  An [async] function comes twice:
    awaited on its own, so that nothing else runs while it is suspended
    (one operation in flight at a time, the spec's single-writer
    discipline), and with its suspensions at [await], during which the
    rest of the program runs ([initHashAB], and the operations named
    [_async]). *)

From Stdlib Require Import ZArith Lia List String Ascii.
From Stdlib Require Import Init.Byte Strings.Byte.
From stdpp Require Import base list gmap strings pretty.

Local Open Scope nat_scope.

(** ** Bytes and typed-array contents *)

(** An element of a [Uint8Array]. *)
Definition ToUint8 (z : Z) : byte :=
  default x00 (Byte.of_N (Z.to_N (z mod 256))).

Definition byte_val (b : byte) : Z := Z.of_N (Byte.to_N b).

#[global] Instance byte_eq_decision : EqDecision byte := Byte.byte_eq_dec.

(** [ta.slice(start, end)] for [0 <= start], [0 <= end]: the elements are
    copied, indices are clamped to the length. *)
Definition ta_slice (start end_ : nat) (l : list byte) : list byte :=
  take (end_ - start) (drop start l).

(** [ta.fill(v, start, end)]: indices clamped to the length. *)
Definition ta_fill (v : byte) (start end_ : nat) (l : list byte) : list byte :=
  list_inserts start (replicate (end_ - start) v) l.

(** [target.set(source, offset)] throws a RangeError when the source does
    not fit; [None] stands for the throw. *)
Definition ta_set (source : list byte) (offset : nat) (target : list byte)
  : option (list byte) :=
  if decide (offset + length source <= length target)
  then Some (list_inserts offset source target)
  else None.

(** [Math.ceil(a / b)] on array lengths (exact in double precision). *)
Definition Math_ceil_div (a b : nat) : nat :=
  if decide (a mod b = 0) then a / b else S (a / b).

(** ** The digest primitive: [crypto.subtle.digest('SHA-1', data)]

    The Web Crypto digest is SHA-1 of FIPS 180-4, on 32-bit words held in
    [Z]. *)
Module SHA1.

Local Open Scope Z_scope.

Definition w32 (x : Z) : Z := x mod 2 ^ 32.

Definition rotl (n x : Z) : Z :=
  w32 (Z.lor (Z.shiftl x n) (Z.shiftr x (32 - n))).

Definition not32 (x : Z) : Z := Z.lxor x 0xFFFFFFFF.

Definition be_word (bs : list byte) : Z :=
  fold_left (fun acc b => acc * 256 + byte_val b) bs 0.

Definition word_bytes (x : Z) : list byte :=
  [ToUint8 (Z.shiftr x 24); ToUint8 (Z.shiftr x 16);
   ToUint8 (Z.shiftr x 8); ToUint8 x].

Definition length_bytes (bits : Z) : list byte :=
  word_bytes (Z.shiftr bits 32) ++ word_bytes bits.

(** Message padding: a one bit, zeros up to 56 mod 64, the bit length. *)
Definition pad (msg : list byte) : list byte :=
  let n := length msg in
  msg ++ x80 :: replicate ((119 - n mod 64) mod 64)%nat x00
      ++ length_bytes (8 * Z.of_nat n).

Fixpoint chunks (fuel : nat) (l : list byte) : list (list byte) :=
  match fuel with
  | O => []
  | S fuel' =>
      match l with
      | [] => []
      | _ => take 64%nat l :: chunks fuel' (drop 64%nat l)
      end
  end.

Fixpoint words (n : nat) (l : list byte) : list Z :=
  match n with
  | O => []
  | S n' => be_word (take 4%nat l) :: words n' (drop 4%nat l)
  end.

(** The message schedule W[0..79]. *)
Fixpoint expand (n : nat) (w : list Z) : list Z :=
  match n with
  | O => w
  | S n' =>
      let t := length w in
      let x i := nth (t - i)%nat w 0 in
      expand n' (w ++ [rotl 1 (Z.lxor (Z.lxor (x 3%nat) (x 8%nat))
                                      (Z.lxor (x 14%nat) (x 16%nat)))])
  end.

Definition f (t : nat) (b c d : Z) : Z :=
  if decide (t < 20)%nat then Z.lor (Z.land b c) (Z.land (not32 b) d)
  else if decide (t < 40)%nat then Z.lxor (Z.lxor b c) d
  else if decide (t < 60)%nat
       then Z.lor (Z.lor (Z.land b c) (Z.land b d)) (Z.land c d)
  else Z.lxor (Z.lxor b c) d.

Definition K (t : nat) : Z :=
  if decide (t < 20)%nat then 0x5A827999
  else if decide (t < 40)%nat then 0x6ED9EBA1
  else if decide (t < 60)%nat then 0x8F1BBCDC
  else 0xCA62C1D6.

Definition regs : Type := Z * Z * Z * Z * Z.

Definition round (s : regs) (tw : nat * Z) : regs :=
  let '(a, b, c, d, e) := s in
  let '(t, wt) := tw in
  (w32 (rotl 5 a + f t b c d + e + K t + wt), a, rotl 30 b, c, d).

Definition compress (h : regs) (block : list byte) : regs :=
  let w := expand 64 (words 16 block) in
  let '(a, b, c, d, e) := fold_left round (combine (seq 0 80) w) h in
  let '(h0, h1, h2, h3, h4) := h in
  (w32 (h0 + a), w32 (h1 + b), w32 (h2 + c), w32 (h3 + d), w32 (h4 + e)).

Definition H0 : regs :=
  (0x67452301, 0xEFCDAB89, 0x98BADCFE, 0x10325476, 0xC3D2E1F0).

Definition digest (msg : list byte) : list byte :=
  let p := pad msg in
  let '(h0, h1, h2, h3, h4) := fold_left compress (chunks (length p) p) H0 in
  word_bytes h0 ++ word_bytes h1 ++ word_bytes h2 ++ word_bytes h3
    ++ word_bytes h4.

End SHA1.

(** ** JavaScript strings (code units below 256) *)

(** [b.toString(16).padStart(2, '0')] *)
Definition hex_digit (n : N) : ascii :=
  ascii_of_N (if (n <? 10)%N then 48 + n else 87 + n).

Definition byte_hex (b : byte) : string :=
  String (hex_digit (Byte.to_N b / 16))
    (String (hex_digit (Byte.to_N b mod 16)) EmptyString).

(** [hex(bytes)] *)
Definition hex (bytes : list byte) : string :=
  fold_right (fun b acc => (byte_hex b ++ acc)%string) EmptyString bytes.

Definition bytes_of_string (s : string) : list byte :=
  map byte_of_ascii (list_ascii_of_string s).

(** [s.replace(/^0x/i, '')] *)
Definition replace_0x (s : string) : string :=
  match s with
  | String "0" (String c rest) =>
      if decide (c = "x"%char ∨ c = "X"%char) then rest else s
  | _ => s
  end.

(** [s.substr(start, length)] for non-negative arguments. *)
Definition substr (start len : nat) (s : string) : string :=
  String.substring start len s.

(** White space and line terminators that [parseInt] skips. *)
Definition is_white_space (c : ascii) : bool :=
  bool_decide (nat_of_ascii c ∈ [9; 10; 11; 12; 13; 32; 160]).

Fixpoint trim_start (s : string) : string :=
  match s with
  | String c rest => if is_white_space c then trim_start rest else s
  | EmptyString => s
  end.

Definition hex_value (c : ascii) : option Z :=
  let n := Z.of_nat (nat_of_ascii c) in
  if decide (48 <= n <= 57)%Z then Some (n - 48)%Z
  else if decide (97 <= n <= 102)%Z then Some (n - 87)%Z
  else if decide (65 <= n <= 70)%Z then Some (n - 55)%Z
  else None.

(** The longest prefix of radix-16 digits. *)
Fixpoint hex_prefix (s : string) : list Z :=
  match s with
  | String c rest =>
      match hex_value c with
      | Some d => d :: hex_prefix rest
      | None => []
      end
  | EmptyString => []
  end.

(** [parseInt(str, 16)]; [None] is NaN. *)
Definition parseInt16 (str : string) : option Z :=
  let s := trim_start str in
  let '(sign, s) :=
    match s with
    | String "-" rest => ((-1)%Z, rest)
    | String "+" rest => (1%Z, rest)
    | _ => (1%Z, s)
    end in
  let s := replace_0x s in
  match hex_prefix s with
  | [] => None
  | ds => Some (sign * fold_left (fun acc d => 16 * acc + d) ds 0)%Z
  end.

(** Storing a number in a [Uint8Array] element: NaN becomes 0. *)
Definition number_to_uint8 (v : option Z) : byte :=
  match v with
  | Some z => ToUint8 z
  | None => x00
  end.

(** [String.fromCharCode(b0, b1, ...)] on element values. *)
Definition fromCharCode (bs : list byte) : string :=
  string_of_list_ascii (map ascii_of_byte bs).

(** ** The world: typed arrays, the module state, observable calls *)

Definition loc := positive.

(** The exports of calcHashAB.wasm.  The module is a pre-built binary:
    its linear memory, the three pointer getters (each returns a fixed
    address) and [calculateHash] (which rewrites the memory) are all that
    the JavaScript side sees. *)
Record Instance := {
  memory : list byte;
  getInputSha1 : nat;
  getInputUuid : nat;
  getOutput : nat;
  calculateHash : list byte -> list byte
}.

Definition with_memory (m : list byte) (inst : Instance) : Instance :=
  {| memory := m;
     getInputSha1 := getInputSha1 inst;
     getInputUuid := getInputUuid inst;
     getOutput := getOutput inst;
     calculateHash := calculateHash inst |}.

Inductive event :=
| console_warn (msg : string)
| console_log (msg : string)
| crypto_subtle_digest (data : list byte)
| wasm_calculateHash.

Record world := {
  heap : gmap loc (list byte);
  wasmInstance : option Instance;
  events : list event
}.

Inductive exn :=
| Error_not_initialized   (* Error('hashAB WASM not initialized ...') *)
| RangeError              (* TypedArray.prototype.set: offset is out of bounds *)
| TypeError               (* not a typed array *)
| LoadError.              (* fetch or WebAssembly.instantiate rejected *)

Inductive outcome (A : Type) :=
| Return (a : A)
| Throw (e : exn).
Arguments Return {A} a.
Arguments Throw {A} e.

(** A computation changes the world and returns or throws; what it did
    before a throw stays done. *)
Definition M (A : Type) : Type := world -> outcome A * world.

Definition ret {A} (a : A) : M A := fun w => (Return a, w).

Definition throw {A} (e : exn) : M A := fun w => (Throw e, w).

Definition bind {A B} (m : M A) (k : A -> M B) : M B :=
  fun w =>
    match m w with
    | (Return a, w') => k a w'
    | (Throw e, w') => (Throw e, w')
    end.

#[global] Instance M_ret : MRet M := @ret.
#[global] Instance M_bind : MBind M := fun A B k m => bind m k.

Fixpoint foldM {A B} (f : B -> A -> M B) (acc : B) (l : list A) : M B :=
  match l with
  | [] => ret acc
  | x :: l' => acc' ← f acc x; foldM f acc' l'
  end.

Definition emit (e : event) : M unit := fun w =>
  (Return tt, {| heap := heap w; wasmInstance := wasmInstance w;
                 events := events w ++ [e] |}).

(** Allocation of a typed array with the given contents. *)
Definition alloc (bs : list byte) : M loc := fun w =>
  let l := fresh (dom (heap w)) in
  (Return l, {| heap := <[l := bs]> (heap w); wasmInstance := wasmInstance w;
                events := events w |}).

Definition read (l : loc) : M (list byte) := fun w =>
  match heap w !! l with
  | Some bs => (Return bs, w)
  | None => (Throw TypeError, w)
  end.

Definition write (l : loc) (bs : list byte) : M unit := fun w =>
  (Return tt, {| heap := <[l := bs]> (heap w); wasmInstance := wasmInstance w;
                 events := events w |}).

(** [new Uint8Array(n)] *)
Definition Uint8Array_new (n : nat) : M loc := alloc (replicate n x00).

(** [new Uint8Array(typedArray)]: a copy. *)
Definition Uint8Array_from (src : loc) : M loc :=
  bs ← read src; alloc bs.

(** [a.length] *)
Definition length_of (a : loc) : M nat :=
  bs ← read a; ret (length bs).

(** [a[i] = v] on a typed array: nothing happens out of range. *)
Definition store (a : loc) (i : nat) (v : byte) : M unit :=
  bs ← read a; write a (<[i := v]> bs).

(** [a.fill(v, start, end)] *)
Definition fill (a : loc) (v : byte) (start end_ : nat) : M unit :=
  bs ← read a; write a (ta_fill v start end_ bs).

(** [target.set(source, offset)] *)
Definition set (target source : loc) (offset : nat) : M unit :=
  src ← read source;
  tgt ← read target;
  match ta_set src offset tgt with
  | Some bs => write target bs
  | None => throw RangeError
  end.

(** [a.slice(start, end)]: a new typed array. *)
Definition slice (a : loc) (start end_ : nat) : M loc :=
  bs ← read a; alloc (ta_slice start end_ bs).

(** ** hashAB.js *)

#[global] Instance byte_inhabited : Inhabited byte := populate x00.

Definition get_wasmInstance : M (option Instance) := fun w =>
  (Return (wasmInstance w), w).

Definition set_wasmInstance (i : option Instance) : M unit := fun w =>
  (Return tt, {| heap := heap w; wasmInstance := i; events := events w |}).

(** *** Suspension at [await]

    An [async] function runs without interruption up to an [await].  There
    it is suspended, and until it is resumed the rest of the program runs:
    calls that were suspended are resumed, new calls are made.
    [await others] is the suspension as the suspended call sees it,
    [others] being what the rest of the program did to the world in the
    meantime. *)
Definition await (others : world -> world) : M unit := fun w =>
  (Return tt, others w).

(** What happens during each [await] that a call passes, counted from 0
    in the order the call passes them. *)
Definition schedule : Type := nat -> world -> world.

(** Nothing else runs while the call is suspended: the call is awaited
    before the program does anything else. *)
Definition alone : schedule := fun _ w => w.

(** [initHashAB] up to its first [await]: [if (wasmInstance) return;].
    [true] when the call goes on to load. *)
Definition initHashAB_guard : M bool :=
  cur ← get_wasmInstance;
  match cur with
  | Some _ => ret false
  | None => ret true
  end.

(** [initHashAB] after its last [await]: fetching and instantiating
    calcHashAB.wasm is the environment's part, and [load] is what the
    awaits delivered, an instance or the rejection of one of them.  The
    module variable is assigned without a second look at it. *)
Definition initHashAB_resume (load : outcome Instance) : M unit :=
  match load with
  | Return instance => set_wasmInstance (Some instance)
  | Throw e => throw e
  end.

(** [initHashAB()]: the guard, the awaits of [fetch], of [arrayBuffer] and
    of [WebAssembly.instantiate], the assignment. *)
Definition initHashAB (others : schedule) (load : outcome Instance) : M unit :=
  loading ← initHashAB_guard;
  if loading : bool then
    await (others 0);;
    await (others 1);;
    await (others 2);;
    initHashAB_resume load
  else ret tt.

(** A call of [initHashAB] in flight is resumed during await [k] of the
    call that is looked at, with what its load delivered. *)
Definition init_resumes_at (k : nat) (load : outcome Instance) : schedule :=
  fun j w => if decide (j = k) then (initHashAB_resume load w).2 else w.

(** [mem.set(source, ptr)] where [mem] is the view of the instance's linear
    memory. *)
Definition mem_set (inst : Instance) (source : loc) (ptr : nat) : M Instance :=
  src ← read source;
  match ta_set src ptr (memory inst) with
  | Some m =>
      let inst' := with_memory m inst in
      set_wasmInstance (Some inst');; ret inst'
  | None => throw RangeError
  end.

(** [calcHashAB(sha1, uuid)] *)
Definition calcHashAB (sha1 uuid : loc) : M loc :=
  cur ← get_wasmInstance;
  match cur with
  | None => throw Error_not_initialized
  | Some inst =>
      let sha1Ptr := getInputSha1 inst in
      let uuidPtr := getInputUuid inst in
      let outputPtr := getOutput inst in
      inst1 ← mem_set inst sha1 sha1Ptr;
      inst2 ← mem_set inst1 uuid uuidPtr;
      emit wasm_calculateHash;;
      let mem := calculateHash inst2 (memory inst2) in
      set_wasmInstance (Some (with_memory mem inst2));;
      out ← alloc (ta_slice outputPtr (outputPtr + 57) mem);
      Uint8Array_from out
  end.

(** [sha1(data)], awaited on its own. *)
Definition sha1 (data : loc) : M loc :=
  bs ← read data;
  emit (crypto_subtle_digest bs);;
  alloc (SHA1.digest bs).

(** [sha1(data)] with its suspension: the digest is taken of the bytes the
    array holds at the call, and the array for the result is made after
    the [await]. *)
Definition sha1_async (during : world -> world) (data : loc) : M loc :=
  bs ← read data;
  emit (crypto_subtle_digest bs);;
  await during;;
  alloc (SHA1.digest bs).

Definition MHBD_DB_ID_OFFSET : nat := 0x18.
Definition MHBD_DB_ID_LEN : nat := 8.
Definition MHBD_HASH58_OFFSET : nat := 0x58.
Definition MHBD_HASH58_LEN : nat := 20.
Definition MHBD_HASH72_OFFSET : nat := 0x72.
Definition MHBD_HASH72_LEN : nat := 46.
Definition MHBD_HASHAB_OFFSET : nat := 0xAB.
Definition MHBD_HASHAB_LEN : nat := 57.
Definition MHBD_SCHEME_OFFSET : nat := 0x30.

Definition warn_too_small : string :=
  "[hashAB] iTunesCDB too small for hashAB recomputation".
Definition warn_not_mhbd : string :=
  "[hashAB] iTunesCDB does not start with mhbd".

(** [recomputeITunesCDBHash(data, uuid)], awaited on its own. *)
Definition recomputeITunesCDBHash (data uuid : loc) : M loc :=
  len ← length_of data;
  if decide (len < 0xAB + 57) then
    emit (console_warn warn_too_small);; ret data
  else
    d ← read data;
    let magic := fromCharCode [d !!! 0; d !!! 1; d !!! 2; d !!! 3] in
    if decide (magic ≠ "mhbd"%string) then
      emit (console_warn warn_not_mhbd);; ret data
    else
      store data MHBD_SCHEME_OFFSET x03;;
      store data (MHBD_SCHEME_OFFSET + 1) x00;;
      buf ← Uint8Array_from data;
      fill buf x00 MHBD_DB_ID_OFFSET (MHBD_DB_ID_OFFSET + MHBD_DB_ID_LEN);;
      fill buf x00 MHBD_HASH58_OFFSET (MHBD_HASH58_OFFSET + MHBD_HASH58_LEN);;
      fill buf x00 MHBD_HASH72_OFFSET (MHBD_HASH72_OFFSET + MHBD_HASH72_LEN);;
      fill buf x00 MHBD_HASHAB_OFFSET (MHBD_HASHAB_OFFSET + MHBD_HASHAB_LEN);;
      sha1Hash ← sha1 buf;
      sig ← calcHashAB sha1Hash uuid;
      set data sig MHBD_HASHAB_OFFSET;;
      h ← read sha1Hash;
      sig4 ← slice sig 0 4;
      s ← read sig4;
      emit (console_log ("[hashAB] Recomputed iTunesCDB hash (SHA1: " ++ hex h
                         ++ ", sig[0:4]: " ++ hex s ++ ")"));;
      ret data.

(** [recomputeITunesCDBHash(data, uuid)] with its suspensions: in
    [await sha1(buf)] the call is suspended while [sha1] awaits the digest
    (await 0) and once more until it is resumed with the result of [sha1]
    (await 1).  [calcHashAB] looks at [wasmInstance] after both. *)
Definition recomputeITunesCDBHash_async (others : schedule) (data uuid : loc)
  : M loc :=
  len ← length_of data;
  if decide (len < 0xAB + 57) then
    emit (console_warn warn_too_small);; ret data
  else
    d ← read data;
    let magic := fromCharCode [d !!! 0; d !!! 1; d !!! 2; d !!! 3] in
    if decide (magic ≠ "mhbd"%string) then
      emit (console_warn warn_not_mhbd);; ret data
    else
      store data MHBD_SCHEME_OFFSET x03;;
      store data (MHBD_SCHEME_OFFSET + 1) x00;;
      buf ← Uint8Array_from data;
      fill buf x00 MHBD_DB_ID_OFFSET (MHBD_DB_ID_OFFSET + MHBD_DB_ID_LEN);;
      fill buf x00 MHBD_HASH58_OFFSET (MHBD_HASH58_OFFSET + MHBD_HASH58_LEN);;
      fill buf x00 MHBD_HASH72_OFFSET (MHBD_HASH72_OFFSET + MHBD_HASH72_LEN);;
      fill buf x00 MHBD_HASHAB_OFFSET (MHBD_HASHAB_OFFSET + MHBD_HASHAB_LEN);;
      sha1Hash ← sha1_async (others 0) buf;
      await (others 1);;
      sig ← calcHashAB sha1Hash uuid;
      set data sig MHBD_HASHAB_OFFSET;;
      h ← read sha1Hash;
      sig4 ← slice sig 0 4;
      s ← read sig4;
      emit (console_log ("[hashAB] Recomputed iTunesCDB hash (SHA1: " ++ hex h
                         ++ ", sig[0:4]: " ++ hex s ++ ")"));;
      ret data.

Definition CBK_BLOCK_SIZE : nat := 1024.
Definition CBK_HEADER_SIZE : nat := 57.
Definition CBK_SHA1_SIZE : nat := 20.

(** The body of the first loop of [computeLocationsCBK], awaited on its
    own. *)
Definition hash_block (locationsData : loc) (blockHashes : list loc) (i : nat)
  : M (list loc) :=
  let start := i * CBK_BLOCK_SIZE in
  len ← length_of locationsData;
  let end_ := Nat.min (start + CBK_BLOCK_SIZE) len in
  block ← slice locationsData start end_;
  blen ← length_of block;
  paddedBlock ←
    (if decide (blen < CBK_BLOCK_SIZE) then
       p ← Uint8Array_new CBK_BLOCK_SIZE;
       set p block 0;;
       ret p
     else ret block);
  hash ← sha1 paddedBlock;
  ret (blockHashes ++ [hash]).

(** The body of the second loop: [allHashes.set(blockHashes[i], i * 20)]. *)
Definition copy_hash (allHashes : loc) (blockHashes : list loc) (_ : unit)
    (i : nat) : M unit :=
  match blockHashes !! i with
  | Some h => set allHashes h (i * CBK_SHA1_SIZE)
  | None => throw TypeError
  end.

(** [computeLocationsCBK(locationsData, uuid)], awaited on its own. *)
Definition computeLocationsCBK (locationsData uuid : loc) : M loc :=
  len ← length_of locationsData;
  let numBlocks := Math_ceil_div len CBK_BLOCK_SIZE in
  blockHashes ← foldM (hash_block locationsData) [] (seq 0 numBlocks);
  allHashes ← Uint8Array_new (numBlocks * CBK_SHA1_SIZE);
  foldM (copy_hash allHashes blockHashes) tt (seq 0 numBlocks);;
  masterSha1 ← sha1 allHashes;
  sig ← calcHashAB masterSha1 uuid;
  let cbkSize := CBK_HEADER_SIZE + CBK_SHA1_SIZE + numBlocks * CBK_SHA1_SIZE in
  cbk ← Uint8Array_new cbkSize;
  set cbk sig 0;;
  set cbk masterSha1 CBK_HEADER_SIZE;;
  set cbk allHashes (CBK_HEADER_SIZE + CBK_SHA1_SIZE);;
  m ← read masterSha1;
  sig4 ← slice sig 0 4;
  s ← read sig4;
  emit (console_log ("[hashAB] Computed Locations.itdb.cbk: " ++ pretty cbkSize
                     ++ " bytes, " ++ pretty numBlocks ++ " blocks, master SHA1: "
                     ++ hex m ++ ", sig[0:4]: " ++ hex s));;
  ret cbk.

(** The body of the first loop with its suspensions: block [i] passes
    awaits [2 * i] (in [sha1]) and [2 * i + 1]. *)
Definition hash_block_async (others : schedule) (locationsData : loc)
    (blockHashes : list loc) (i : nat) : M (list loc) :=
  let start := i * CBK_BLOCK_SIZE in
  len ← length_of locationsData;
  let end_ := Nat.min (start + CBK_BLOCK_SIZE) len in
  block ← slice locationsData start end_;
  blen ← length_of block;
  paddedBlock ←
    (if decide (blen < CBK_BLOCK_SIZE) then
       p ← Uint8Array_new CBK_BLOCK_SIZE;
       set p block 0;;
       ret p
     else ret block);
  hash ← sha1_async (others (2 * i)) paddedBlock;
  await (others (2 * i + 1));;
  ret (blockHashes ++ [hash]).

(** [computeLocationsCBK(locationsData, uuid)] with its suspensions: two
    for each block and two for the master digest.  [calcHashAB] looks at
    [wasmInstance] after all of them. *)
Definition computeLocationsCBK_async (others : schedule)
    (locationsData uuid : loc) : M loc :=
  len ← length_of locationsData;
  let numBlocks := Math_ceil_div len CBK_BLOCK_SIZE in
  blockHashes ←
    foldM (hash_block_async others locationsData) [] (seq 0 numBlocks);
  allHashes ← Uint8Array_new (numBlocks * CBK_SHA1_SIZE);
  foldM (copy_hash allHashes blockHashes) tt (seq 0 numBlocks);;
  masterSha1 ← sha1_async (others (2 * numBlocks)) allHashes;
  await (others (2 * numBlocks + 1));;
  sig ← calcHashAB masterSha1 uuid;
  let cbkSize := CBK_HEADER_SIZE + CBK_SHA1_SIZE + numBlocks * CBK_SHA1_SIZE in
  cbk ← Uint8Array_new cbkSize;
  set cbk sig 0;;
  set cbk masterSha1 CBK_HEADER_SIZE;;
  set cbk allHashes (CBK_HEADER_SIZE + CBK_SHA1_SIZE);;
  m ← read masterSha1;
  sig4 ← slice sig 0 4;
  s ← read sig4;
  emit (console_log ("[hashAB] Computed Locations.itdb.cbk: " ++ pretty cbkSize
                     ++ " bytes, " ++ pretty numBlocks ++ " blocks, master SHA1: "
                     ++ hex m ++ ", sig[0:4]: " ++ hex s));;
  ret cbk.

(** [parseUUID(guidStr)] *)
Definition parseUUID (guidStr : string) : M loc :=
  let hexStr := replace_0x guidStr in
  bytes ← Uint8Array_new 8;
  foldM (fun _ i =>
           store bytes i (number_to_uint8 (parseInt16 (substr (i * 2) 2 hexStr))))
        tt (seq 0 8);;
  ret bytes.

(** ** Concrete worlds used to run the operations *)

(** A stand-in for calcHashAB.wasm with 128 bytes of memory: the digest is
    read at 0, the device id at 32 and the signature is written at 64. *)
Definition demo_calculateHash (m : list byte) : list byte :=
  list_inserts 64 (x03 :: x00 :: ta_slice 0 20 m ++ ta_slice 32 40 m
                     ++ replicate 27 x00) m.

Definition demo_instance : Instance :=
  {| memory := replicate 128 x00;
     getInputSha1 := 0;
     getInputUuid := 32;
     getOutput := 64;
     calculateHash := demo_calculateHash |}.

Definition empty_world : world :=
  {| heap := ∅; wasmInstance := None; events := [] |}.

(** A world with a container (or source) buffer at reference 1 and a
    device id at reference 2. *)
Definition demo_heap (bs ub : list byte) : gmap loc (list byte) :=
  <[2%positive := ub]> (<[1%positive := bs]> ∅).

(** ... while [wasmInstance] is unset, *)
Definition cold_world (bs ub : list byte) : world :=
  {| heap := demo_heap bs ub; wasmInstance := None; events := [] |}.

(** ... and after a call of [initHashAB] has been awaited. *)
Definition demo_world (bs ub : list byte) : world :=
  snd (initHashAB alone (Return demo_instance) (cold_world bs ub)).

Definition demo_uuid : list byte := [x00; x0a; x27; x00; x24; x8f; x53; x08].

(** A 256-byte container that starts with the mhbd magic and carries
    non-zero bytes in every header field. *)
Definition demo_mhbd : list byte :=
  bytes_of_string "mhbd" ++ map (fun i => ToUint8 (Z.of_nat i)) (seq 4 252).

(** ** Pure summaries of the operations, used to state what a run leaves *)

(** A container the patcher accepts: long enough, and starting with the
    four bytes of the mhbd magic. *)
Definition valid_mhbd (bs : list byte) : Prop :=
  0xAB + 57 <= length bs /\ take 4 bs = bytes_of_string "mhbd".

(** The two stores into the hashing-scheme field. *)
Definition set_scheme (bs : list byte) : list byte :=
  <[MHBD_SCHEME_OFFSET + 1 := x00]> (<[MHBD_SCHEME_OFFSET := x03]> bs).

(** The working copy after the four [fill] calls. *)
Definition zeroed (bs : list byte) : list byte :=
  ta_fill x00 MHBD_HASHAB_OFFSET (MHBD_HASHAB_OFFSET + MHBD_HASHAB_LEN)
    (ta_fill x00 MHBD_HASH72_OFFSET (MHBD_HASH72_OFFSET + MHBD_HASH72_LEN)
       (ta_fill x00 MHBD_HASH58_OFFSET (MHBD_HASH58_OFFSET + MHBD_HASH58_LEN)
          (ta_fill x00 MHBD_DB_ID_OFFSET (MHBD_DB_ID_OFFSET + MHBD_DB_ID_LEN)
             bs))).

(** What [calcHashAB] does with the instance: the instance afterwards and
    the bytes it returns, or [None] when a [mem.set] is out of bounds. *)
Definition engine_run (inst : Instance) (sha1 uuid : list byte)
  : option (Instance * list byte) :=
  m1 ← ta_set sha1 (getInputSha1 inst) (memory inst);
  m2 ← ta_set uuid (getInputUuid inst) m1;
  let m3 := calculateHash inst m2 in
  Some (with_memory m3 inst,
        ta_slice (getOutput inst) (getOutput inst + 57) m3).

(** The contract of the external SignatureEngine: the three buffers lie in
    the linear memory, [calculateHash] keeps the memory size, and the 57
    output bytes are a function of the 20 digest bytes and the 8 device-id
    bytes alone. *)
Record SignatureEngine (inst : Instance) : Prop := {
  sha1_in_memory : getInputSha1 inst + 20 <= length (memory inst);
  uuid_in_memory : getInputUuid inst + 8 <= length (memory inst);
  output_in_memory : getOutput inst + 57 <= length (memory inst);
  calculateHash_length :
    forall m, length (calculateHash inst m) = length m;
  calculateHash_pure :
    forall m m',
      length m = length (memory inst) -> length m' = length (memory inst) ->
      ta_slice (getInputSha1 inst) (getInputSha1 inst + 20) m
      = ta_slice (getInputSha1 inst) (getInputSha1 inst + 20) m' ->
      ta_slice (getInputUuid inst) (getInputUuid inst + 8) m
      = ta_slice (getInputUuid inst) (getInputUuid inst + 8) m' ->
      ta_slice (getOutput inst) (getOutput inst + 57) (calculateHash inst m)
      = ta_slice (getOutput inst) (getOutput inst + 57) (calculateHash inst m')
}.

(** The signature the engine computes for a digest and a device id, from
    its initial memory. *)
Definition hashAB (inst : Instance) (sha1 uuid : list byte) : list byte :=
  ta_slice (getOutput inst) (getOutput inst + 57)
    (calculateHash inst
       (list_inserts (getInputUuid inst) uuid
          (list_inserts (getInputSha1 inst) sha1 (memory inst)))).

(** The same module with possibly different memory contents. *)
Definition same_engine (inst inst' : Instance) : Prop :=
  getInputSha1 inst' = getInputSha1 inst /\
  getInputUuid inst' = getInputUuid inst /\
  getOutput inst' = getOutput inst /\
  calculateHash inst' = calculateHash inst /\
  length (memory inst') = length (memory inst).

(** The four regions that are zeroed in the working copy. *)
Definition in_zeroed_region (i : nat) : Prop :=
  0x18 <= i < 0x18 + 8 \/ 0x58 <= i < 0x58 + 20 \/
  0x72 <= i < 0x72 + 46 \/ 0xAB <= i < 0xAB + 57.

#[global] Instance in_zeroed_region_dec i : Decision (in_zeroed_region i).
Proof. unfold in_zeroed_region. apply _. Defined.

(** The bytes handed to the digest for block [i] of a source buffer. *)
Definition block_input (bs : list byte) (i : nat) : list byte :=
  let b := ta_slice (i * CBK_BLOCK_SIZE)
             (Nat.min (i * CBK_BLOCK_SIZE + CBK_BLOCK_SIZE) (length bs)) bs in
  if decide (length b < CBK_BLOCK_SIZE)
  then list_inserts 0 b (replicate CBK_BLOCK_SIZE x00)
  else b.

(** The concatenated block digests. *)
Definition all_hashes (bs : list byte) : list byte :=
  concat (map (fun i => SHA1.digest (block_input bs i))
              (seq 0 (Math_ceil_div (length bs) CBK_BLOCK_SIZE))).

(** A string of hexadecimal digits. *)
Fixpoint all_hex (s : string) : bool :=
  match s with
  | EmptyString => true
  | String c rest => bool_decide (is_Some (hex_value c)) && all_hex rest
  end.

(** The element stores of the loop of [parseUUID], on the contents. *)
Definition store_all (f : nat -> byte) (idx : list nat) (bytes : list byte)
  : list byte :=
  fold_left (fun c i => <[i := f i]> c) idx bytes.

(** The checksum file assembled from a signature and the source bytes:
    the three [set] calls on the zero-filled [cbk]. *)
Definition cbk_file (sig bs : list byte) : list byte :=
  let n := Math_ceil_div (length bs) CBK_BLOCK_SIZE in
  list_inserts (CBK_HEADER_SIZE + CBK_SHA1_SIZE) (all_hashes bs)
    (list_inserts CBK_HEADER_SIZE (SHA1.digest (all_hashes bs))
       (list_inserts 0 sig
          (replicate (CBK_HEADER_SIZE + CBK_SHA1_SIZE + n * CBK_SHA1_SIZE)
             x00))).

(** The digest calls of the block loop, in order. *)
Definition block_digest_calls (bs : list byte) (blocks : list nat) : list event :=
  map (fun i => crypto_subtle_digest (block_input bs i)) blocks.

(** The bytes [parseUUID] leaves in the array it returns. *)
Definition uuid_bytes (guidStr : string) : list byte :=
  map (fun i => number_to_uint8
                  (parseInt16 (substr (i * 2) 2 (replace_0x guidStr))))
      (seq 0 8).

(** Weakest precondition of a run: [Q] holds of what the run from [w]
    returns or throws and of the world it leaves. *)
Definition wp {A} (m : M A) (w : world) (Q : outcome A -> world -> Prop) : Prop :=
  Q (m w).1 (m w).2.

(** Postconditions for runs that leave the typed arrays of [h0] alone:
    [kept h0] for any outcome, [fresh_in h0] when the value returned is a
    reference that [h0] does not hold. *)
Definition kept {A} (h0 : gmap loc (list byte)) : outcome A -> world -> Prop :=
  fun _ w' => h0 ⊆ heap w'.

Definition fresh_in (h0 : gmap loc (list byte)) : outcome loc -> world -> Prop :=
  fun r w' => h0 ⊆ heap w' /\ forall l, r = Return l -> h0 !! l = None.

(** ** Summaries for the life cycle of the engine and for identifiers *)

(** Several calls of [initHashAB].  A call is made ([Init_call]) and runs
    up to its first await; if it was suspended there, it is resumed later
    ([Init_resume]) with what its load delivered, and other calls may be
    made and resumed in between.  [c] names the call. *)
Inductive init_event :=
| Init_call (c : nat)
| Init_resume (c : nat) (load : outcome Instance).

(** One event, on the world and the calls that are suspended.  A load
    that was rejected rejects the promise of its call and leaves the world
    as it is. *)
Definition init_step (s : world * list nat) (e : init_event)
  : world * list nat :=
  match e with
  | Init_call c =>
      match initHashAB_guard s.1 with
      | (Return true, w) => (w, c :: s.2)
      | (_, w) => (w, s.2)
      end
  | Init_resume c load =>
      if decide (c ∈ s.2)
      then ((initHashAB_resume load s.1).2, filter (fun c' => c' <> c) s.2)
      else s
  end.

Definition init_calls (es : list init_event) (w : world) : world * list nat :=
  fold_left init_step es (w, []).

(** Every call is awaited before the next is made. *)
Definition one_after_another (calls : list (nat * outcome Instance))
  : list init_event :=
  concat (map (fun cl => [Init_call cl.1; Init_resume cl.1 cl.2]) calls).

(** All the calls are made before any of them is resumed. *)
Definition all_at_once (calls : list nat)
    (resumes : list (nat * outcome Instance)) : list init_event :=
  map Init_call calls ++ map (fun r => Init_resume r.1 r.2) resumes.

(** The first load of a sequence that succeeded, and the last. *)
Fixpoint first_loaded (loads : list (outcome Instance)) : option Instance :=
  match loads with
  | [] => None
  | Return inst :: _ => Some inst
  | Throw _ :: rest => first_loaded rest
  end.

Definition last_loaded (loads : list (outcome Instance)) : option Instance :=
  first_loaded (rev loads).

(** What the rest of the program may do during an [await] of a call
    without disturbing it: it leaves the typed arrays there are as they
    are (the single-writer discipline) and may create new ones, and it
    keeps off the console and the digest engine. *)
Definition undisturbing (o : world -> world) : Prop :=
  forall w, heap w ⊆ heap (o w) /\ events (o w) = events w.

(** No call of [initHashAB] is resumed with an instance during the
    [await]. *)
Definition leaves_engine_unset (o : world -> world) : Prop :=
  forall w, wasmInstance w = None -> wasmInstance (o w) = None.

(** Characters that [parseInt] reads something into at the head of a
    string: digits of the radix, a sign, white space. *)
Definition parseInt_head (c : ascii) : bool :=
  bool_decide (is_Some (hex_value c)) || is_white_space c
  || bool_decide (c = "+"%char) || bool_decide (c = "-"%char).

(** The container of the running example with its device-id field, digest
    regions and signature region filled with zeros. *)
Definition demo_mhbd_blank : list byte := zeroed demo_mhbd.

(** A second world for the running example: a second device id at
    reference 3. *)
Definition demo_uuid_other : list byte :=
  [x01; x02; x03; x04; x05; x06; x07; x08].

Definition demo_world_two : world :=
  {| heap := <[3%positive := demo_uuid_other]> (demo_heap demo_mhbd demo_uuid);
     wasmInstance := Some demo_instance;
     events := [] |}.

(** A second stand-in for the engine: it differs from the first in what its
    memory holds at the start. *)
Definition demo_instance_other : Instance :=
  with_memory (replicate 128 x5a) demo_instance.

(** ** createAppState: the application state store

    JavaScript values as the store sees them: it only stores them and
    compares them with [!==].  Numbers are the integers and NaN; objects,
    arrays and functions are references, compared by identity. *)
Module AppState.

Inductive value :=
| VUndefined
| VNull
| VBool (b : bool)
| VNumber (z : Z)
| VNaN
| VString (s : string)
| VObject (ref : positive).

#[global] Instance value_eq_dec : EqDecision value.
Proof. solve_decision. Defined.

(** [a === b] *)
Definition strict_equal (a b : value) : bool :=
  match a, b with
  | VNaN, _ | _, VNaN => false
  | _, _ => bool_decide (a = b)
  end.

(** A listener is a function object; the store calls it and does nothing
    else with it.  Its calls are recorded; listeners that call back into
    the store or throw are outside this model. *)
Definition listener := positive.

Record notification := {
  to : listener;
  key : string;
  newValue : value;
  oldValue : value
}.

(** The closure of [createAppState]: the [state] object, the [listeners]
    set in insertion order, and the listener calls made so far. *)
Record app := {
  state : gmap string value;
  listeners : list listener;
  notified : list notification
}.

(** The object literal of the defaults; its three empty arrays are new
    objects, with references [arrays], [arrays + 1] and [arrays + 2]. *)
Definition defaults (arrays : positive) : gmap string value :=
  list_to_map
    [("ipodHandle"%string, VNull);
     ("isConnected"%string, VBool false);
     ("tracks"%string, VObject arrays);
     ("playlists"%string, VObject (arrays + 1));
     ("currentPlaylistIndex"%string, VNumber (-1));
     ("wasmReady"%string, VBool false);
     ("pendingUploads"%string, VObject (arrays + 2))].

(** [createAppState(initialState)]: the spread of [initialState] comes
    last and overrides the defaults. *)
Definition createAppState (arrays : positive) (initialState : gmap string value)
  : app :=
  {| state := initialState ∪ defaults arrays; listeners := []; notified := [] |}.

Section store.

(** What a plain object inherits from [Object.prototype] under a name: a
    method for names such as toString, [undefined] for a name that the
    prototype does not have. *)
Variable inherited : string -> value.

(** [state[key]] *)
Definition get (k : string) (a : app) : value :=
  match state a !! k with
  | Some v => v
  | None => inherited k
  end.

(** [set(key, value)], for a key that the assignment writes as an own
    property (see [ordinary_key] below). *)
Definition set (k : string) (v : value) (a : app) : app :=
  let old := get k a in
  {| state := <[k := v]> (state a);
     listeners := listeners a;
     notified :=
       if strict_equal old v then notified a
       else notified a
            ++ map (fun fn => {| to := fn; key := k; newValue := v;
                                 oldValue := old |})
                   (listeners a) |}.

(** [getState()]: a copy of the own properties. *)
Definition getState (a : app) : gmap string value := state a.

(** [listeners.add(listener)] *)
Definition subscribe (fn : listener) (a : app) : app :=
  {| state := state a;
     listeners := if decide (fn ∈ listeners a) then listeners a
                  else listeners a ++ [fn];
     notified := notified a |}.

(** The function that [subscribe] returns: [listeners.delete(listener)]. *)
Definition unsubscribe (fn : listener) (a : app) : app :=
  {| state := state a;
     listeners := filter (fun fn' => fn' <> fn) (listeners a);
     notified := notified a |}.

(** The calls a client makes on the store. *)
Inductive op :=
| Call_set (k : string) (v : value)
| Call_subscribe (fn : listener)
| Call_unsubscribe (fn : listener).

Definition step (a : app) (o : op) : app :=
  match o with
  | Call_set k v => set k v a
  | Call_subscribe fn => subscribe fn a
  | Call_unsubscribe fn => unsubscribe fn a
  end.

Definition run (ops : list op) (a : app) : app := fold_left step ops a.

End store.

(** An assignment [state[key] = value] creates or overwrites an own
    property for every key but [__proto__], which an object that has no own
    property of that name takes as its prototype.  The calls that stay
    within the model are those that set another key. *)
Definition ordinary_key (k : string) : bool := negb (String.eqb k "__proto__").

Definition ordinary_call (o : op) : bool :=
  match o with
  | Call_set k _ => ordinary_key k
  | _ => true
  end.

(** Whether the last call about [fn] in a sequence subscribed it. *)
Definition subscribed (fn : listener) (ops : list op) : bool :=
  fold_left (fun b o =>
               match o with
               | Call_subscribe fn' => if decide (fn' = fn) then true else b
               | Call_unsubscribe fn' => if decide (fn' = fn) then false else b
               | Call_set _ _ => b
               end) ops false.

(** The value of the last [set] of a key in a sequence of calls. *)
Definition last_set (k : string) (ops : list op) : option value :=
  fold_left (fun r o =>
               match o with
               | Call_set k' v => if decide (k' = k) then Some v else r
               | _ => r
               end) ops None.

(** A store whose object inherits nothing, for running examples. *)
Definition no_inherited (_ : string) : value := VUndefined.

End AppState.

(** ** createTrackSelection: the selection of rows in the track table

    The table body is a list of rows; what the code reads of a row is
    [Number(row.getAttribute('data-track-id'))] and what it writes is the
    class [selected].  The conversion of the attribute to a number is the
    browser's: a row carries the number (or NaN) the attribute converts
    to. *)
Module TrackSelection.
Import AppState.

(** A [tr] element. *)
Record tr := {
  data_track_id : option value;   (* None: the row has no such attribute *)
  selected : bool                 (* the row has the class selected *)
}.

(** [Number(row.getAttribute('data-track-id'))]: [getAttribute] gives
    [null] for a missing attribute, and [Number(null)] is 0. *)
Definition row_number (r : tr) : value :=
  match data_track_id r with
  | Some v => v
  | None => VNumber 0
  end.

(** The closure of [createTrackSelection] and what it reaches:
    [state.anchorTrackId], the property [appState.selectedTrackIds]
    ([None] when it is not an array), the element [trackTableBody] ([None]
    when the document has none), and the calls of [log]. *)
Record selection := {
  anchorTrackId : value;
  selectedTrackIds : option (list value);
  tbody : option (list tr);
  logged : list (string * string)
}.

(** [Number.isFinite(n)] *)
Definition isFinite (v : value) : bool :=
  match v with
  | VNumber _ => true
  | _ => false
  end.

(** [isSelectableTrackId(trackId)] *)
Definition isSelectableTrackId (trackId : value) : bool :=
  match trackId with
  | VNumber z => bool_decide (0 <= z)%Z
  | _ => false
  end.

(** [set.add(x)] on a set held in insertion order. *)
Definition Set_add (x : value) (s : list value) : list value :=
  if decide (x ∈ s) then s else s ++ [x].

(** [set.delete(x)] *)
Definition Set_delete (x : value) (s : list value) : list value :=
  filter (fun y => y <> x) s.

(** [new Set(array)], in insertion order. *)
Definition Set_of (l : list value) : list value :=
  fold_left (fun s x => Set_add x s) l [].

(** [array.indexOf(x)]; [None] is -1. *)
Fixpoint indexOf (x : value) (l : list value) : option nat :=
  match l with
  | [] => None
  | y :: l' => if strict_equal y x then Some 0 else S <$> indexOf x l'
  end.

(** [getSelectedTrackIds()] *)
Definition getSelectedTrackIds (st : selection) : list value :=
  match selectedTrackIds st with
  | Some ids => filter (fun n => isFinite n = true) ids
  | None => []
  end.

(** [applySelectionToDom()] *)
Definition applySelectionToDom (st : selection) : selection :=
  match tbody st with
  | None => st
  | Some rows =>
      let selected_set := Set_of (getSelectedTrackIds st) in
      {| anchorTrackId := anchorTrackId st;
         selectedTrackIds := selectedTrackIds st;
         tbody :=
           Some (map (fun row =>
                        let id := row_number row in
                        {| data_track_id := data_track_id row;
                           selected :=
                             isFinite id && bool_decide (id ∈ selected_set) |})
                     rows);
         logged := logged st |}
  end.

(** [setSelectedTrackIds(ids)] *)
Definition setSelectedTrackIds (ids : list value) (st : selection) : selection :=
  let unique := Set_of (filter (fun n => isFinite n = true) ids) in
  applySelectionToDom
    {| anchorTrackId := anchorTrackId st;
       selectedTrackIds := Some unique;
       tbody := tbody st;
       logged := logged st |}.

Definition set_anchor (v : value) (st : selection) : selection :=
  {| anchorTrackId := v;
     selectedTrackIds := selectedTrackIds st;
     tbody := tbody st;
     logged := logged st |}.

(** [clearSelection()] *)
Definition clearSelection (st : selection) : selection :=
  setSelectedTrackIds [] (set_anchor VNull st).

(** [getVisibleTrackIds()] *)
Definition getVisibleTrackIds (st : selection) : list value :=
  match tbody st with
  | None => []
  | Some rows =>
      filter (fun n => isFinite n = true)
        (map row_number
           (filter (fun row => is_Some (data_track_id row)) rows))
  end.

(** [ensureTrackSelected(trackId)], on [Number(trackId)]. *)
Definition ensureTrackSelected (id : value) (st : selection) : selection :=
  if isSelectableTrackId id then
    if decide (id ∈ getSelectedTrackIds st) then st
    else setSelectedTrackIds [id] (set_anchor id st)
  else st.

(** What [handleRowClick] reads of a click: whether it hit a button, link
    or form control, the number of the closest row with a
    [data-track-id], and the modifier keys. *)
Record click := {
  on_control : bool;
  row : option value;
  metaKey : bool;
  ctrlKey : bool;
  shiftKey : bool
}.

(** [handleRowClick(e)] *)
Definition handleRowClick (e : click) (st : selection) : selection :=
  if on_control e then st
  else
    match row e with
    | None => st
    | Some clickedId =>
        if negb (isSelectableTrackId clickedId) then st
        else
          let metaOrCtrl := metaKey e || ctrlKey e in
          let current := getSelectedTrackIds st in
          let currentSet := Set_of current in
          if shiftKey e then
            let visible := getVisibleTrackIds st in
            let anchor :=
              if isSelectableTrackId (anchorTrackId st) then anchorTrackId st
              else clickedId in
            match indexOf anchor visible, indexOf clickedId visible with
            | Some a, Some b =>
                let '(start, end_) := if decide (a < b) then (a, b) else (b, a) in
                let range := take (end_ + 1 - start) (drop start visible) in
                if metaOrCtrl then
                  setSelectedTrackIds
                    (fold_left (fun s id => Set_add id s) range currentSet)
                    (set_anchor anchor st)
                else setSelectedTrackIds range (set_anchor anchor st)
            | _, _ =>
                setSelectedTrackIds
                  (if metaOrCtrl then currentSet ++ [clickedId]
                   else [clickedId])
                  (set_anchor clickedId st)
            end
          else if metaOrCtrl then
            setSelectedTrackIds
              (if decide (clickedId ∈ currentSet)
               then Set_delete clickedId currentSet
               else Set_add clickedId currentSet)
              (set_anchor clickedId st)
          else setSelectedTrackIds [clickedId] (set_anchor clickedId st)
    end.

(** [selectAllVisible()]: [visible[0] ?? null] is the first element of a
    list that is not empty. *)
Definition selectAllVisible (st : selection) : selection :=
  match getVisibleTrackIds st with
  | [] =>
      {| anchorTrackId := anchorTrackId st;
         selectedTrackIds := selectedTrackIds st;
         tbody := tbody st;
         logged := logged st ++ [("No tracks to select"%string, "info"%string)] |}
  | first :: rest =>
      setSelectedTrackIds (first :: rest) (set_anchor first st)
  end.

(** The selection and the table agree: the selection is an array of
    different finite numbers, and a row has the class [selected] exactly
    when its number is one of them. *)
Definition in_sync (st : selection) : Prop :=
  exists ids,
    selectedTrackIds st = Some ids /\ NoDup ids /\
    Forall (fun n => isFinite n = true) ids /\
    forall rows, tbody st = Some rows ->
      Forall (fun r => selected r = true <-> row_number r ∈ ids) rows.

(** A table of five rows, the third without a [data-track-id]. *)
Definition demo_rows : list tr :=
  [ {| data_track_id := Some (VNumber 11); selected := false |};
    {| data_track_id := Some (VNumber 12); selected := false |};
    {| data_track_id := None; selected := false |};
    {| data_track_id := Some (VNumber 13); selected := false |};
    {| data_track_id := Some (VNumber 14); selected := false |} ].

Definition demo_selection : selection :=
  {| anchorTrackId := VNull; selectedTrackIds := None;
     tbody := Some demo_rows; logged := [] |}.

Definition plain_click (id : Z) : click :=
  {| on_control := false; row := Some (VNumber id);
     metaKey := false; ctrlKey := false; shiftKey := false |}.

Definition ctrl_click (id : Z) : click :=
  {| on_control := false; row := Some (VNumber id);
     metaKey := false; ctrlKey := true; shiftKey := false |}.

Definition shift_click (id : Z) : click :=
  {| on_control := false; row := Some (VNumber id);
     metaKey := false; ctrlKey := false; shiftKey := true |}.

End TrackSelection.

(** Test vectors of FIPS 180 for the digest above. *)
Example sha1_empty :
  hex (SHA1.digest []) = "da39a3ee5e6b4b0d3255bfef95601890afd80709"%string.
Proof. vm_compute. reflexivity. Qed.

Example sha1_abc :
  hex (SHA1.digest (bytes_of_string "abc"))
  = "a9993e364706816aba3e25717850c26c9cd0d89d"%string.
Proof. vm_compute. reflexivity. Qed.

Example sha1_two_blocks :
  hex (SHA1.digest (bytes_of_string
         "abcdbcdecdefdefgefghfghighijhijkijkljklmklmnlmnomnopnopq"))
  = "84983e441c3bd26ebaae4aa1f95129e5e54670f1"%string.
Proof. vm_compute. reflexivity. Qed.
(** * Reasoning about runs *)

Lemma wp_elim {A} (m : M A) w Q r w' : wp m w Q -> m w = (r, w') -> Q r w'.
Proof. unfold wp. intros H E. rewrite E in H. exact H. Qed.

Lemma wp_run {A} (m : M A) w Q : wp m w Q -> exists r w', m w = (r, w') /\ Q r w'.
Proof. unfold wp. intros H. exists (m w).1, (m w).2. split; [by destruct (m w)|done]. Qed.

Lemma wp_mono {A} (m : M A) w (Q Q' : outcome A -> world -> Prop) :
  wp m w Q -> (forall r w', Q r w' -> Q' r w') -> wp m w Q'.
Proof. unfold wp. auto. Qed.

Lemma wp_bind {A B} (m : M A) (k : A -> M B) w Q :
  wp m w (fun r w1 => match r with
                      | Return a => wp (k a) w1 Q
                      | Throw e => Q (Throw e) w1
                      end) ->
  wp (m ≫= k) w Q.
Proof.
  unfold wp, mbind, M_bind, bind. destruct (m w) as [[a|e] w1]; simpl; auto.
Qed.

Lemma wp_ret {A} (a : A) w Q : Q (Return a) w -> wp (ret a) w Q.
Proof. auto. Qed.

Lemma wp_throw {A} e w (Q : outcome A -> world -> Prop) :
  Q (Throw e) w -> wp (throw e) w Q.
Proof. auto. Qed.

Lemma wp_read l w Q :
  (forall bs, heap w !! l = Some bs -> Q (Return bs) w) ->
  (heap w !! l = None -> Q (Throw TypeError) w) ->
  wp (read l) w Q.
Proof.
  unfold wp, read. intros HS HN. destruct (heap w !! l) eqn:E; simpl; auto.
Qed.

Lemma wp_read_Some l bs w Q :
  heap w !! l = Some bs -> Q (Return bs) w -> wp (read l) w Q.
Proof. unfold wp, read. intros ->. auto. Qed.

Lemma wp_alloc bs w Q :
  (forall l, heap w !! l = None ->
     Q (Return l) {| heap := <[l := bs]> (heap w);
                     wasmInstance := wasmInstance w; events := events w |}) ->
  wp (alloc bs) w Q.
Proof.
  unfold wp, alloc. intros H. simpl. apply H.
  apply not_elem_of_dom, is_fresh.
Qed.

Lemma wp_write l bs w Q :
  Q (Return tt) {| heap := <[l := bs]> (heap w);
                   wasmInstance := wasmInstance w; events := events w |} ->
  wp (write l bs) w Q.
Proof. auto. Qed.

Lemma wp_emit e w Q :
  Q (Return tt) {| heap := heap w; wasmInstance := wasmInstance w;
                   events := events w ++ [e] |} ->
  wp (emit e) w Q.
Proof. auto. Qed.

Lemma wp_get_wasmInstance w Q :
  Q (Return (wasmInstance w)) w -> wp get_wasmInstance w Q.
Proof. auto. Qed.

Lemma wp_set_wasmInstance i w Q :
  Q (Return tt) {| heap := heap w; wasmInstance := i; events := events w |} ->
  wp (set_wasmInstance i) w Q.
Proof. auto. Qed.

Ltac wp_step :=
  lazymatch goal with
  | |- wp (_ ≫= _) _ _ => apply wp_bind
  | |- wp (ret _) _ _ => apply wp_ret
  | |- wp (mret _) _ _ => apply wp_ret
  | |- wp (throw _) _ _ => apply wp_throw
  | |- wp (alloc _) _ _ => apply wp_alloc; intros ? ?
  | |- wp (write _ _) _ _ => apply wp_write
  | |- wp (emit _) _ _ => apply wp_emit
  | |- wp get_wasmInstance _ _ => apply wp_get_wasmInstance
  | |- wp (set_wasmInstance _) _ _ => apply wp_set_wasmInstance
  end; cbn [heap wasmInstance events].

(** The typed-array operations on arrays whose contents are known. *)

Lemma wp_length_of a bs w Q :
  heap w !! a = Some bs -> Q (Return (length bs)) w -> wp (length_of a) w Q.
Proof.
  intros Ha HQ. unfold length_of. wp_step. apply (wp_read_Some _ bs); [done|].
  by wp_step.
Qed.

Lemma wp_store a i v bs w Q :
  heap w !! a = Some bs ->
  Q (Return tt) {| heap := <[a := <[i := v]> bs]> (heap w);
                   wasmInstance := wasmInstance w; events := events w |} ->
  wp (store a i v) w Q.
Proof.
  intros Ha HQ. unfold store. wp_step. apply (wp_read_Some _ bs); [done|].
  by wp_step.
Qed.

Lemma wp_fill a v s e bs w Q :
  heap w !! a = Some bs ->
  Q (Return tt) {| heap := <[a := ta_fill v s e bs]> (heap w);
                   wasmInstance := wasmInstance w; events := events w |} ->
  wp (fill a v s e) w Q.
Proof.
  intros Ha HQ. unfold fill. wp_step. apply (wp_read_Some _ bs); [done|].
  by wp_step.
Qed.

Lemma wp_set target source off src tgt w Q :
  heap w !! source = Some src -> heap w !! target = Some tgt ->
  off + length src <= length tgt ->
  Q (Return tt) {| heap := <[target := list_inserts off src tgt]> (heap w);
                   wasmInstance := wasmInstance w; events := events w |} ->
  wp (set target source off) w Q.
Proof.
  intros Hs Ht Hfit HQ. unfold set.
  wp_step. apply (wp_read_Some _ src); [done|].
  wp_step. apply (wp_read_Some _ tgt); [done|].
  unfold ta_set. rewrite decide_True by done. by wp_step.
Qed.

Lemma wp_slice a s e bs w Q :
  heap w !! a = Some bs ->
  (forall l, heap w !! l = None ->
     Q (Return l) {| heap := <[l := ta_slice s e bs]> (heap w);
                     wasmInstance := wasmInstance w; events := events w |}) ->
  wp (slice a s e) w Q.
Proof.
  intros Ha HQ. unfold slice. wp_step. apply (wp_read_Some _ bs); [done|].
  wp_step. by apply HQ.
Qed.

Lemma wp_Uint8Array_from a bs w Q :
  heap w !! a = Some bs ->
  (forall l, heap w !! l = None ->
     Q (Return l) {| heap := <[l := bs]> (heap w);
                     wasmInstance := wasmInstance w; events := events w |}) ->
  wp (Uint8Array_from a) w Q.
Proof.
  intros Ha HQ. unfold Uint8Array_from. wp_step.
  apply (wp_read_Some _ bs); [done|]. wp_step. by apply HQ.
Qed.

Lemma wp_sha1 a bs w Q :
  heap w !! a = Some bs ->
  (forall l, heap w !! l = None ->
     Q (Return l) {| heap := <[l := SHA1.digest bs]> (heap w);
                     wasmInstance := wasmInstance w;
                     events := events w ++ [crypto_subtle_digest bs] |}) ->
  wp (sha1 a) w Q.
Proof.
  intros Ha HQ. unfold sha1. wp_step. apply (wp_read_Some _ bs); [done|].
  wp_step. wp_step. wp_step. by apply HQ.
Qed.

Lemma wp_mem_set inst source ptr src m w Q :
  heap w !! source = Some src ->
  ta_set src ptr (memory inst) = Some m ->
  Q (Return (with_memory m inst))
    {| heap := heap w; wasmInstance := Some (with_memory m inst);
       events := events w |} ->
  wp (mem_set inst source ptr) w Q.
Proof.
  intros Hs Hm HQ. unfold mem_set. wp_step.
  apply (wp_read_Some _ src); [done|]. rewrite Hm.
  wp_step. wp_step. by wp_step.
Qed.

Lemma wp_calcHashAB_ready s u sb ub inst inst' sig w Q :
  wasmInstance w = Some inst ->
  heap w !! s = Some sb -> heap w !! u = Some ub ->
  engine_run inst sb ub = Some (inst', sig) ->
  (forall l1 l2, heap w !! l1 = None -> heap w !! l2 = None -> l1 <> l2 ->
     Q (Return l2) {| heap := <[l2 := sig]> (<[l1 := sig]> (heap w));
                      wasmInstance := Some inst';
                      events := events w ++ [wasm_calculateHash] |}) ->
  wp (calcHashAB s u) w Q.
Proof.
  intros Hi Hs Hu Hrun HQ. unfold calcHashAB.
  wp_step. wp_step. rewrite Hi.
  unfold engine_run in Hrun.
  destruct (ta_set sb _ _) as [m1|] eqn:E1; [|done]. simpl in Hrun.
  destruct (ta_set ub _ m1) as [m2|] eqn:E2; [|done]. simpl in Hrun.
  injection Hrun as <- <-.
  wp_step. eapply wp_mem_set; [done..|]. cbn [heap wasmInstance events].
  wp_step. eapply wp_mem_set; [done|exact E2|]. cbn [heap wasmInstance events].
  wp_step. wp_step. wp_step. wp_step.
  wp_step. wp_step. rename H into Hl1.
  eapply wp_Uint8Array_from; [apply lookup_insert_eq|].
  cbn [heap wasmInstance events]. intros l2 Hl2.
  apply lookup_insert_None in Hl2 as [Hl2 Hne].
  by apply HQ.
Qed.

(** * The life cycle of the engine: [initHashAB] *)

Lemma initHashAB_ready inst w :
  wasmInstance w = None ->
  initHashAB alone (Return inst) w
  = (Return tt, {| heap := heap w; wasmInstance := Some inst;
                   events := events w |}).
Proof.
  intros Hi. unfold initHashAB, initHashAB_guard, mbind, M_bind, bind,
    get_wasmInstance.
  by rewrite Hi.
Qed.

Lemma initHashAB_again others load inst w :
  wasmInstance w = Some inst -> initHashAB others load w = (Return tt, w).
Proof.
  intros Hi. unfold initHashAB, initHashAB_guard, mbind, M_bind, bind,
    get_wasmInstance.
  by rewrite Hi.
Qed.

Lemma initHashAB_failed e w :
  wasmInstance w = None -> initHashAB alone (Throw e) w = (Throw e, w).
Proof.
  intros Hi. unfold initHashAB, initHashAB_guard, mbind, M_bind, bind,
    get_wasmInstance.
  by rewrite Hi.
Qed.

(** * Typed-array contents, index by index *)

Lemma list_inserts_lookup {A} (k l : list A) i j :
  list_inserts i k l !! j
  = if decide (i <= j < i + length k /\ j < length l) then k !! (j - i)
    else l !! j.
Proof.
  case_decide as H.
  - apply list_lookup_inserts; lia.
  - destruct (decide (j < i)); [by apply list_lookup_inserts_lt|].
    destruct (decide (i + length k <= j)); [by apply list_lookup_inserts_ge|].
    rewrite !lookup_ge_None_2; [done|lia|rewrite length_inserts; lia].
Qed.

Lemma ta_fill_lookup v s e (l : list byte) i :
  ta_fill v s e l !! i
  = if decide (s <= i < e /\ i < length l) then Some v else l !! i.
Proof.
  unfold ta_fill. rewrite list_inserts_lookup, length_replicate.
  repeat case_decide; try lia; try done.
  apply lookup_replicate_2. lia.
Qed.

Lemma ta_fill_length v s e (l : list byte) : length (ta_fill v s e l) = length l.
Proof. apply length_inserts. Qed.

Lemma ta_slice_lookup s e (l : list byte) i :
  ta_slice s e l !! i = if decide (i < e - s) then l !! (s + i) else None.
Proof.
  unfold ta_slice. case_decide.
  - rewrite lookup_take_lt by done. apply lookup_drop.
  - apply lookup_take_ge. lia.
Qed.

Lemma ta_slice_length s e (l : list byte) :
  length (ta_slice s e l) = Nat.min (e - s) (length l - s).
Proof. unfold ta_slice. by rewrite length_take, length_drop. Qed.

Lemma set_scheme_length bs : length (set_scheme bs) = length bs.
Proof. unfold set_scheme. by rewrite !length_insert. Qed.

Lemma set_scheme_lookup bs i :
  set_scheme bs !! i
  = if decide (i = 0x30 /\ i < length bs) then Some x03
    else if decide (i = 0x31 /\ i < length bs) then Some x00
    else bs !! i.
Proof.
  unfold set_scheme, MHBD_SCHEME_OFFSET.
  rewrite !list_lookup_insert, length_insert.
  repeat case_decide; try done; lia.
Qed.

Lemma zeroed_length bs : length (zeroed bs) = length bs.
Proof. unfold zeroed. by rewrite !ta_fill_length. Qed.

Lemma zeroed_lookup bs i :
  zeroed bs !! i
  = if decide (in_zeroed_region i /\ i < length bs) then Some x00 else bs !! i.
Proof.
  unfold zeroed, in_zeroed_region.
  rewrite !ta_fill_lookup, !ta_fill_length.
  unfold MHBD_DB_ID_OFFSET, MHBD_DB_ID_LEN, MHBD_HASH58_OFFSET, MHBD_HASH58_LEN,
    MHBD_HASH72_OFFSET, MHBD_HASH72_LEN, MHBD_HASHAB_OFFSET, MHBD_HASHAB_LEN.
  repeat case_decide; try done; lia.
Qed.

(** * The magic tag *)

Lemma magic_check bs :
  4 <= length bs ->
  fromCharCode [bs !!! 0; bs !!! 1; bs !!! 2; bs !!! 3] = "mhbd"%string
  <-> take 4 bs = bytes_of_string "mhbd".
Proof.
  destruct bs as [|b0 [|b1 [|b2 [|b3 rest]]]]; simpl; try lia. intros _.
  unfold fromCharCode, bytes_of_string. cbn [take map list_ascii_of_string
    string_of_list_ascii lookup_total list_lookup_total].
  split.
  - intros H. injection H as H0 H1 H2 H3.
    rewrite <- (byte_of_ascii_of_byte b0), <- (byte_of_ascii_of_byte b1),
      <- (byte_of_ascii_of_byte b2), <- (byte_of_ascii_of_byte b3).
    by rewrite H0, H1, H2, H3.
  - intros H. injection H as -> -> -> ->. reflexivity.
Qed.

(** * [calcHashAB] *)

Lemma calcHashAB_not_initialized s u w :
  wasmInstance w = None ->
  calcHashAB s u w = (Throw Error_not_initialized, w).
Proof.
  intros Hi. unfold calcHashAB, mbind, M_bind, bind, get_wasmInstance.
  by rewrite Hi.
Qed.

(** Whatever happens, [calcHashAB] touches no existing typed array and
    emits no digest call; what it returns is a new array of at most 57
    bytes. *)
Lemma wp_calcHashAB_any s u w Q :
  (forall r w',
     heap w ⊆ heap w' ->
     (exists es, events w' = events w ++ es /\ 
                 forall d, crypto_subtle_digest d ∉ es) ->
     match r with
     | Return l => heap w !! l = None /\
                   exists sig, heap w' !! l = Some sig /\ length sig <= 57
     | Throw _ => heap w' = heap w
     end ->
     Q r w') ->
  wp (calcHashAB s u) w Q.
Proof.
  intros HQ. unfold calcHashAB.
  assert (Hnil : exists es : list event,
            events w = events w ++ es /\ forall d, crypto_subtle_digest d ∉ es).
  { exists []. rewrite app_nil_r. split; [done|]. intros d Hd. by apply elem_of_nil in Hd. }
  assert (Hone : exists es : list event,
            events w ++ [wasm_calculateHash] = events w ++ es
            /\ forall d, crypto_subtle_digest d ∉ es).
  { exists [wasm_calculateHash]. split; [done|]. intros d Hd.
    apply list_elem_of_singleton in Hd. discriminate. }
  wp_step. wp_step. destruct (wasmInstance w) as [inst|].
  2:{ wp_step. by apply HQ. }
  wp_step. unfold mem_set. wp_step. apply wp_read.
  2:{ intros _. by apply HQ. }
  intros sb _. destruct (ta_set sb _ _) as [m1|].
  2:{ wp_step. by apply HQ. }
  wp_step. wp_step. wp_step.
  wp_step. wp_step. apply wp_read; cbn [heap wasmInstance events].
  2:{ intros _. by apply HQ. }
  intros ub _. destruct (ta_set ub _ _) as [m2|].
  2:{ wp_step. by apply HQ. }
  wp_step. wp_step. wp_step.
  wp_step. wp_step. wp_step. wp_step. wp_step. wp_step. rename H into Hl1.
  eapply wp_Uint8Array_from; [apply lookup_insert_eq|].
  cbn [heap wasmInstance events]. intros l2 Hl2.
  apply lookup_insert_None in Hl2 as [Hl2 Hne].
  apply HQ; cbn [heap wasmInstance events]; [|done|].
  - etrans; [|apply insert_subseteq; by rewrite lookup_insert_ne].
    by apply insert_subseteq.
  - split; [done|]. eexists. split; [apply lookup_insert_eq|].
    rewrite ta_slice_length. lia.
Qed.

(** * [recomputeITunesCDBHash] *)

Lemma no_digest_nil : forall d, crypto_subtle_digest d ∉ @nil event.
Proof. intros d Hd. by apply elem_of_nil in Hd. Qed.

Lemma no_digest_log msg : forall d, crypto_subtle_digest d ∉ [console_log msg].
Proof. intros d Hd. apply list_elem_of_singleton in Hd. discriminate. Qed.

Lemma no_digest_app (es1 es2 : list event) :
  (forall d, crypto_subtle_digest d ∉ es1) ->
  (forall d, crypto_subtle_digest d ∉ es2) ->
  forall d, crypto_subtle_digest d ∉ es1 ++ es2.
Proof. intros H1 H2 d Hd. apply elem_of_app in Hd as [?|?]; naive_solver. Qed.

(** The logging tail shared by the two operations: it reads, takes a slice
    of the signature for the message, and returns [res]. *)
Lemma wp_log_tail {A} (res : A) (a sig : loc) (msg : list byte -> list byte -> string) w Q :
  (forall r w',
     heap w ⊆ heap w' ->
     (exists es, events w' = events w ++ es /\
                 forall d, crypto_subtle_digest d ∉ es) ->
     (forall d, r = Return d -> d = res) ->
     (wasmInstance w' = wasmInstance w) ->
     Q r w') ->
  wp (read a ≫= fun h => slice sig 0 4 ≫= fun sig4 => read sig4 ≫= fun s =>
      emit (console_log (msg h s)) ≫= fun _ => ret res) w Q.
Proof.
  intros HQ.
  assert (Hnil : exists es : list event,
            events w = events w ++ es /\ forall d, crypto_subtle_digest d ∉ es).
  { exists []. rewrite app_nil_r. split; [done|]. apply no_digest_nil. }
  wp_step. apply wp_read. 2:{ intros _. by apply HQ. }
  intros h _. wp_step. unfold slice. wp_step. apply wp_read.
  2:{ intros _. by apply HQ. }
  intros sb _. wp_step. rename H into Hl. wp_step.
  apply wp_read; cbn [heap wasmInstance events].
  2:{ intros _. apply HQ; cbn [heap wasmInstance events]; try done.
      by apply insert_subseteq. }
  intros s _. wp_step. wp_step. wp_step.
  apply HQ; cbn [heap wasmInstance events]; try done.
  - by apply insert_subseteq.
  - eexists. split; [done|]. apply no_digest_log.
  - by intros d [= ->].
Qed.

(** The run up to the call of the signature engine: the scheme field is
    stored in the original, a copy is made and zeroed, and the copy is
    digested. *)
Lemma wp_recompute_prefix data uuid bs w Q :
  heap w !! data = Some bs -> valid_mhbd bs ->
  (forall buf h,
     heap w !! buf = None -> heap w !! h = None ->
     data <> buf -> data <> h -> buf <> h ->
     wp (calcHashAB h uuid ≫= fun sig =>
         set data sig MHBD_HASHAB_OFFSET ≫= fun _ =>
         read h ≫= fun hb => slice sig 0 4 ≫= fun sig4 =>
         read sig4 ≫= fun s =>
         emit (console_log ("[hashAB] Recomputed iTunesCDB hash (SHA1: "
                            ++ hex hb ++ ", sig[0:4]: " ++ hex s ++ ")"))
         ≫= fun _ => ret data)
        {| heap := <[h := SHA1.digest (zeroed (set_scheme bs))]>
                     (<[buf := zeroed (set_scheme bs)]>
                        (<[data := set_scheme bs]> (heap w)));
           wasmInstance := wasmInstance w;
           events := events w
                     ++ [crypto_subtle_digest (zeroed (set_scheme bs))] |}
        Q) ->
  wp (recomputeITunesCDBHash data uuid) w Q.
Proof.
  intros Hd [Hlen Hmagic] HQ. unfold recomputeITunesCDBHash.
  wp_step. eapply wp_length_of; [done|]. rewrite decide_False by lia.
  wp_step. apply (wp_read_Some _ bs); [done|].
  rewrite decide_False.
  2:{ intros Hne. apply Hne, magic_check; [lia|done]. }
  wp_step. eapply wp_store; [done|]. cbn [heap wasmInstance events].
  wp_step. eapply wp_store; [apply lookup_insert_eq|].
  cbn [heap wasmInstance events]. rewrite insert_insert_eq.
  fold (set_scheme bs).
  wp_step. eapply wp_Uint8Array_from; [apply lookup_insert_eq|].
  cbn [heap wasmInstance events]. intros buf Hbuf.
  apply lookup_insert_None in Hbuf as [Hbuf Hbd].
  wp_step. eapply wp_fill; [apply lookup_insert_eq|].
  cbn [heap wasmInstance events]. rewrite insert_insert_eq.
  wp_step. eapply wp_fill; [apply lookup_insert_eq|].
  cbn [heap wasmInstance events]. rewrite insert_insert_eq.
  wp_step. eapply wp_fill; [apply lookup_insert_eq|].
  cbn [heap wasmInstance events]. rewrite insert_insert_eq.
  wp_step. eapply wp_fill; [apply lookup_insert_eq|].
  cbn [heap wasmInstance events]. rewrite insert_insert_eq.
  fold (zeroed (set_scheme bs)).
  wp_step. eapply wp_sha1; [apply lookup_insert_eq|].
  cbn [heap wasmInstance events]. intros h Hh.
  apply lookup_insert_None in Hh as [Hh Hhbuf].
  apply lookup_insert_None in Hh as [Hh Hhd].
  by apply HQ.
Qed.

Lemma recompute_any data uuid bs w :
  heap w !! data = Some bs -> valid_mhbd bs ->
  wp (recomputeITunesCDBHash data uuid) w (fun r w' =>
    (forall l v, l <> data -> heap w !! l = Some v -> heap w' !! l = Some v) /\
    (exists bs',
        heap w' !! data = Some bs' /\
        (bs' = set_scheme bs \/
         exists sig, length sig <= 57 /\
                     bs' = list_inserts MHBD_HASHAB_OFFSET sig (set_scheme bs)) /\
        (forall d, r = Return d ->
           d = data /\
           exists sig, length sig <= 57 /\
                     bs' = list_inserts MHBD_HASHAB_OFFSET sig (set_scheme bs))) /\
    (exists es, events w' = events w
                            ++ crypto_subtle_digest (zeroed (set_scheme bs)) :: es
                /\ forall d, crypto_subtle_digest d ∉ es)).
Proof.
  intros Hd Hv. pose proof Hv as [Hlen Hmagic].
  apply (wp_recompute_prefix data uuid bs); [done..|].
  intros buf h Hbuf Hh Hbd Hhd Hhbuf.
  set (h1 := <[h:=SHA1.digest (zeroed (set_scheme bs))]>
               (<[buf:=zeroed (set_scheme bs)]> (<[data:=set_scheme bs]> (heap w)))).
  assert (Hd1 : h1 !! data = Some (set_scheme bs)).
  { unfold h1. rewrite !lookup_insert_ne by done. apply lookup_insert_eq. }
  assert (Hfr1 : forall l v, l <> data -> heap w !! l = Some v -> h1 !! l = Some v).
  { intros l v Hl Hv'. unfold h1.
    rewrite !lookup_insert_ne; [done|congruence..]. }
  wp_step. apply wp_calcHashAB_any. cbn [heap wasmInstance events].
  intros r w1 Hsub (es1 & Hes1 & Hno1) Hr.
  destruct r as [sigl|e].
  2:{ split; [|split].
      - intros l v Hl Hv'. eapply lookup_weaken; [|done]. by apply Hfr1.
      - exists (set_scheme bs). split; [by eapply lookup_weaken|].
        split; [by left|done].
      - exists es1. split; [|done]. rewrite Hes1. by rewrite <- app_assoc. }
  destruct Hr as [Hsigl (sig & Hsig & Hsiglen)].
  wp_step. eapply wp_set; [done|by eapply lookup_weaken| |].
  { rewrite set_scheme_length. unfold MHBD_HASHAB_OFFSET. lia. }
  cbn [heap wasmInstance events].
  apply (wp_log_tail data h sigl (fun hb sb =>
           "[hashAB] Recomputed iTunesCDB hash (SHA1: " ++ hex hb
           ++ ", sig[0:4]: " ++ hex sb ++ ")")%string).
  cbn [heap wasmInstance events].
  intros r w2 Hsub2 (es2 & Hes2 & Hno2) Hret _.
  split; [|split].
  - intros l v Hl Hv'. eapply lookup_weaken; [|done].
    rewrite lookup_insert_ne by done.
    eapply lookup_weaken; [|done]. by apply Hfr1.
  - eexists. split; [eapply lookup_weaken; [apply lookup_insert_eq|done]|].
    split; [right; by exists sig|].
    intros d ->%Hret. split; [done|]. by exists sig.
  - exists (es1 ++ es2). split; [|by apply no_digest_app].
    rewrite Hes2, Hes1. by rewrite <- !app_assoc.
Qed.

Lemma wp_eq {A} (m : M A) w r w' :
  wp m w (fun r0 w0 => r0 = r /\ w0 = w') -> m w = (r, w').
Proof. unfold wp. destruct (m w). simpl. by intros [-> ->]. Qed.

Lemma SHA1_digest_length bs : length (SHA1.digest bs) = 20.
Proof.
  unfold SHA1.digest.
  destruct (fold_left _ _ _) as [[[[h0 h1] h2] h3] h4]. reflexivity.
Qed.

Lemma engine_run_length inst s u inst' sig :
  engine_run inst s u = Some (inst', sig) -> length sig <= 57.
Proof.
  unfold engine_run. intros H.
  destruct (ta_set s _ _) as [m1|]; [|done]. simpl in H.
  destruct (ta_set u _ _) as [m2|]; [|done]. simpl in H.
  injection H as _ <-. rewrite ta_slice_length. lia.
Qed.

Lemma wp_outcome {A} (m : M A) w (r : outcome A) (P : world -> Prop) :
  wp m w (fun r' w' => r' = r /\ P w') ->
  exists w', m w = (r, w') /\ P w'.
Proof.
  unfold wp. destruct (m w) as [r' w']. simpl. intros [-> HP]. by exists w'.
Qed.

Lemma wp_log_tail_ok {A} (res : A) (a sig : loc)
    (msg : list byte -> list byte -> string) hb sb w Q :
  heap w !! a = Some hb -> heap w !! sig = Some sb ->
  (forall l, heap w !! l = None ->
     Q (Return res)
       {| heap := <[l := ta_slice 0 4 sb]> (heap w);
          wasmInstance := wasmInstance w;
          events := events w ++ [console_log (msg hb (ta_slice 0 4 sb))] |}) ->
  wp (read a ≫= fun h => slice sig 0 4 ≫= fun sig4 => read sig4 ≫= fun s =>
      emit (console_log (msg h s)) ≫= fun _ => ret res) w Q.
Proof.
  intros Ha Hs HQ.
  wp_step. apply (wp_read_Some _ hb); [done|].
  wp_step. eapply wp_slice; [done|]. cbn [heap wasmInstance events].
  intros l Hl. wp_step. eapply wp_read_Some; [apply lookup_insert_eq|].
  wp_step. wp_step. wp_step. by apply HQ.
Qed.

(** A run with the engine ready and all [mem.set] calls in bounds. *)
Lemma recompute_ready data uuid bs ub inst inst' sig w :
  heap w !! data = Some bs -> valid_mhbd bs ->
  heap w !! uuid = Some ub -> uuid <> data ->
  wasmInstance w = Some inst ->
  engine_run inst (SHA1.digest (zeroed (set_scheme bs))) ub = Some (inst', sig) ->
  exists w',
    recomputeITunesCDBHash data uuid w = (Return data, w') /\
    heap w' !! data
    = Some (list_inserts MHBD_HASHAB_OFFSET sig (set_scheme bs)) /\
    heap w' !! uuid = Some ub /\
    wasmInstance w' = Some inst'.
Proof.
  intros Hd Hv Hu Hud Hi Hrun. pose proof Hv as [Hlen Hmagic].
  pose proof (engine_run_length _ _ _ _ _ Hrun) as Hsiglen.
  apply wp_outcome.
  apply (wp_recompute_prefix data uuid bs); [done..|].
  intros buf h Hbuf Hh Hbd Hhd Hhbuf.
  assert (uuid <> buf) by congruence. assert (uuid <> h) by congruence.
  wp_step. eapply wp_calcHashAB_ready; cbn [heap wasmInstance events];
    [done|apply lookup_insert_eq| |done|].
  { rewrite !lookup_insert_ne by done. done. }
  intros l1 l2 Hl1 Hl2 Hl12.
  apply lookup_insert_None in Hl1 as [Hl1 ?].
  apply lookup_insert_None in Hl1 as [Hl1 ?].
  apply lookup_insert_None in Hl1 as [Hl1 ?].
  apply lookup_insert_None in Hl2 as [Hl2 ?].
  apply lookup_insert_None in Hl2 as [Hl2 ?].
  apply lookup_insert_None in Hl2 as [Hl2 ?].
  wp_step. eapply wp_set; cbn [heap wasmInstance events];
    [apply lookup_insert_eq| | |].
  { rewrite !lookup_insert_ne by done. apply lookup_insert_eq. }
  { rewrite set_scheme_length. unfold MHBD_HASHAB_OFFSET. lia. }
  cbn [heap wasmInstance events].
  eapply (wp_log_tail_ok data h l2 (fun hb sb =>
           "[hashAB] Recomputed iTunesCDB hash (SHA1: " ++ hex hb
           ++ ", sig[0:4]: " ++ hex sb ++ ")")%string);
    cbn [heap wasmInstance events].
  { rewrite !lookup_insert_ne by done. apply lookup_insert_eq. }
  { rewrite lookup_insert_ne by done. apply lookup_insert_eq. }
  intros l Hl.
  apply lookup_insert_None in Hl as [Hl ?].
  apply lookup_insert_None in Hl as [Hl ?].
  apply lookup_insert_None in Hl as [Hl ?].
  apply lookup_insert_None in Hl as [Hl ?].
  apply lookup_insert_None in Hl as [Hl ?].
  apply lookup_insert_None in Hl as [Hl ?].
  assert (uuid <> l) by congruence. assert (uuid <> l1) by congruence.
  assert (uuid <> l2) by congruence.
  split; [done|]. cbn [heap wasmInstance events]. split; [|split; [|done]].
  - rewrite lookup_insert_ne by done. apply lookup_insert_eq.
  - rewrite !lookup_insert_ne by done. done.
Qed.

(** * The patched container, index by index *)

Lemma ta_slice_ext s e (l l' : list byte) :
  (forall i, s <= i < e -> l !! i = l' !! i) -> ta_slice s e l = ta_slice s e l'.
Proof.
  intros H. apply list_eq. intros i. rewrite !ta_slice_lookup.
  case_decide; [|done]. apply H. lia.
Qed.

Lemma ta_slice_inserts s (k l : list byte) :
  s + length k <= length l -> ta_slice s (s + length k) (list_inserts s k l) = k.
Proof.
  intros H. apply list_eq. intros i. rewrite ta_slice_lookup.
  case_decide as Hi.
  - rewrite list_inserts_lookup. rewrite decide_True by lia. f_equal. lia.
  - symmetry. apply lookup_ge_None_2. lia.
Qed.

Section patched.
Variables (bs sig : list byte).
Hypothesis Hlen : 0xAB + 57 <= length bs.
Hypothesis Hsig : length sig <= 57.

Let X := list_inserts MHBD_HASHAB_OFFSET sig (set_scheme bs).

Lemma patched_length : length X = length bs.
Proof. unfold X. by rewrite length_inserts, set_scheme_length. Qed.

Lemma patched_lookup i :
  X !! i = if decide (0xAB <= i < 0xAB + length sig) then sig !! (i - 0xAB)
           else set_scheme bs !! i.
Proof.
  unfold X, MHBD_HASHAB_OFFSET. rewrite list_inserts_lookup, set_scheme_length.
  repeat case_decide; try done; lia.
Qed.

Lemma patched_outside i :
  ~ (0x30 <= i < 0x32) -> ~ (0xAB <= i < 0xAB + 57) -> X !! i = bs !! i.
Proof.
  intros H1 H2. rewrite patched_lookup, set_scheme_lookup.
  repeat case_decide; try done; lia.
Qed.

Lemma patched_scheme : X !! 0x30 = Some x03 /\ X !! 0x31 = Some x00.
Proof.
  rewrite !patched_lookup, !set_scheme_lookup.
  split; repeat case_decide; try done; lia.
Qed.

Lemma patched_valid : take 4 bs = bytes_of_string "mhbd" -> valid_mhbd X.
Proof.
  intros Hm. split; [by rewrite patched_length|]. rewrite <- Hm.
  apply list_eq. intros i. destruct (decide (i < 4)).
  - rewrite !lookup_take_lt by done. apply patched_outside; lia.
  - rewrite !lookup_take_ge by lia. done.
Qed.

Lemma patched_set_scheme : set_scheme X = X.
Proof.
  apply list_eq. intros i.
  rewrite set_scheme_lookup, patched_length, !patched_lookup,
    !set_scheme_lookup.
  repeat case_decide; try done; lia.
Qed.

Lemma patched_zeroed : zeroed X = zeroed (set_scheme bs).
Proof.
  apply list_eq. intros i.
  rewrite !zeroed_lookup, patched_length, set_scheme_length, patched_lookup.
  unfold in_zeroed_region.
  repeat case_decide; try done; lia.
Qed.

Lemma patched_again : list_inserts MHBD_HASHAB_OFFSET sig X = X.
Proof.
  apply list_eq. intros i. unfold MHBD_HASHAB_OFFSET.
  rewrite list_inserts_lookup, patched_length, !patched_lookup.
  repeat case_decide; try done; lia.
Qed.

Lemma patched_signature :
  length sig = 57 -> ta_slice 0xAB (0xAB + 57) X = sig.
Proof.
  intros H57. unfold X, MHBD_HASHAB_OFFSET.
  replace (0xAB + 57) with (0xAB + length sig) by lia.
  apply ta_slice_inserts. rewrite set_scheme_length. lia.
Qed.
End patched.

Lemma set_scheme_signature bs :
  ta_slice 0xAB (0xAB + 57) (set_scheme bs) = ta_slice 0xAB (0xAB + 57) bs.
Proof.
  apply ta_slice_ext. intros i Hi. rewrite set_scheme_lookup.
  repeat case_decide; try done; lia.
Qed.

Lemma set_scheme_field bs :
  0x32 <= length bs ->
  set_scheme bs !! 0x30 = Some x03 /\ set_scheme bs !! 0x31 = Some x00.
Proof.
  intros H. rewrite !set_scheme_lookup.
  split; repeat case_decide; try done; lia.
Qed.

(** * The signature engine under its contract *)

Lemma same_engine_refl inst : same_engine inst inst.
Proof. by repeat split. Qed.

Lemma engine_run_contract inst inst' s u :
  SignatureEngine inst -> same_engine inst inst' ->
  length s = 20 -> length u = 8 ->
  exists inst'',
    engine_run inst' s u = Some (inst'', hashAB inst s u) /\
    same_engine inst inst'' /\
    length (hashAB inst s u) = 57.
Proof.
  intros [Hs Hu Ho Hcl Hpure] (E1 & E2 & E3 & E4 & E5) Hls Hlu.
  unfold engine_run, ta_set. rewrite E1, E2, E3, E4.
  rewrite decide_True by lia. simpl.
  rewrite decide_True by (rewrite length_inserts; lia). simpl.
  eexists. split; [|split].
  - f_equal. f_equal. unfold hashAB.
    apply Hpure; rewrite ?length_inserts; try done.
    + apply ta_slice_ext. intros i Hi.
      rewrite !list_inserts_lookup, !length_inserts, E5.
      repeat case_decide; try done; lia.
    + apply ta_slice_ext. intros i Hi.
      rewrite !list_inserts_lookup, !length_inserts, E5.
      repeat case_decide; try done; lia.
  - repeat split; simpl; try done.
    by rewrite Hcl, !length_inserts.
  - unfold hashAB. rewrite ta_slice_length, Hcl, !length_inserts. lia.
Qed.

(** The stand-in engine honours the contract. *)
Lemma demo_instance_contract : SignatureEngine demo_instance.
Proof.
  split; cbn [memory getInputSha1 getInputUuid getOutput calculateHash
                demo_instance]; rewrite ?length_replicate.
  - lia.
  - lia.
  - lia.
  - intros m. unfold demo_calculateHash. apply length_inserts.
  - intros m m' Hm Hm' Hs Hu.
    unfold demo_calculateHash.
    set (k := x03 :: x00 :: ta_slice 0 20 m ++ ta_slice 32 40 m
                ++ replicate 27 x00).
    set (k' := x03 :: x00 :: ta_slice 0 20 m' ++ ta_slice 32 40 m'
                 ++ replicate 27 x00).
    assert (Hk : k = k').
    { unfold k, k'. change (ta_slice 0 20 m) with (ta_slice 0 (0 + 20) m).
      change (ta_slice 32 40 m) with (ta_slice 32 (32 + 8) m).
      by rewrite Hs, Hu. }
    assert (Hlk : length k = 57).
    { unfold k. cbn [length]. rewrite !length_app, !ta_slice_length, length_replicate. lia. }
    rewrite <- Hk.
    transitivity k.
    + replace (64 + 57) with (64 + length k) by lia.
      apply ta_slice_inserts. lia.
    + symmetry. replace (64 + 57) with (64 + length k) by lia.
      apply ta_slice_inserts. lia.
Qed.

(** * Loops *)

Lemma wp_foldM_inv {A B} (f : B -> A -> M B)
    (I : list A -> B -> world -> Prop) (Q : outcome B -> world -> Prop)
    (all : list A) :
  (forall pre x suf acc w,
     all = pre ++ x :: suf -> I pre acc w ->
     wp (f acc x) w (fun r w' => match r with
                                 | Return acc' => I (pre ++ [x]) acc' w'
                                 | Throw e => Q (Throw e) w'
                                 end)) ->
  (forall acc w, I all acc w -> Q (Return acc) w) ->
  forall suf pre acc w,
    all = pre ++ suf -> I pre acc w -> wp (foldM f acc suf) w Q.
Proof.
  intros Hstep Hend. induction suf as [|x suf IH]; intros pre acc w Hall HI.
  - rewrite app_nil_r in Hall. subst pre. simpl. apply wp_ret. by apply Hend.
  - simpl. apply wp_bind. eapply wp_mono; [by eapply Hstep|].
    intros [acc'|e] w' Hr; [|done]. simpl in Hr.
    apply (IH (pre ++ [x])); [|done]. by rewrite <- app_assoc.
Qed.

Lemma seq_split_index n pre x suf :
  seq 0 n = pre ++ x :: suf -> x = length pre /\ x < n /\ pre = seq 0 x.
Proof.
  intros H.
  assert (Hx : seq 0 n !! length pre = Some x).
  { rewrite H. by rewrite list_lookup_middle. }
  apply lookup_seq in Hx as [-> Hlt]. split; [done|]. split; [done|].
  apply (f_equal (take (length pre))) in H.
  rewrite take_app_length, take_seq in H.
  replace (Nat.min (length pre) n) with (length pre) in H by lia.
  by rewrite Nat.add_0_l.
Qed.

(** * Rounding up *)

Lemma Math_ceil_div_lt a b i : 0 < b -> i < Math_ceil_div a b <-> i * b < a.
Proof.
  intros Hb. unfold Math_ceil_div.
  pose proof (Nat.div_mod_eq a b) as Hdm.
  pose proof (Nat.mod_upper_bound a b) as Hub.
  case_decide; nia.
Qed.

(** [Math_ceil_div a b] is the ceiling of [a / b]: the least [n] with
    [a <= n * b]. *)
Lemma Math_ceil_div_ceiling a b n :
  0 < b -> Math_ceil_div a b <= n <-> a <= n * b.
Proof.
  intros Hb. pose proof (Math_ceil_div_lt a b n Hb). lia.
Qed.

Lemma Math_ceil_div_0 b : 0 < b -> Math_ceil_div 0 b = 0.
Proof.
  intros Hb. pose proof (Math_ceil_div_ceiling 0 b 0 Hb). lia.
Qed.

(** * The blocks of a source buffer *)

Lemma block_input_padded bs i :
  i < Math_ceil_div (length bs) CBK_BLOCK_SIZE ->
  block_input bs i
  = ta_slice (i * 1024) (i * 1024 + 1024) bs
    ++ replicate (i * 1024 + 1024 - length bs) x00
  /\ length (block_input bs i) = 1024.
Proof.
  intros Hi. apply Math_ceil_div_lt in Hi; [|unfold CBK_BLOCK_SIZE; lia].
  unfold block_input, CBK_BLOCK_SIZE in *.
  set (b := ta_slice (i * 1024) (Nat.min (i * 1024 + 1024) (length bs)) bs).
  assert (Hb : b = ta_slice (i * 1024) (i * 1024 + 1024) bs).
  { unfold b, ta_slice. apply list_eq. intros j.
    destruct (decide (j < Nat.min (i * 1024 + 1024) (length bs) - i * 1024)).
    - rewrite !lookup_take_lt by lia. done.
    - rewrite lookup_take_ge by lia.
      destruct (decide (j < 1024)).
      + rewrite lookup_take_lt by lia. rewrite lookup_drop.
        symmetry. apply lookup_ge_None_2. lia.
      + rewrite lookup_take_ge by lia. done. }
  assert (Hlb : length b = Nat.min 1024 (length bs - i * 1024)).
  { rewrite Hb, ta_slice_length. lia. }
  rewrite <- Hb. case_decide as Hshort.
  - replace (replicate 1024 x00)
      with (replicate (length b) x00
            ++ replicate (i * 1024 + 1024 - length bs) x00).
    2:{ rewrite <- replicate_add. f_equal. lia. }
    rewrite list_inserts_0_r by (by rewrite length_replicate).
    split; [done|]. rewrite length_app, length_replicate. lia.
  - replace (i * 1024 + 1024 - length bs) with 0 by lia.
    simpl. rewrite app_nil_r. split; [done|lia].
Qed.

(** Chunks of a concatenation of 20-byte digests. *)
Lemma concat_chunk (ls : list (list byte)) :
  Forall (fun l => length l = 20) ls ->
  forall i l, ls !! i = Some l ->
    ta_slice (i * 20) (i * 20 + 20) (concat ls) = l.
Proof.
  unfold ta_slice. induction 1 as [|l0 ls Hl0 _ IH]; intros i l Hi; [done|].
  replace (i * 20 + 20 - i * 20) with (length l0) by lia.
  cbn [concat]. destruct i as [|i]; cbn [lookup list_lookup] in Hi.
  - injection Hi as ->. change (0 * 20) with 0. rewrite drop_0.
    by rewrite take_app_length.
  - replace (S i * 20) with (length l0 + i * 20) by lia.
    rewrite drop_app_add. specialize (IH i l Hi).
    replace (i * 20 + 20 - i * 20) with (length l0) in IH by lia. done.
Qed.

Lemma concat_length_20 (ls : list (list byte)) :
  Forall (fun l => length l = 20) ls -> length (concat ls) = length ls * 20.
Proof.
  induction 1 as [|l0 ls Hl0 _ IH]; [done|].
  cbn [concat length]. rewrite length_app, IH, Hl0. lia.
Qed.

Lemma all_hashes_length bs :
  length (all_hashes bs) = Math_ceil_div (length bs) CBK_BLOCK_SIZE * 20.
Proof.
  unfold all_hashes. rewrite concat_length_20.
  - by rewrite length_map, length_seq.
  - apply Forall_forall. intros l Hl. apply list_elem_of_fmap in Hl as (i & -> & _).
    apply SHA1_digest_length.
Qed.

Lemma all_hashes_chunk bs i :
  i < Math_ceil_div (length bs) CBK_BLOCK_SIZE ->
  ta_slice (i * 20) (i * 20 + 20) (all_hashes bs)
  = SHA1.digest (block_input bs i).
Proof.
  intros Hi. unfold all_hashes. apply concat_chunk.
  - apply Forall_forall. intros l Hl. apply list_elem_of_fmap in Hl as (j & -> & _).
    apply SHA1_digest_length.
  - rewrite list_lookup_fmap.
    assert (seq 0 (Math_ceil_div (length bs) CBK_BLOCK_SIZE) !! i = Some i) as ->
      by (by apply lookup_seq).
    done.
Qed.

(** * What a run leaves alone *)

Section frame.
Variable h0 : gmap loc (list byte).

Lemma wp_bind_kept {A B} (m : M A) (k : A -> M B) w Q :
  wp m w (kept h0) ->
  (forall a w', h0 ⊆ heap w' -> wp (k a) w' Q) ->
  (forall e w', h0 ⊆ heap w' -> Q (Throw e) w') ->
  wp (m ≫= k) w Q.
Proof.
  intros Hm Hk He. apply wp_bind. eapply wp_mono; [exact Hm|].
  intros [a|e] w' Hr; [by apply Hk|by apply He].
Qed.

Lemma wp_bind_fresh {B} (m : M loc) (k : loc -> M B) w Q :
  wp m w (fresh_in h0) ->
  (forall l w', h0 ⊆ heap w' -> h0 !! l = None -> wp (k l) w' Q) ->
  (forall e w', h0 ⊆ heap w' -> Q (Throw e) w') ->
  wp (m ≫= k) w Q.
Proof.
  intros Hm Hk He. apply wp_bind. eapply wp_mono; [exact Hm|].
  intros [l|e] w' [Hsub Hr]; [apply Hk; auto|by apply He].
Qed.

Lemma alloc_fresh bs w : h0 ⊆ heap w -> wp (alloc bs) w (fresh_in h0).
Proof.
  intros Hsub. wp_step. rename H into Hl. split; cbn [heap].
  - etrans; [done|]. by apply insert_subseteq.
  - intros l' [= <-]. by eapply lookup_weaken_None.
Qed.

Lemma Uint8Array_new_fresh n w :
  h0 ⊆ heap w -> wp (Uint8Array_new n) w (fresh_in h0).
Proof. apply alloc_fresh. Qed.

Lemma read_kept a w : h0 ⊆ heap w -> wp (read a) w (kept h0).
Proof. intros Hsub. apply wp_read; intros; exact Hsub. Qed.

Lemma length_of_kept a w : h0 ⊆ heap w -> wp (length_of a) w (kept h0).
Proof.
  intros Hsub. unfold length_of.
  apply wp_bind_kept; [by apply read_kept| |done].
  intros bs w' Hsub'. by wp_step.
Qed.

Lemma slice_fresh a s e w : h0 ⊆ heap w -> wp (slice a s e) w (fresh_in h0).
Proof.
  intros Hsub. unfold slice.
  apply wp_bind_kept; [by apply read_kept| |by split].
  intros bs w' Hsub'. by apply alloc_fresh.
Qed.

Lemma emit_kept e w : h0 ⊆ heap w -> wp (emit e) w (kept h0).
Proof. intros Hsub. by wp_step. Qed.

Lemma sha1_fresh a w : h0 ⊆ heap w -> wp (sha1 a) w (fresh_in h0).
Proof.
  intros Hsub. unfold sha1.
  apply wp_bind_kept; [by apply read_kept| |by split].
  intros bs w' Hsub'.
  apply wp_bind_kept; [by apply emit_kept| |by split].
  intros _ w'' Hsub''. by apply alloc_fresh.
Qed.

Lemma write_kept l bs w :
  h0 ⊆ heap w -> h0 !! l = None -> wp (write l bs) w (kept h0).
Proof. intros Hsub Hl. wp_step. by apply insert_subseteq_r. Qed.

Lemma set_kept target source off w :
  h0 ⊆ heap w -> h0 !! target = None ->
  wp (set target source off) w (kept h0).
Proof.
  intros Hsub Ht. unfold set.
  apply wp_bind_kept; [by apply read_kept| |done].
  intros src w1 Hsub1.
  apply wp_bind_kept; [by apply read_kept| |done].
  intros tgt w2 Hsub2.
  destruct (ta_set src off tgt); [by apply write_kept|by wp_step].
Qed.

Lemma calcHashAB_fresh s u w :
  h0 ⊆ heap w -> wp (calcHashAB s u) w (fresh_in h0).
Proof.
  intros Hsub. apply wp_calcHashAB_any. intros r w' Hsub' _ Hr. split.
  - by etrans.
  - intros l ->. destruct Hr as [Hl _]. by eapply lookup_weaken_None.
Qed.

Lemma log_tail_kept {A} (res : A) a sig msg w :
  h0 ⊆ heap w ->
  wp (read a ≫= fun h => slice sig 0 4 ≫= fun sig4 => read sig4 ≫= fun s =>
      emit (console_log (msg h s)) ≫= fun _ => ret res) w
     (fun r w' => h0 ⊆ heap w' /\ forall d, r = Return d -> d = res).
Proof.
  intros Hsub. apply wp_log_tail. intros r w' Hsub' _ Hret _.
  split; [by etrans|done].
Qed.

(** A block is sliced off, padded in a new array if short, and digested:
    all in arrays of its own. *)
Lemma hash_block_kept src hs i w :
  h0 ⊆ heap w -> wp (hash_block src hs i) w (kept h0).
Proof.
  intros Hsub. unfold hash_block.
  apply wp_bind_kept; [by apply length_of_kept| |done].
  intros len w1 Hsub1.
  apply wp_bind_fresh; [by apply slice_fresh| |done].
  intros block w2 Hsub2 Hblock.
  apply wp_bind_kept; [by apply length_of_kept| |done].
  intros blen w3 Hsub3.
  apply wp_bind_fresh; [| |done].
  - case_decide.
    + apply wp_bind_fresh; [by apply Uint8Array_new_fresh| |by split].
      intros p w4 Hsub4 Hp.
      apply wp_bind_kept; [by apply set_kept| |by split].
      intros _ w5 Hsub5. wp_step. split; [done|]. by intros l [= <-].
    + wp_step. split; [done|]. by intros l [= <-].
  - intros padded w4 Hsub4 Hpadded.
    apply wp_bind_fresh; [by apply sha1_fresh| |done].
    intros hash w5 Hsub5 Hhash. by wp_step.
Qed.

Lemma copy_hash_kept allHashes hs u i w :
  h0 ⊆ heap w -> h0 !! allHashes = None ->
  wp (copy_hash allHashes hs u i) w (kept h0).
Proof.
  intros Hsub Ha. unfold copy_hash.
  destruct (hs !! i); [by apply set_kept|by wp_step].
Qed.

Lemma foldM_kept {A B} (f : B -> A -> M B) xs acc w :
  (forall acc x w, h0 ⊆ heap w -> wp (f acc x) w (kept h0)) ->
  h0 ⊆ heap w -> wp (foldM f acc xs) w (kept h0).
Proof.
  intros Hf Hsub.
  apply (wp_foldM_inv f (fun _ _ w' => h0 ⊆ heap w') (kept h0) xs)
    with (pre := []); [| |done|done].
  - intros pre x suf acc' w' _ Hsub'.
    eapply wp_mono; [by apply Hf|]. by intros [?|?] ? ?.
  - done.
Qed.
End frame.

(** Every typed array that exists before [computeLocationsCBK] runs is the
    same afterwards, and the reference returned is a new one. *)
Lemma computeLocationsCBK_fresh locationsData uuid w :
  wp (computeLocationsCBK locationsData uuid) w (fresh_in (heap w)).
Proof.
  set (h0 := heap w). assert (Hsub : h0 ⊆ heap w) by done.
  unfold computeLocationsCBK.
  apply (wp_bind_kept h0); [by apply length_of_kept| |by split].
  intros len w1 Hsub1.
  apply (wp_bind_kept h0); [|clear dependent w1|by split].
  { apply foldM_kept; [|done]. intros. by apply hash_block_kept. }
  intros hs w1 Hsub1.
  apply (wp_bind_fresh h0); [by apply Uint8Array_new_fresh| |by split].
  intros allHashes w2 Hsub2 Hall.
  apply (wp_bind_kept h0); [| |by split].
  { apply foldM_kept; [|done]. intros. by apply copy_hash_kept. }
  intros _ w3 Hsub3.
  apply (wp_bind_fresh h0); [by apply sha1_fresh| |by split].
  intros master w4 Hsub4 Hmaster.
  apply (wp_bind_fresh h0); [by apply calcHashAB_fresh| |by split].
  intros sig w5 Hsub5 Hsig.
  apply (wp_bind_fresh h0); [by apply Uint8Array_new_fresh| |by split].
  intros cbk w6 Hsub6 Hcbk.
  apply (wp_bind_kept h0); [by apply set_kept| |by split].
  intros _ w7 Hsub7.
  apply (wp_bind_kept h0); [by apply set_kept| |by split].
  intros _ w8 Hsub8.
  apply (wp_bind_kept h0); [by apply set_kept| |by split].
  intros _ w9 Hsub9.
  set (n := Math_ceil_div len CBK_BLOCK_SIZE).
  eapply wp_mono.
  { apply (log_tail_kept h0 cbk master sig (fun m s =>
      "[hashAB] Computed Locations.itdb.cbk: "
      ++ pretty (CBK_HEADER_SIZE + CBK_SHA1_SIZE + n * CBK_SHA1_SIZE)
      ++ " bytes, " ++ pretty n ++ " blocks, master SHA1: "
      ++ hex m ++ ", sig[0:4]: " ++ hex s)%string). done. }
  intros r w' [Hsub' Hret]. split; [done|].
  intros l ->. by rewrite (Hret l eq_refl).
Qed.

(** * [computeLocationsCBK] with the engine ready *)

Lemma wp_Uint8Array_new n w Q :
  (forall l, heap w !! l = None ->
     Q (Return l) {| heap := <[l := replicate n x00]> (heap w);
                     wasmInstance := wasmInstance w; events := events w |}) ->
  wp (Uint8Array_new n) w Q.
Proof. apply wp_alloc. Qed.

Lemma wp_hash_block_ok src bs hs i w Q :
  heap w !! src = Some bs ->
  (forall w' l,
     heap w ⊆ heap w' -> heap w !! l = None ->
     heap w' !! l = Some (SHA1.digest (block_input bs i)) ->
     wasmInstance w' = wasmInstance w ->
     events w' = events w ++ [crypto_subtle_digest (block_input bs i)] ->
     Q (Return (hs ++ [l])) w') ->
  wp (hash_block src hs i) w Q.
Proof.
  intros Hsrc HQ. unfold hash_block.
  wp_step. eapply wp_length_of; [done|].
  wp_step. eapply wp_slice; [done|]. cbn [heap wasmInstance events].
  intros block Hblock.
  set (b := ta_slice (i * CBK_BLOCK_SIZE)
              (Nat.min (i * CBK_BLOCK_SIZE + CBK_BLOCK_SIZE) (length bs)) bs).
  wp_step. eapply wp_length_of; [apply lookup_insert_eq|].
  wp_step. case_decide as Hshort.
  - wp_step. apply wp_Uint8Array_new. cbn [heap wasmInstance events].
    intros p Hp. apply lookup_insert_None in Hp as [Hp Hpb].
    wp_step. eapply wp_set; cbn [heap wasmInstance events].
    { rewrite lookup_insert_ne by done. apply lookup_insert_eq. }
    { apply lookup_insert_eq. }
    { rewrite length_replicate. lia. }
    cbn [heap wasmInstance events]. rewrite insert_insert_eq.
    wp_step. wp_step. eapply wp_sha1; [apply lookup_insert_eq|].
    cbn [heap wasmInstance events]. intros l Hl.
    apply lookup_insert_None in Hl as [Hl Hlp].
    apply lookup_insert_None in Hl as [Hl Hlb].
    wp_step. apply HQ; cbn [heap wasmInstance events]; try done.
    + apply map_subseteq_spec. intros j v Hj.
      rewrite !lookup_insert_ne by congruence. done.
    + rewrite lookup_insert_eq. unfold block_input. fold b.
      by rewrite decide_True.
    + unfold block_input. fold b. by rewrite decide_True.
  - wp_step. wp_step. eapply wp_sha1; [apply lookup_insert_eq|].
    cbn [heap wasmInstance events]. intros l Hl.
    apply lookup_insert_None in Hl as [Hl Hlb].
    wp_step. apply HQ; cbn [heap wasmInstance events]; try done.
    + apply map_subseteq_spec. intros j v Hj.
      rewrite !lookup_insert_ne by congruence. done.
    + rewrite lookup_insert_eq. unfold block_input. fold b.
      by rewrite decide_False.
    + unfold block_input. fold b. by rewrite decide_False.
Qed.

Lemma engine_run_in_bounds inst s u :
  getInputSha1 inst + length s <= length (memory inst) ->
  getInputUuid inst + length u <= length (memory inst) ->
  exists inst' sig, engine_run inst s u = Some (inst', sig).
Proof.
  intros Hs Hu. unfold engine_run, ta_set.
  rewrite decide_True by done. simpl.
  rewrite decide_True by (by rewrite length_inserts). simpl. eauto.
Qed.

Lemma all_hashes_snoc_step bs n i :
  i < n ->
  list_inserts (i * CBK_SHA1_SIZE) (SHA1.digest (block_input bs i))
    (concat (map (fun j => SHA1.digest (block_input bs j)) (seq 0 i))
     ++ replicate ((n - i) * 20) x00)
  = concat (map (fun j => SHA1.digest (block_input bs j)) (seq 0 (S i)))
    ++ replicate ((n - S i) * 20) x00.
Proof.
  intros Hi. unfold CBK_SHA1_SIZE.
  set (pre := concat (map (fun j => SHA1.digest (block_input bs j)) (seq 0 i))).
  assert (Hpre : length pre = i * 20).
  { unfold pre. rewrite concat_length_20; [by rewrite length_map, length_seq|].
    apply Forall_forall. intros l Hl.
    apply list_elem_of_fmap in Hl as (j & -> & _). apply SHA1_digest_length. }
  replace (i * 20) with (length pre + 0) by lia.
  rewrite list_inserts_app_r.
  replace ((n - i) * 20) with (20 + (n - S i) * 20) by lia.
  rewrite replicate_add.
  rewrite list_inserts_0_r
    by (by rewrite length_replicate, SHA1_digest_length).
  rewrite seq_S, map_app, concat_app. cbn [map concat].
  by rewrite app_nil_r, <- app_assoc.
Qed.

Ltac fresh_ne H := repeat (apply lookup_insert_None in H as [H ?]).

Ltac heap_lookup :=
  cbn [heap wasmInstance events];
  repeat first [ apply lookup_insert_eq
               | rewrite lookup_insert_ne by congruence ];
  try eassumption; try done.

Lemma computeLocationsCBK_ready src uuid bs ub inst inst' sig w :
  heap w !! src = Some bs -> heap w !! uuid = Some ub ->
  wasmInstance w = Some inst ->
  engine_run inst (SHA1.digest (all_hashes bs)) ub = Some (inst', sig) ->
  exists cbk w',
    computeLocationsCBK src uuid w = (Return cbk, w') /\
    heap w' !! cbk = Some (cbk_file sig bs) /\
    wasmInstance w' = Some inst' /\
    exists msg,
      events w'
      = events w
        ++ block_digest_calls bs
             (seq 0 (Math_ceil_div (length bs) CBK_BLOCK_SIZE))
        ++ [crypto_subtle_digest (all_hashes bs); wasm_calculateHash;
            console_log msg].
Proof.
  intros Hsrc Hu Hi Hrun.
  pose proof (engine_run_length _ _ _ _ _ Hrun) as Hsiglen.
  set (n := Math_ceil_div (length bs) CBK_BLOCK_SIZE).
  set (dg := fun j => SHA1.digest (block_input bs j)).
  cut (wp (computeLocationsCBK src uuid) w (fun r w' =>
         exists cbk, r = Return cbk /\
           heap w' !! cbk = Some (cbk_file sig bs) /\
           wasmInstance w' = Some inst' /\
           exists msg,
             events w'
             = events w ++ block_digest_calls bs (seq 0 n)
               ++ [crypto_subtle_digest (all_hashes bs); wasm_calculateHash;
                   console_log msg])).
  { intros Hwp. destruct (wp_run _ _ _ Hwp) as (r & w' & Hr & cbk & -> & H).
    eauto. }
  unfold computeLocationsCBK.
  wp_step. eapply wp_length_of; [done|]. fold n.
  wp_step.
  eapply (wp_foldM_inv (hash_block src)
            (fun pre hs w' =>
               heap w ⊆ heap w' /\ wasmInstance w' = wasmInstance w /\
               events w' = events w ++ block_digest_calls bs pre /\
               Forall2 (fun l i => heap w' !! l = Some (dg i)) hs pre)
            _ (seq 0 n)) with (pre := []); [| |done|].
  - intros pre x suf hs w1 _ (Hsub & Hinst & Hev & Hall).
    eapply wp_hash_block_ok; [by eapply lookup_weaken|].
    intros w2 l Hsub2 Hl Hdg Hinst2 Hev2.
    split; [by etrans|]. split; [congruence|]. split.
    + rewrite Hev2, Hev. unfold block_digest_calls.
      by rewrite map_app, <- app_assoc.
    + apply Forall2_app; [|by constructor].
      eapply Forall2_impl; [exact Hall|].
      intros l0 i0 Hl0. exact (lookup_weaken _ _ _ _ Hl0 Hsub2).
  - intros hs wA (HsubA & HinstA & HevA & HallA).
    wp_step. apply wp_Uint8Array_new. cbn [heap wasmInstance events].
    intros aH HaH. wp_step.
    eapply (wp_foldM_inv (copy_hash aH hs)
              (fun pre _ w' =>
                 w' = {| heap := <[aH := concat (map dg pre)
                                         ++ replicate ((n - length pre) * 20) x00]>
                                   (heap wA);
                         wasmInstance := wasmInstance wA;
                         events := events wA |})
              _ (seq 0 n)) with (pre := []); [| |done|].
    + intros pre x suf [] w1 Hsplit ->.
      apply seq_split_index in Hsplit as (Hx & Hlt & Hpre).
      destruct (Forall2_lookup_r _ _ _ x x HallA) as (l & Hl & Hdg).
      { by apply lookup_seq. }
      unfold copy_hash. rewrite Hl.
      assert (l <> aH) by congruence.
      assert (Hclen : length (concat (map dg pre)) = x * 20).
      { rewrite concat_length_20; [rewrite length_map; lia|].
        apply Forall_forall. intros d Hd.
        apply list_elem_of_fmap in Hd as (j & -> & _). apply SHA1_digest_length. }
      eapply wp_set; cbn [heap wasmInstance events].
      { rewrite lookup_insert_ne by done. exact Hdg. }
      { apply lookup_insert_eq. }
      { unfold dg at 1. rewrite SHA1_digest_length, length_app, Hclen,
          length_replicate. unfold CBK_SHA1_SIZE. lia. }
      rewrite insert_insert_eq. f_equal. f_equal.
      clear Hdg Hclen Hx. subst pre.
      change [x] with [0 + x]. rewrite <- seq_S, !length_seq.
      by apply all_hashes_snoc_step.
    + intros [] w3 ->.
      rewrite length_seq, Nat.sub_diag. change (replicate (0 * 20) x00) with (@nil byte).
      rewrite app_nil_r.
      change (concat (map dg (seq 0 n))) with (all_hashes bs).
      wp_step. eapply wp_sha1; [heap_lookup|].
      cbn [heap wasmInstance events]. intros m Hm. fresh_ne Hm.
      assert (HuA : heap wA !! uuid = Some ub) by (by eapply lookup_weaken).
      wp_step. eapply wp_calcHashAB_ready; cbn [heap wasmInstance events];
        [rewrite HinstA; exact Hi|apply lookup_insert_eq| |exact Hrun|].
      { heap_lookup. }
      intros l1 l2 Hl1 Hl2 Hl12. fresh_ne Hl1. fresh_ne Hl2.
      wp_step. apply wp_Uint8Array_new. cbn [heap wasmInstance events].
      intros c Hc. fresh_ne Hc.
      wp_step. eapply wp_set; cbn [heap wasmInstance events]; [heap_lookup..| |].
      { rewrite length_replicate. unfold CBK_HEADER_SIZE. lia. }
      rewrite insert_insert_eq.
      wp_step. eapply wp_set; cbn [heap wasmInstance events]; [heap_lookup..| |].
      { rewrite SHA1_digest_length, length_inserts, length_replicate.
        unfold CBK_HEADER_SIZE, CBK_SHA1_SIZE. lia. }
      rewrite insert_insert_eq.
      wp_step. eapply wp_set; cbn [heap wasmInstance events]; [heap_lookup..| |].
      { rewrite all_hashes_length, !length_inserts, length_replicate.
        fold n. unfold CBK_HEADER_SIZE, CBK_SHA1_SIZE. lia. }
      rewrite insert_insert_eq.
      eapply (wp_log_tail_ok c m l2); cbn [heap wasmInstance events];
        [heap_lookup..|].
      intros l Hl. fresh_ne Hl.
      exists c. split; [done|]. cbn [heap wasmInstance events].
      split; [heap_lookup|]. split; [done|].
      eexists. rewrite HevA, <- !app_assoc. reflexivity.
    + by rewrite Nat.sub_0_r.
  - split; [done|]. split; [done|]. split; [by rewrite app_nil_r|constructor].
Qed.

(** * The layout of the checksum file *)

Lemma cbk_file_length sig bs :
  length (cbk_file sig bs)
  = 77 + 20 * Math_ceil_div (length bs) CBK_BLOCK_SIZE.
Proof.
  unfold cbk_file. rewrite !length_inserts, length_replicate.
  unfold CBK_HEADER_SIZE, CBK_SHA1_SIZE. lia.
Qed.

Lemma cbk_file_block_digest sig bs i :
  i < Math_ceil_div (length bs) CBK_BLOCK_SIZE ->
  ta_slice (77 + i * 20) (77 + i * 20 + 20) (cbk_file sig bs)
  = SHA1.digest (block_input bs i).
Proof.
  intros Hi. rewrite <- all_hashes_chunk by done.
  pose proof (all_hashes_length bs) as Hlen.
  unfold cbk_file, CBK_HEADER_SIZE, CBK_SHA1_SIZE.
  apply list_eq. intros j. rewrite !ta_slice_lookup.
  case_decide as Hj.
  - rewrite decide_True by lia.
    rewrite list_inserts_lookup, !length_inserts, length_replicate.
    rewrite decide_True by lia. f_equal. lia.
  - rewrite decide_False by lia. done.
Qed.

(** With a signature of 57 bytes the file is the signature, the master
    digest and the block digests, one after the other. *)
Lemma cbk_file_layout sig bs :
  length sig = 57 ->
  cbk_file sig bs = sig ++ SHA1.digest (all_hashes bs) ++ all_hashes bs.
Proof.
  intros Hsig. pose proof (all_hashes_length bs) as Hlen.
  pose proof (SHA1_digest_length (all_hashes bs)) as Hm.
  unfold cbk_file, CBK_HEADER_SIZE, CBK_SHA1_SIZE.
  set (n := Math_ceil_div (length bs) CBK_BLOCK_SIZE) in *.
  replace (replicate (57 + 20 + n * 20) x00)
    with (replicate 57 x00 ++ replicate 20 x00 ++ replicate (n * 20) x00)
    by (by rewrite <- !replicate_add).
  rewrite list_inserts_0_r by (by rewrite length_replicate).
  replace 57 with (length sig + 0) at 2 by lia.
  rewrite list_inserts_app_r.
  rewrite list_inserts_0_r by (by rewrite length_replicate).
  replace (57 + 20)
    with (length sig + (length (SHA1.digest (all_hashes bs)) + 0)) by lia.
  rewrite !list_inserts_app_r.
  rewrite <- (app_nil_r (replicate (n * 20) x00)).
  rewrite list_inserts_0_r by (by rewrite length_replicate).
  by rewrite app_nil_r.
Qed.

(** * [parseUUID] *)

Lemma parseUUID_run guidStr w :
  exists l,
    heap w !! l = None /\
    parseUUID guidStr w
    = (Return l, {| heap := <[l := uuid_bytes guidStr]> (heap w);
                    wasmInstance := wasmInstance w; events := events w |}).
Proof.
  cut (wp (parseUUID guidStr) w (fun r w' =>
         exists l, heap w !! l = None /\ r = Return l /\
           w' = {| heap := <[l := uuid_bytes guidStr]> (heap w);
                  wasmInstance := wasmInstance w; events := events w |})).
  { intros Hwp. destruct (wp_run _ _ _ Hwp) as (r & w' & Hr & l & Hl & -> & ->).
    eauto. }
  unfold parseUUID.
  set (f := fun i => number_to_uint8
                       (parseInt16 (substr (i * 2) 2 (replace_0x guidStr)))).
  wp_step. apply wp_alloc. cbn [heap wasmInstance events]. intros l Hl.
  wp_step.
  eapply (wp_foldM_inv (fun (_ : unit) i => store l i (f i))
            (fun pre _ w' =>
               w' = {| heap := <[l := store_all f pre (replicate 8 x00)]> (heap w);
                       wasmInstance := wasmInstance w; events := events w |})
            _ (seq 0 8)) with (pre := []); [| |done|done].
  - intros pre x suf [] w1 _ ->.
    eapply wp_store; cbn [heap wasmInstance events]; [apply lookup_insert_eq|].
    rewrite insert_insert_eq. unfold store_all. by rewrite fold_left_app.
  - intros [] w1 ->. wp_step. exists l. by repeat split.
Qed.

Lemma substring_beyond n m s : String.length s <= n -> substring n m s = EmptyString.
Proof.
  revert n. induction s as [|c s IH]; intros n Hn.
  - by destruct n, m.
  - destruct n as [|n]; simpl in Hn; [lia|]. simpl. apply IH. lia.
Qed.

Lemma uuid_bytes_length guidStr : length (uuid_bytes guidStr) = 8.
Proof. reflexivity. Qed.

Lemma uuid_bytes_lookup guidStr i :
  i < 8 ->
  uuid_bytes guidStr !! i
  = Some (number_to_uint8
            (parseInt16 (substr (i * 2) 2 (replace_0x guidStr)))).
Proof.
  intros Hi. unfold uuid_bytes. rewrite list_lookup_fmap.
  assert (seq 0 8 !! i = Some i) as -> by (by apply lookup_seq). done.
Qed.

Lemma replace_0x_hex s : all_hex s = true -> replace_0x s = s.
Proof.
  destruct s as [|c0 [|c1 rest]].
  - done.
  - intros _. by destruct c0 as [[] [] [] [] [] [] [] []].
  - cbn [all_hex]. intros H.
    apply andb_prop in H as [_ H]. apply andb_prop in H as [H _].
    apply bool_decide_eq_true in H. unfold replace_0x.
    destruct c0 as [[] [] [] [] [] [] [] []]; try done.
    case_decide as Hx; [|done].
    destruct Hx as [->| ->]; vm_compute in H; by destruct H.
Qed.

(** * Properties of [recomputeITunesCDBHash] *)

(** C1. With the engine initialised and honouring its contract, patching a
    valid container twice with the same 8-byte device id succeeds both
    times and the second run writes exactly the 57 signature bytes of the
    first: the signature of the digest of the zeroed copy, which does not
    depend on the signature already in the container.  The signature
    region, and in fact the whole container, is the same after the second
    run as after the first. *)
Theorem patchSignature_idempotent data uuid bs ub inst w :
  heap w !! data = Some bs -> valid_mhbd bs ->
  heap w !! uuid = Some ub -> length ub = 8 ->
  wasmInstance w = Some inst -> SignatureEngine inst ->
  exists w1 w2 b1 b2,
    recomputeITunesCDBHash data uuid w = (Return data, w1) /\
    recomputeITunesCDBHash data uuid w1 = (Return data, w2) /\
    heap w1 !! data = Some b1 /\ heap w2 !! data = Some b2 /\
    length (ta_slice 0xAB (0xAB + 57) b1) = 57 /\
    ta_slice 0xAB (0xAB + 57) b1
    = hashAB inst (SHA1.digest (zeroed (set_scheme bs))) ub /\
    ta_slice 0xAB (0xAB + 57) b2 = ta_slice 0xAB (0xAB + 57) b1 /\
    b2 = b1.
Proof.
  intros Hd Hv Hu Hlu Hi Hc. pose proof Hv as [Hlen Hmagic].
  assert (Hne : uuid <> data).
  { intros ->. rewrite Hd in Hu. injection Hu as ->. lia. }
  set (D := SHA1.digest (zeroed (set_scheme bs))).
  destruct (engine_run_contract inst inst D ub Hc (same_engine_refl inst))
    as (inst1 & Hrun1 & Hsame1 & Hsig57);
    [apply SHA1_digest_length|done|].
  set (sig := hashAB inst D ub) in *.
  destruct (recompute_ready data uuid bs ub inst inst1 sig w)
    as (w1 & Hr1 & Hd1 & Hu1 & Hi1); [done..|].
  set (X := list_inserts MHBD_HASHAB_OFFSET sig (set_scheme bs)) in *.
  assert (HvX : valid_mhbd X) by (apply patched_valid; [done|lia|done]).
  assert (HzX : zeroed (set_scheme X) = zeroed (set_scheme bs)).
  { unfold X. rewrite patched_set_scheme by (done || lia).
    apply patched_zeroed; [done|lia]. }
  destruct (engine_run_contract inst inst1 D ub Hc Hsame1)
    as (inst2 & Hrun2 & Hsame2 & _);
    [apply SHA1_digest_length|done|].
  destruct (recompute_ready data uuid X ub inst1 inst2 sig w1)
    as (w2 & Hr2 & Hd2 & Hu2 & Hi2); [done..| |].
  { by rewrite HzX. }
  assert (HXX : list_inserts MHBD_HASHAB_OFFSET sig (set_scheme X) = X).
  { unfold X. rewrite patched_set_scheme by (done || lia).
    apply patched_again; [done|lia]. }
  rewrite HXX in Hd2.
  assert (HsX : ta_slice 0xAB (0xAB + 57) X = sig).
  { unfold X. apply patched_signature; [done|lia|done]. }
  exists w1, w2, X, X. rewrite HsX. by repeat split.
Qed.

Lemma patchSignature_idempotent_witness :
  exists w1 w2 b1 b2,
    recomputeITunesCDBHash 1%positive 2%positive (demo_world demo_mhbd demo_uuid)
    = (Return 1%positive, w1) /\
    recomputeITunesCDBHash 1%positive 2%positive w1 = (Return 1%positive, w2) /\
    heap w1 !! 1%positive = Some b1 /\ heap w2 !! 1%positive = Some b2 /\
    length (ta_slice 0xAB (0xAB + 57) b1) = 57 /\
    ta_slice 0xAB (0xAB + 57) b1
    = hashAB demo_instance (SHA1.digest (zeroed (set_scheme demo_mhbd)))
        demo_uuid /\
    ta_slice 0xAB (0xAB + 57) b2 = ta_slice 0xAB (0xAB + 57) b1 /\
    b2 = b1.
Proof.
  apply (patchSignature_idempotent 1%positive 2%positive demo_mhbd demo_uuid
           demo_instance (demo_world demo_mhbd demo_uuid)).
  - reflexivity.
  - split; [vm_compute; lia | reflexivity].
  - reflexivity.
  - reflexivity.
  - reflexivity.
  - exact demo_instance_contract.
Defined.

Lemma recompute_outcome data uuid bs w r w' :
  heap w !! data = Some bs -> valid_mhbd bs ->
  recomputeITunesCDBHash data uuid w = (r, w') ->
  (forall l v, l <> data -> heap w !! l = Some v -> heap w' !! l = Some v) /\
  (exists bs',
      heap w' !! data = Some bs' /\
      (bs' = set_scheme bs \/
       exists sig, length sig <= 57 /\
                   bs' = list_inserts MHBD_HASHAB_OFFSET sig (set_scheme bs)) /\
      (forall d, r = Return d ->
         d = data /\
         exists sig, length sig <= 57 /\
                   bs' = list_inserts MHBD_HASHAB_OFFSET sig (set_scheme bs))) /\
  (exists es, events w' = events w
                          ++ crypto_subtle_digest (zeroed (set_scheme bs)) :: es
              /\ forall d, crypto_subtle_digest d ∉ es).
Proof.
  intros Hd Hv Hrun.
  exact (wp_elim _ _ _ _ _ (recompute_any data uuid bs w Hd Hv) Hrun).
Qed.

(** C4, as amended.  For a container of at least 0xAB + 57 bytes that
    starts with the mhbd magic, the hashing-scheme field holds the bytes
    03 00 after the call, whatever the device id and whether the call
    returns or throws. *)
Theorem scheme_field_set_when_valid data uuid bs w r w' :
  heap w !! data = Some bs -> valid_mhbd bs ->
  recomputeITunesCDBHash data uuid w = (r, w') ->
  exists bs',
    heap w' !! data = Some bs' /\
    bs' !! MHBD_SCHEME_OFFSET = Some x03 /\
    bs' !! (MHBD_SCHEME_OFFSET + 1) = Some x00.
Proof.
  intros Hd Hv Hrun. pose proof Hv as [Hlen _].
  destruct (recompute_outcome _ _ _ _ _ _ Hd Hv Hrun)
    as (_ & (bs' & Hbs' & [->|(sig & Hsig & ->)] & _) & _).
  - exists (set_scheme bs). split; [done|]. apply set_scheme_field. lia.
  - eexists. split; [done|]. by apply patched_scheme.
Qed.

Lemma scheme_field_set_when_valid_witness :
  exists bs',
    heap (recomputeITunesCDBHash 1%positive 2%positive
            (demo_world demo_mhbd demo_uuid)).2 !! 1%positive = Some bs' /\
    bs' !! MHBD_SCHEME_OFFSET = Some x03 /\
    bs' !! (MHBD_SCHEME_OFFSET + 1) = Some x00.
Proof.
  apply (scheme_field_set_when_valid 1%positive 2%positive demo_mhbd
           (demo_world demo_mhbd demo_uuid)
           (recomputeITunesCDBHash 1%positive 2%positive
              (demo_world demo_mhbd demo_uuid)).1).
  - reflexivity.
  - split; [vm_compute; lia | reflexivity].
  - apply surjective_pairing.
Defined.

(** C4 as stated fails: a 256-byte buffer of zeros does not start with the
    magic, the call returns it as it is, and its scheme field still holds
    00 00. *)
Lemma scheme_field_unset_when_rejected :
  recomputeITunesCDBHash 1%positive 2%positive
    (demo_world (replicate 256 x00) demo_uuid)
  = (Return 1%positive,
     {| heap := demo_heap (replicate 256 x00) demo_uuid;
        wasmInstance := Some demo_instance;
        events := [console_warn warn_not_mhbd] |})
  /\ replicate 256 x00 !! MHBD_SCHEME_OFFSET = Some x00
  /\ replicate 256 x00 !! (MHBD_SCHEME_OFFSET + 1) = Some x00.
Proof. vm_compute. repeat split. Qed.

(** C5.  A buffer shorter than 0xAB + 57 bytes, or long enough but not
    starting with the mhbd magic, is returned as it is: the heap and the
    engine are untouched, and the only thing the call does is the
    console warning for the condition it met (too small, respectively not
    mhbd); no digest and no signature is computed. *)
Theorem rejected_buffer_unchanged data uuid bs w :
  heap w !! data = Some bs ->
  length bs < 0xAB + 57 \/
  (0xAB + 57 <= length bs /\ take 4 bs <> bytes_of_string "mhbd") ->
  recomputeITunesCDBHash data uuid w
  = (Return data,
     {| heap := heap w; wasmInstance := wasmInstance w;
        events := events w
                  ++ [console_warn (if decide (length bs < 0xAB + 57)
                                    then warn_too_small else warn_not_mhbd)] |}).
Proof.
  intros Hd Hbad. apply wp_eq. unfold recomputeITunesCDBHash.
  wp_step. eapply wp_length_of; [done|].
  case_decide as Hlen.
  - wp_step. wp_step. by wp_step.
  - destruct Hbad as [?|[_ Hm]]; [lia|].
    wp_step. apply (wp_read_Some _ bs); [done|].
    rewrite decide_True.
    2:{ intros Heq. apply Hm. apply magic_check; [lia|done]. }
    wp_step. wp_step. by wp_step.
Qed.

Lemma rejected_buffer_unchanged_witness :
  recomputeITunesCDBHash 1%positive 2%positive
    (demo_world (take 100 demo_mhbd) demo_uuid)
  = (Return 1%positive,
     {| heap := heap (demo_world (take 100 demo_mhbd) demo_uuid);
        wasmInstance := wasmInstance (demo_world (take 100 demo_mhbd) demo_uuid);
        events := events (demo_world (take 100 demo_mhbd) demo_uuid)
                  ++ [console_warn
                        (if decide (length (take 100 demo_mhbd) < 0xAB + 57)
                         then warn_too_small else warn_not_mhbd)] |})
  /\
  recomputeITunesCDBHash 1%positive 2%positive
    (demo_world (replicate 256 x00) demo_uuid)
  = (Return 1%positive,
     {| heap := heap (demo_world (replicate 256 x00) demo_uuid);
        wasmInstance := wasmInstance (demo_world (replicate 256 x00) demo_uuid);
        events := events (demo_world (replicate 256 x00) demo_uuid)
                  ++ [console_warn
                        (if decide (length (replicate 256 x00) < 0xAB + 57)
                         then warn_too_small else warn_not_mhbd)] |}).
Proof.
  split.
  - apply (rejected_buffer_unchanged 1%positive 2%positive (take 100 demo_mhbd)
             (demo_world (take 100 demo_mhbd) demo_uuid)).
    + reflexivity.
    + left. vm_compute. lia.
  - apply (rejected_buffer_unchanged 1%positive 2%positive (replicate 256 x00)
             (demo_world (replicate 256 x00) demo_uuid)).
    + reflexivity.
    + right. split; [vm_compute; lia | vm_compute; discriminate].
Defined.

(** C6.  Patching a valid container leaves every byte of the original
    outside the scheme field at 0x30 and the signature region at 0xAB as it
    was; in particular the device-id field at 0x18 and the digest regions
    at 0x58 and 0x72 keep their bytes, and no other typed array that
    existed before is changed.  The zeroed bytes exist only in the copy
    that is handed to the digest, which is the one digest call of the run.
    This holds for every outcome of the call, a successful one included. *)
Theorem patch_writes_only_scheme_and_signature data uuid bs w r w' :
  heap w !! data = Some bs -> valid_mhbd bs ->
  recomputeITunesCDBHash data uuid w = (r, w') ->
  (exists bs',
      heap w' !! data = Some bs' /\
      length bs' = length bs /\
      (forall i, ~ (0x30 <= i < 0x32) -> ~ (0xAB <= i < 0xAB + 57) ->
                 bs' !! i = bs !! i) /\
      ta_slice 0x18 (0x18 + 8) bs' = ta_slice 0x18 (0x18 + 8) bs /\
      ta_slice 0x58 (0x58 + 20) bs' = ta_slice 0x58 (0x58 + 20) bs /\
      ta_slice 0x72 (0x72 + 46) bs' = ta_slice 0x72 (0x72 + 46) bs) /\
  (forall l v, l <> data -> heap w !! l = Some v -> heap w' !! l = Some v) /\
  (exists es, events w' = events w
                          ++ crypto_subtle_digest (zeroed (set_scheme bs)) :: es
              /\ forall d, crypto_subtle_digest d ∉ es) /\
  (forall d, r = Return d -> d = data).
Proof.
  intros Hd Hv Hrun. pose proof Hv as [Hlen _].
  destruct (recompute_outcome _ _ _ _ _ _ Hd Hv Hrun)
    as (Hframe & (bs' & Hbs' & Hcases & Hret) & Hev).
  assert (Hout : length bs' = length bs /\
                 forall i, ~ (0x30 <= i < 0x32) -> ~ (0xAB <= i < 0xAB + 57) ->
                           bs' !! i = bs !! i).
  { destruct Hcases as [->|(sig & Hsig & ->)].
    - split; [apply set_scheme_length|]. intros i H1 H2.
      rewrite set_scheme_lookup. repeat case_decide; try done; lia.
    - split; [by apply patched_length|]. intros i H1 H2.
      by apply patched_outside. }
  destruct Hout as [Hl Hout].
  split; [|split; [done|split; [done|]]].
  - exists bs'. split; [done|]. split; [done|]. split; [done|].
    repeat split; apply ta_slice_ext; intros i Hi; apply Hout; lia.
  - intros d Hr. by destruct (Hret d Hr).
Qed.

Lemma patch_writes_only_scheme_and_signature_witness :
  (exists bs',
      heap (recomputeITunesCDBHash 1%positive 2%positive
              (demo_world demo_mhbd demo_uuid)).2 !! 1%positive = Some bs' /\
      length bs' = length demo_mhbd /\
      (forall i, ~ (0x30 <= i < 0x32) -> ~ (0xAB <= i < 0xAB + 57) ->
                 bs' !! i = demo_mhbd !! i) /\
      ta_slice 0x18 (0x18 + 8) bs' = ta_slice 0x18 (0x18 + 8) demo_mhbd /\
      ta_slice 0x58 (0x58 + 20) bs' = ta_slice 0x58 (0x58 + 20) demo_mhbd /\
      ta_slice 0x72 (0x72 + 46) bs' = ta_slice 0x72 (0x72 + 46) demo_mhbd) /\
  (forall l v, l <> 1%positive ->
     heap (demo_world demo_mhbd demo_uuid) !! l = Some v ->
     heap (recomputeITunesCDBHash 1%positive 2%positive
             (demo_world demo_mhbd demo_uuid)).2 !! l = Some v) /\
  (exists es,
      events (recomputeITunesCDBHash 1%positive 2%positive
                (demo_world demo_mhbd demo_uuid)).2
      = events (demo_world demo_mhbd demo_uuid)
        ++ crypto_subtle_digest (zeroed (set_scheme demo_mhbd)) :: es
      /\ forall d, crypto_subtle_digest d ∉ es) /\
  (forall d, (recomputeITunesCDBHash 1%positive 2%positive
                (demo_world demo_mhbd demo_uuid)).1 = Return d ->
             d = 1%positive).
Proof.
  apply (patch_writes_only_scheme_and_signature 1%positive 2%positive demo_mhbd
           (demo_world demo_mhbd demo_uuid)).
  - reflexivity.
  - split; [vm_compute; lia | reflexivity].
  - apply surjective_pairing.
Defined.

(** * Calls that are suspended *)

Lemma wp_await others w Q : Q (Return tt) (others w) -> wp (await others) w Q.
Proof. auto. Qed.

Lemma wp_sha1_async during a bs w Q :
  heap w !! a = Some bs ->
  (forall w1 l,
     w1 = during {| heap := heap w; wasmInstance := wasmInstance w;
                    events := events w ++ [crypto_subtle_digest bs] |} ->
     heap w1 !! l = None ->
     Q (Return l) {| heap := <[l := SHA1.digest bs]> (heap w1);
                     wasmInstance := wasmInstance w1;
                     events := events w1 |}) ->
  wp (sha1_async during a) w Q.
Proof.
  intros Ha HQ. unfold sha1_async. wp_step. apply (wp_read_Some _ bs); [done|].
  wp_step. wp_step. wp_step. apply wp_await. wp_step. by eapply HQ.
Qed.

(** Awaited on its own, a call runs as the operation without suspensions
    does. *)
Lemma sha1_alone k a w : sha1_async (alone k) a w = sha1 a w.
Proof.
  unfold sha1_async, sha1, mbind, M_bind, bind, read.
  by destruct (heap w !! a).
Qed.

Ltac same_run :=
  unfold mbind, M_bind, bind;
  repeat first
    [ reflexivity
    | rewrite sha1_alone
    | match goal with
      | |- context [decide ?P] => destruct (decide P)
      | |- context [match ?m ?w with _ => _ end] =>
          lazymatch m with
          | sha1_async _ _ => fail
          | _ => destruct (m w) as [[?|?] ?]
          end
      end ].

Lemma recomputeITunesCDBHash_alone data uuid w :
  recomputeITunesCDBHash_async alone data uuid w
  = recomputeITunesCDBHash data uuid w.
Proof. unfold recomputeITunesCDBHash_async, recomputeITunesCDBHash. same_run. Qed.

Lemma hash_block_alone src hs i w :
  hash_block_async alone src hs i w = hash_block src hs i w.
Proof. unfold hash_block_async, hash_block. same_run. Qed.

Lemma foldM_ext {A B} (f g : B -> A -> M B) acc l w :
  (forall acc x w, f acc x w = g acc x w) ->
  foldM f acc l w = foldM g acc l w.
Proof.
  intros Hfg. revert acc w. induction l as [|x l IH]; intros acc w; [done|].
  cbn [foldM]. unfold mbind, M_bind, bind. rewrite Hfg.
  destruct (g acc x w) as [[acc'|e] w']; [apply IH|done].
Qed.

Lemma computeLocationsCBK_alone src uuid w :
  computeLocationsCBK_async alone src uuid w = computeLocationsCBK src uuid w.
Proof.
  unfold computeLocationsCBK_async, computeLocationsCBK.
  unfold mbind, M_bind, bind.
  destruct (length_of src w) as [[len|e] w0]; [|done].
  rewrite (foldM_ext (hash_block_async alone src) (hash_block src))
    by apply hash_block_alone.
  same_run.
Qed.

(** The run up to the digest: the scheme field is stored in the original,
    a copy is made and zeroed. *)
Lemma wp_recompute_async_prefix others data uuid bs w Q :
  heap w !! data = Some bs -> valid_mhbd bs ->
  (forall buf,
     heap w !! buf = None -> data <> buf ->
     wp (sha1_async (others 0) buf ≫= fun sha1Hash =>
         await (others 1) ≫= fun _ =>
         calcHashAB sha1Hash uuid ≫= fun sig =>
         set data sig MHBD_HASHAB_OFFSET ≫= fun _ =>
         read sha1Hash ≫= fun hb => slice sig 0 4 ≫= fun sig4 =>
         read sig4 ≫= fun s =>
         emit (console_log ("[hashAB] Recomputed iTunesCDB hash (SHA1: "
                            ++ hex hb ++ ", sig[0:4]: " ++ hex s ++ ")"))
         ≫= fun _ => ret data)
        {| heap := <[buf := zeroed (set_scheme bs)]>
                     (<[data := set_scheme bs]> (heap w));
           wasmInstance := wasmInstance w;
           events := events w |}
        Q) ->
  wp (recomputeITunesCDBHash_async others data uuid) w Q.
Proof.
  intros Hd [Hlen Hmagic] HQ. unfold recomputeITunesCDBHash_async.
  wp_step. eapply wp_length_of; [done|]. rewrite decide_False by lia.
  wp_step. apply (wp_read_Some _ bs); [done|].
  rewrite decide_False.
  2:{ intros Hne. apply Hne, magic_check; [lia|done]. }
  wp_step. eapply wp_store; [done|]. cbn [heap wasmInstance events].
  wp_step. eapply wp_store; [apply lookup_insert_eq|].
  cbn [heap wasmInstance events]. rewrite insert_insert_eq.
  fold (set_scheme bs).
  wp_step. eapply wp_Uint8Array_from; [apply lookup_insert_eq|].
  cbn [heap wasmInstance events]. intros buf Hbuf.
  apply lookup_insert_None in Hbuf as [Hbuf Hbd].
  wp_step. eapply wp_fill; [apply lookup_insert_eq|].
  cbn [heap wasmInstance events]. rewrite insert_insert_eq.
  wp_step. eapply wp_fill; [apply lookup_insert_eq|].
  cbn [heap wasmInstance events]. rewrite insert_insert_eq.
  wp_step. eapply wp_fill; [apply lookup_insert_eq|].
  cbn [heap wasmInstance events]. rewrite insert_insert_eq.
  wp_step. eapply wp_fill; [apply lookup_insert_eq|].
  cbn [heap wasmInstance events]. rewrite insert_insert_eq.
  fold (zeroed (set_scheme bs)).
  by apply HQ.
Qed.

(** C10, as amended.  On a valid container, a call made while
    [wasmInstance] is unset throws the not-initialized error of
    [calcHashAB] provided the variable is still unset when the call gets
    there, that is, provided no call of [initHashAB] is resumed with an
    instance while the call is suspended for the digest (and nothing else
    writes the container meanwhile).  The signature region of the container
    is then as before, but the scheme field has been stored already and
    holds 03 00, so unless it held these bytes before, the container has
    changed although the call failed. *)
Theorem patch_not_atomic_while_uninitialized others data uuid bs w :
  heap w !! data = Some bs -> valid_mhbd bs ->
  wasmInstance w = None ->
  (forall k, leaves_engine_unset (others k)) ->
  (forall k w1, heap (others k w1) !! data = heap w1 !! data) ->
  exists w' bs',
    recomputeITunesCDBHash_async others data uuid w
    = (Throw Error_not_initialized, w') /\
    heap w' !! data = Some bs' /\
    ta_slice 0xAB (0xAB + 57) bs' = ta_slice 0xAB (0xAB + 57) bs /\
    bs' !! MHBD_SCHEME_OFFSET = Some x03 /\
    bs' !! (MHBD_SCHEME_OFFSET + 1) = Some x00 /\
    (ta_slice 0x30 0x32 bs <> [x03; x00] -> bs' <> bs) /\
    wasmInstance w' = None.
Proof.
  intros Hd Hv Hi Hunset Hdata. pose proof Hv as [Hlen _].
  cut (exists w', recomputeITunesCDBHash_async others data uuid w
                  = (Throw Error_not_initialized, w') /\
                  heap w' !! data = Some (set_scheme bs) /\
                  wasmInstance w' = None).
  { intros (w' & Hrun & Hd' & Hi'). exists w', (set_scheme bs).
    split; [done|]. split; [done|]. split; [apply set_scheme_signature|].
    destruct (set_scheme_field bs) as [H30 H31]; [lia|].
    split; [done|]. split; [done|]. split; [|done].
    intros Hne Heq. apply Hne. rewrite <- Heq.
    apply list_eq. intros i. rewrite ta_slice_lookup.
    destruct i as [|[|i]]; simpl.
    - exact H30.
    - exact H31.
    - done. }
  apply wp_outcome.
  apply (wp_recompute_async_prefix others data uuid bs); [done..|].
  intros buf Hbuf Hbd.
  wp_step. eapply wp_sha1_async; [apply lookup_insert_eq|].
  cbn [heap wasmInstance events]. intros w1 h Hw1 Hh.
  assert (Hd1 : heap w1 !! data = Some (set_scheme bs)).
  { rewrite Hw1, Hdata. cbn [heap].
    rewrite lookup_insert_ne by done. apply lookup_insert_eq. }
  assert (Hi1 : wasmInstance w1 = None).
  { rewrite Hw1. by apply Hunset. }
  assert (Hhd : h <> data) by congruence.
  wp_step. apply wp_await.
  wp_step. unfold wp at 1.
  rewrite calcHashAB_not_initialized.
  2:{ by apply Hunset. }
  cbn [fst snd].
  split; [done|]. split; [|by apply Hunset].
  rewrite Hdata. cbn [heap]. by rewrite lookup_insert_ne.
Qed.

Lemma patch_not_atomic_while_uninitialized_witness :
  exists w' bs',
    recomputeITunesCDBHash_async (init_resumes_at 0 (Throw LoadError))
      1%positive 2%positive (cold_world demo_mhbd demo_uuid)
    = (Throw Error_not_initialized, w') /\
    heap w' !! 1%positive = Some bs' /\
    ta_slice 0xAB (0xAB + 57) bs' = ta_slice 0xAB (0xAB + 57) demo_mhbd /\
    bs' !! MHBD_SCHEME_OFFSET = Some x03 /\
    bs' !! (MHBD_SCHEME_OFFSET + 1) = Some x00 /\
    (ta_slice 0x30 0x32 demo_mhbd <> [x03; x00] -> bs' <> demo_mhbd) /\
    wasmInstance w' = None.
Proof.
  apply (patch_not_atomic_while_uninitialized
           (init_resumes_at 0 (Throw LoadError)) 1%positive 2%positive
           demo_mhbd (cold_world demo_mhbd demo_uuid)).
  - reflexivity.
  - split; [vm_compute; lia | reflexivity].
  - reflexivity.
  - intros k w Hw. unfold init_resumes_at. by case_decide.
  - intros k w. unfold init_resumes_at. by case_decide.
Defined.

(** C10 as stated fails: the call is made while [wasmInstance] is unset
    and a call of [initHashAB] is in flight; that call is resumed with the
    instance while the patch is suspended for the digest, so [calcHashAB]
    finds the engine: the patch returns the container and has written the
    signature. *)
Lemma patch_signed_when_init_resumes_meanwhile :
  wasmInstance (cold_world demo_mhbd demo_uuid) = None /\
  exists w' bs',
    recomputeITunesCDBHash_async (init_resumes_at 0 (Return demo_instance))
      1%positive 2%positive (cold_world demo_mhbd demo_uuid)
    = (Return 1%positive, w') /\
    heap w' !! 1%positive = Some bs' /\
    ta_slice 0xAB (0xAB + 57) bs' <> ta_slice 0xAB (0xAB + 57) demo_mhbd.
Proof.
  split; [reflexivity|].
  eexists _, _. split; [vm_compute; reflexivity|].
  split; [vm_compute; reflexivity|].
  vm_compute. discriminate.
Qed.

(** * Properties of [computeLocationsCBK] *)

(** C2.  With the engine initialised and its two input buffers inside the
    linear memory, [computeLocationsCBK] returns a buffer of exactly
    77 + 20 * ceil(len / 1024) bytes, where the block count
    [Math_ceil_div len 1024] is the least [k] with [len <= k * 1024]; for
    an empty source the file has exactly 77 bytes. *)
Theorem checksum_file_length src uuid bs ub inst w :
  heap w !! src = Some bs -> heap w !! uuid = Some ub ->
  wasmInstance w = Some inst ->
  getInputSha1 inst + 20 <= length (memory inst) ->
  getInputUuid inst + length ub <= length (memory inst) ->
  exists cbk w' out,
    computeLocationsCBK src uuid w = (Return cbk, w') /\
    heap w' !! cbk = Some out /\
    length out = 77 + 20 * Math_ceil_div (length bs) 1024 /\
    (forall k, Math_ceil_div (length bs) 1024 <= k <-> length bs <= k * 1024) /\
    (bs = [] -> length out = 77).
Proof.
  intros Hsrc Hu Hi Hs Hub.
  destruct (engine_run_in_bounds inst (SHA1.digest (all_hashes bs)) ub)
    as (inst' & sig & Hrun); [by rewrite SHA1_digest_length|done|].
  destruct (computeLocationsCBK_ready src uuid bs ub inst inst' sig w)
    as (cbk & w' & Hr & Hc & _); [done..|].
  exists cbk, w', (cbk_file sig bs). split; [done|]. split; [done|].
  split; [apply cbk_file_length|]. split.
  - intros k. apply Math_ceil_div_ceiling. lia.
  - intros ->. rewrite cbk_file_length. cbn [length].
    unfold CBK_BLOCK_SIZE. rewrite Math_ceil_div_0 by lia. done.
Qed.

Lemma checksum_file_length_witness :
  (exists cbk w' out,
      computeLocationsCBK 1%positive 2%positive
        (demo_world (replicate 1025 x01) demo_uuid) = (Return cbk, w') /\
      heap w' !! cbk = Some out /\
      length out = 77 + 20 * Math_ceil_div (length (replicate 1025 x01)) 1024 /\
      (forall k, Math_ceil_div (length (replicate 1025 x01)) 1024 <= k
                 <-> length (replicate 1025 x01) <= k * 1024) /\
      (replicate 1025 x01 = [] -> length out = 77)) /\
  (exists cbk w' out,
      computeLocationsCBK 1%positive 2%positive (demo_world [] demo_uuid)
      = (Return cbk, w') /\
      heap w' !! cbk = Some out /\
      length out = 77 + 20 * Math_ceil_div (length (@nil byte)) 1024 /\
      (forall k, Math_ceil_div (length (@nil byte)) 1024 <= k
                 <-> length (@nil byte) <= k * 1024) /\
      (@nil byte = [] -> length out = 77)).
Proof.
  split.
  - apply (checksum_file_length 1%positive 2%positive (replicate 1025 x01)
             demo_uuid demo_instance
             (demo_world (replicate 1025 x01) demo_uuid)).
    + reflexivity.
    + reflexivity.
    + reflexivity.
    + vm_compute. lia.
    + vm_compute. lia.
  - apply (checksum_file_length 1%positive 2%positive [] demo_uuid
             demo_instance (demo_world [] demo_uuid)).
    + reflexivity.
    + reflexivity.
    + reflexivity.
    + vm_compute. lia.
    + vm_compute. lia.
Defined.

(** C3.  Block digest [i] of the checksum file, the 20 bytes at
    77 + 20 * i, is the digest of bytes [i * 1024, (i + 1) * 1024) of the
    source followed by as many zero bytes as are missing to 1024, and
    these padded blocks are, in order, what the digest primitive is called
    on.  When the length of the source is a multiple of 1024 no block gets
    any zero byte; otherwise only the last block does, and it is padded to
    exactly 1024 bytes. *)
Theorem checksum_blocks_padded src uuid bs ub inst w :
  heap w !! src = Some bs -> heap w !! uuid = Some ub ->
  wasmInstance w = Some inst ->
  getInputSha1 inst + 20 <= length (memory inst) ->
  getInputUuid inst + length ub <= length (memory inst) ->
  let n := Math_ceil_div (length bs) 1024 in
  let block i := ta_slice (i * 1024) (i * 1024 + 1024) bs in
  let zeros i := i * 1024 + 1024 - length bs in
  exists cbk w' out msg,
    computeLocationsCBK src uuid w = (Return cbk, w') /\
    heap w' !! cbk = Some out /\
    (forall i, i < n ->
       ta_slice (77 + i * 20) (77 + i * 20 + 20) out
       = SHA1.digest (block i ++ replicate (zeros i) x00)) /\
    events w'
    = events w
      ++ map (fun i => crypto_subtle_digest (block i ++ replicate (zeros i) x00))
             (seq 0 n)
      ++ [crypto_subtle_digest (all_hashes bs); wasm_calculateHash;
          console_log msg] /\
    (forall i, i < n -> length (block i ++ replicate (zeros i) x00) = 1024) /\
    (length bs mod 1024 = 0 -> forall i, i < n -> zeros i = 0) /\
    (length bs mod 1024 <> 0 ->
       (forall i, i + 1 < n -> zeros i = 0) /\
       zeros (n - 1) = 1024 - length bs mod 1024 /\ 0 < zeros (n - 1)).
Proof.
  intros Hsrc Hu Hi Hs Hub n block zeros.
  destruct (engine_run_in_bounds inst (SHA1.digest (all_hashes bs)) ub)
    as (inst' & sig & Hrun); [by rewrite SHA1_digest_length|done|].
  destruct (computeLocationsCBK_ready src uuid bs ub inst inst' sig w)
    as (cbk & w' & Hr & Hc & _ & msg & Hev); [done..|].
  assert (Hblock : forall i, i < n ->
            block_input bs i = block i ++ replicate (zeros i) x00).
  { intros i Hi'. by apply block_input_padded. }
  exists cbk, w', (cbk_file sig bs), msg. split; [done|]. split; [done|].
  split; [|split; [|split; [|split]]].
  - intros i Hi'. rewrite <- Hblock by done. by apply cbk_file_block_digest.
  - rewrite Hev. f_equal. f_equal. unfold block_digest_calls.
    apply map_ext_in. intros i Hin. apply in_seq in Hin.
    rewrite Hblock; [done|]. unfold n, CBK_BLOCK_SIZE in *. lia.
  - intros i Hi'. rewrite <- Hblock by done. by apply block_input_padded.
  - intros Hmod i Hi'. apply Math_ceil_div_lt in Hi'; [|lia].
    pose proof (Nat.div_mod_eq (length bs) 1024).
    unfold zeros. nia.
  - intros Hmod.
    pose proof (Nat.div_mod_eq (length bs) 1024).
    pose proof (Nat.mod_upper_bound (length bs) 1024).
    assert (Hn : n = S (length bs / 1024)).
    { unfold n, Math_ceil_div. by rewrite decide_False. }
    split.
    + intros i Hi'. apply Math_ceil_div_lt in Hi'; [|lia]. unfold zeros. lia.
    + rewrite Hn. unfold zeros. lia.
Qed.

Lemma checksum_blocks_padded_witness :
  exists cbk w' out msg,
    computeLocationsCBK 1%positive 2%positive
      (demo_world (replicate 1025 x01) demo_uuid) = (Return cbk, w') /\
    heap w' !! cbk = Some out /\
    (forall i, i < Math_ceil_div (length (replicate 1025 x01)) 1024 ->
       ta_slice (77 + i * 20) (77 + i * 20 + 20) out
       = SHA1.digest
           (ta_slice (i * 1024) (i * 1024 + 1024) (replicate 1025 x01)
            ++ replicate (i * 1024 + 1024 - length (replicate 1025 x01)) x00)) /\
    events w'
    = events (demo_world (replicate 1025 x01) demo_uuid)
      ++ map (fun i =>
                crypto_subtle_digest
                  (ta_slice (i * 1024) (i * 1024 + 1024) (replicate 1025 x01)
                   ++ replicate
                        (i * 1024 + 1024 - length (replicate 1025 x01)) x00))
             (seq 0 (Math_ceil_div (length (replicate 1025 x01)) 1024))
      ++ [crypto_subtle_digest (all_hashes (replicate 1025 x01));
          wasm_calculateHash; console_log msg] /\
    (forall i, i < Math_ceil_div (length (replicate 1025 x01)) 1024 ->
       length (ta_slice (i * 1024) (i * 1024 + 1024) (replicate 1025 x01)
               ++ replicate
                    (i * 1024 + 1024 - length (replicate 1025 x01)) x00)
       = 1024) /\
    (length (replicate 1025 x01) mod 1024 = 0 ->
     forall i, i < Math_ceil_div (length (replicate 1025 x01)) 1024 ->
               i * 1024 + 1024 - length (replicate 1025 x01) = 0) /\
    (length (replicate 1025 x01) mod 1024 <> 0 ->
       (forall i, i + 1 < Math_ceil_div (length (replicate 1025 x01)) 1024 ->
                  i * 1024 + 1024 - length (replicate 1025 x01) = 0) /\
       (Math_ceil_div (length (replicate 1025 x01)) 1024 - 1) * 1024 + 1024
       - length (replicate 1025 x01)
       = 1024 - length (replicate 1025 x01) mod 1024 /\
       0 < (Math_ceil_div (length (replicate 1025 x01)) 1024 - 1) * 1024 + 1024
           - length (replicate 1025 x01)).
Proof.
  apply (checksum_blocks_padded 1%positive 2%positive (replicate 1025 x01)
           demo_uuid demo_instance
           (demo_world (replicate 1025 x01) demo_uuid)).
  - reflexivity.
  - reflexivity.
  - reflexivity.
  - vm_compute. lia.
  - vm_compute. lia.
Defined.

(** C7.  [computeLocationsCBK] changes no typed array that existed before
    the call, the source buffer included, whether it returns or throws;
    and the buffer it returns is a new one. *)
Theorem checksum_source_untouched src uuid w r w' :
  computeLocationsCBK src uuid w = (r, w') ->
  (forall bs, heap w !! src = Some bs -> heap w' !! src = Some bs) /\
  (forall l bs, heap w !! l = Some bs -> heap w' !! l = Some bs) /\
  (forall cbk, r = Return cbk -> heap w !! cbk = None).
Proof.
  intros Hrun.
  destruct (wp_elim _ _ _ _ _ (computeLocationsCBK_fresh src uuid w) Hrun)
    as [Hsub Hfresh].
  split; [|split].
  - intros bs Hbs. by eapply lookup_weaken.
  - intros l bs Hbs. by eapply lookup_weaken.
  - done.
Qed.

Lemma checksum_source_untouched_witness :
  (forall bs,
     heap (demo_world (replicate 1025 x01) demo_uuid) !! 1%positive = Some bs ->
     heap (computeLocationsCBK 1%positive 2%positive
             (demo_world (replicate 1025 x01) demo_uuid)).2 !! 1%positive
     = Some bs) /\
  (forall l bs,
     heap (demo_world (replicate 1025 x01) demo_uuid) !! l = Some bs ->
     heap (computeLocationsCBK 1%positive 2%positive
             (demo_world (replicate 1025 x01) demo_uuid)).2 !! l = Some bs) /\
  (forall cbk,
     (computeLocationsCBK 1%positive 2%positive
        (demo_world (replicate 1025 x01) demo_uuid)).1 = Return cbk ->
     heap (demo_world (replicate 1025 x01) demo_uuid) !! cbk = None).
Proof.
  apply (checksum_source_untouched 1%positive 2%positive
           (demo_world (replicate 1025 x01) demo_uuid)).
  apply surjective_pairing.
Defined.

(** C8.  [parseUUID] strips an optional 0x or 0X prefix before decoding:
    for every string [s] of 16 hexadecimal digits the prefixed strings
    parse as [s] does, and both "0x000A2700248F5308" and
    "000A2700248F5308" yield a new array holding exactly the bytes
    00 0A 27 00 24 8F 53 08. *)
Theorem parseUUID_strips_prefix s w :
  String.length s = 16 -> all_hex s = true ->
  parseUUID (String "0" (String "x" s)) w = parseUUID s w /\
  parseUUID (String "0" (String "X" s)) w = parseUUID s w /\
  exists l w',
    parseUUID "0x000A2700248F5308" w = (Return l, w') /\
    parseUUID "000A2700248F5308" w = (Return l, w') /\
    heap w !! l = None /\
    heap w' !! l = Some [x00; x0a; x27; x00; x24; x8f; x53; x08].
Proof.
  intros _ Hhex. split; [|split].
  - unfold parseUUID.
    change (replace_0x (String "0" (String "x" s))) with s.
    by rewrite replace_0x_hex.
  - unfold parseUUID.
    change (replace_0x (String "0" (String "X" s))) with s.
    by rewrite replace_0x_hex.
  - destruct (parseUUID_run "000A2700248F5308" w) as (l & Hl & Hrun).
    exists l. eexists. split; [|split; [exact Hrun|split; [done|]]].
    + rewrite <- Hrun. reflexivity.
    + cbn [heap]. rewrite lookup_insert_eq. f_equal.
Qed.

Lemma parseUUID_strips_prefix_witness :
  parseUUID "0x000A2700248F5308" empty_world
  = parseUUID "000A2700248F5308" empty_world /\
  parseUUID "0X000A2700248F5308" empty_world
  = parseUUID "000A2700248F5308" empty_world /\
  exists l w',
    parseUUID "0x000A2700248F5308" empty_world = (Return l, w') /\
    parseUUID "000A2700248F5308" empty_world = (Return l, w') /\
    heap empty_world !! l = None /\
    heap w' !! l = Some [x00; x0a; x27; x00; x24; x8f; x53; x08].
Proof.
  apply (parseUUID_strips_prefix "000A2700248F5308" empty_world).
  - reflexivity.
  - reflexivity.
Defined.

(** C9 as stated fails: the six characters "000A27" are not rejected, the
    call returns a new array with the three decoded bytes and five
    zeros. *)
Lemma parseUUID_short_not_rejected :
  parseUUID "000A27" empty_world
  = (Return 1%positive,
     {| heap := <[1%positive := [x00; x0a; x27; x00; x00; x00; x00; x00]]> ∅;
        wasmInstance := None; events := [] |}).
Proof. vm_compute. reflexivity. Qed.

(** C9, as amended.  An identifier whose form after stripping the prefix
    has fewer than 16 characters is not rejected: [parseUUID] throws
    nothing and returns a new array of 8 bytes, in which every byte whose
    pair of characters would start at or beyond the end of the stripped
    string is 0; nothing else in the world changes. *)
Theorem parseUUID_short_is_zero_padded guidStr w :
  String.length (replace_0x guidStr) < 16 ->
  exists l w' bytes,
    parseUUID guidStr w = (Return l, w') /\
    heap w !! l = None /\
    heap w' !! l = Some bytes /\
    length bytes = 8 /\
    (forall i, i < 8 -> String.length (replace_0x guidStr) <= 2 * i ->
               bytes !! i = Some x00) /\
    (forall l' v, heap w !! l' = Some v -> heap w' !! l' = Some v) /\
    wasmInstance w' = wasmInstance w /\ events w' = events w.
Proof.
  intros Hshort. destruct (parseUUID_run guidStr w) as (l & Hl & Hrun).
  exists l. eexists. exists (uuid_bytes guidStr).
  split; [exact Hrun|]. cbn [heap wasmInstance events].
  split; [done|]. split; [apply lookup_insert_eq|].
  split; [apply uuid_bytes_length|]. split; [|split; [|done]].
  - intros i Hi Hbeyond. rewrite uuid_bytes_lookup by done.
    unfold substr. rewrite substring_beyond by lia. done.
  - intros l' v Hv. rewrite lookup_insert_ne by congruence. done.
Qed.

Lemma parseUUID_short_is_zero_padded_witness :
  exists l w' bytes,
    parseUUID "000A27" empty_world = (Return l, w') /\
    heap empty_world !! l = None /\
    heap w' !! l = Some bytes /\
    length bytes = 8 /\
    (forall i, i < 8 -> String.length (replace_0x "000A27") <= 2 * i ->
               bytes !! i = Some x00) /\
    (forall l' v, heap empty_world !! l' = Some v -> heap w' !! l' = Some v) /\
    wasmInstance w' = wasmInstance empty_world /\
    events w' = events empty_world.
Proof.
  apply (parseUUID_short_is_zero_padded "000A27" empty_world).
  vm_compute. lia.
Defined.

(** * More on [parseUUID] and [hex] *)

Lemma wp_alloc_fresh bs w Q :
  Q (Return (fresh (dom (heap w))))
    {| heap := <[fresh (dom (heap w)) := bs]> (heap w);
       wasmInstance := wasmInstance w; events := events w |} ->
  wp (alloc bs) w Q.
Proof. auto. Qed.

(** The run of [parseUUID], with the reference it allocates. *)
Lemma parseUUID_eval guidStr w :
  parseUUID guidStr w
  = (Return (fresh (dom (heap w))),
     {| heap := <[fresh (dom (heap w)) := uuid_bytes guidStr]> (heap w);
        wasmInstance := wasmInstance w; events := events w |}).
Proof.
  apply wp_eq. unfold parseUUID.
  set (f := fun i => number_to_uint8
                       (parseInt16 (substr (i * 2) 2 (replace_0x guidStr)))).
  set (l := fresh (dom (heap w))).
  wp_step. apply wp_alloc_fresh. fold l. wp_step.
  eapply (wp_foldM_inv (fun (_ : unit) i => store l i (f i))
            (fun pre _ w' =>
               w' = {| heap := <[l := store_all f pre (replicate 8 x00)]> (heap w);
                       wasmInstance := wasmInstance w; events := events w |})
            _ (seq 0 8)) with (pre := []); [| |done|done].
  - intros pre x suf [] w1 _ ->.
    eapply wp_store; cbn [heap wasmInstance events]; [apply lookup_insert_eq|].
    rewrite insert_insert_eq. unfold store_all. by rewrite fold_left_app.
  - intros [] w1 ->. wp_step. by split.
Qed.

Lemma parseUUID_same_bytes s s' w :
  uuid_bytes s = uuid_bytes s' -> parseUUID s w = parseUUID s' w.
Proof. intros H. by rewrite !parseUUID_eval, H. Qed.

Lemma replace_0x_byte_hex b rest :
  replace_0x (byte_hex b ++ rest) = (byte_hex b ++ rest)%string.
Proof. destruct b; reflexivity. Qed.

Lemma parseInt16_byte_hex b : number_to_uint8 (parseInt16 (byte_hex b)) = b.
Proof. destruct b; vm_compute; reflexivity. Qed.

Lemma replace_0x_hex_bytes bs : replace_0x (hex bs) = hex bs.
Proof. destruct bs as [|b bs]; [done|]. apply replace_0x_byte_hex. Qed.

Lemma substr_hex bs i b :
  bs !! i = Some b -> substr (i * 2) 2 (hex bs) = byte_hex b.
Proof.
  revert i. induction bs as [|b0 bs IH]; intros i Hi; [done|].
  destruct i as [|i]; cbn [lookup list_lookup] in Hi.
  - injection Hi as ->. unfold substr. cbn [hex fold_right].
    unfold byte_hex at 1. cbn [append Nat.mul substring]. by destruct (fold_right _ _ _).
  - unfold substr. cbn [hex fold_right]. unfold byte_hex at 1.
    cbn [append Nat.mul Nat.add substring]. by apply IH.
Qed.

Lemma uuid_bytes_hex bs : length bs = 8 -> uuid_bytes (hex bs) = bs.
Proof.
  intros Hlen. apply list_eq. intros i.
  destruct (decide (i < 8)) as [Hi|Hi].
  - destruct (lookup_lt_is_Some_2 bs i) as [b Hb]; [lia|].
    rewrite uuid_bytes_lookup, replace_0x_hex_bytes, (substr_hex bs i b) by done.
    by rewrite parseInt16_byte_hex.
  - rewrite !lookup_ge_None_2; [done|lia|rewrite uuid_bytes_length; lia].
Qed.

Lemma hex_cons b bs :
  hex (b :: bs)
  = String (hex_digit (Byte.to_N b / 16))
      (String (hex_digit (Byte.to_N b mod 16)) (hex bs)).
Proof. reflexivity. Qed.

Lemma hex_length bs : String.length (hex bs) = 2 * length bs.
Proof.
  induction bs as [|b bs IH]; [done|].
  rewrite hex_cons. cbn [String.length length]. lia.
Qed.

Lemma hex_all_hex bs : all_hex (hex bs) = true.
Proof.
  induction bs as [|b bs IH]; [done|].
  rewrite hex_cons. cbn [all_hex]. rewrite IH.
  destruct b; reflexivity.
Qed.

(** X1.  [hex] and [parseUUID] are inverse on device ids: the 16 lower-case
    hexadecimal digits that [hex] prints for 8 bytes parse back, with or
    without a 0x prefix, to a new array holding the same 8 bytes. *)
Theorem parseUUID_hex_roundtrip bs w :
  length bs = 8 ->
  String.length (hex bs) = 16 /\ all_hex (hex bs) = true /\
  exists l w',
    parseUUID (hex bs) w = (Return l, w') /\
    parseUUID (String "0" (String "x" (hex bs))) w = (Return l, w') /\
    heap w !! l = None /\
    heap w' !! l = Some bs.
Proof.
  intros Hlen. split; [rewrite hex_length; lia|]. split; [apply hex_all_hex|].
  eexists. eexists. split; [apply parseUUID_eval|].
  cbn [heap]. split; [|split].
  - rewrite <- parseUUID_eval. apply parseUUID_same_bytes.
    unfold uuid_bytes.
    change (replace_0x (String "0" (String "x" (hex bs)))) with (hex bs).
    by rewrite replace_0x_hex_bytes.
  - apply not_elem_of_dom, is_fresh.
  - rewrite lookup_insert_eq. f_equal. by apply uuid_bytes_hex.
Qed.

Lemma parseUUID_hex_roundtrip_witness :
  String.length (hex demo_uuid) = 16 /\ all_hex (hex demo_uuid) = true /\
  exists l w',
    parseUUID (hex demo_uuid) empty_world = (Return l, w') /\
    parseUUID (String "0" (String "x" (hex demo_uuid))) empty_world
    = (Return l, w') /\
    heap empty_world !! l = None /\
    heap w' !! l = Some demo_uuid.
Proof.
  apply (parseUUID_hex_roundtrip demo_uuid empty_world). reflexivity.
Defined.

Lemma replace_0x_app s rest :
  2 <= String.length s ->
  replace_0x (s ++ rest) = (replace_0x s ++ rest)%string.
Proof.
  destruct s as [|c0 [|c1 s]]; cbn [String.length]; try lia. intros _.
  change ((String c0 (String c1 s) ++ rest)%string)
    with (String c0 (String c1 (s ++ rest)%string)).
  unfold replace_0x.
  destruct c0 as [[] [] [] [] [] [] [] []]; try reflexivity.
  case_decide; reflexivity.
Qed.

Lemma substring_app n m s rest :
  n + m <= String.length s ->
  substring n m (s ++ rest) = substring n m s.
Proof.
  revert n m. induction s as [|c s IH]; intros n m H; cbn [String.length] in H.
  - assert (n = 0) as -> by lia. assert (m = 0) as -> by lia.
    simpl. by destruct rest.
  - change ((String c s ++ rest)%string) with (String c (s ++ rest)%string).
    destruct n as [|n].
    + destruct m as [|m]; [done|]. simpl. f_equal. apply IH. lia.
    + simpl. apply IH. lia.
Qed.

Lemma replace_0x_length s : String.length (replace_0x s) <= String.length s.
Proof.
  destruct s as [|c0 [|c1 s]].
  - done.
  - by destruct c0 as [[] [] [] [] [] [] [] []].
  - unfold replace_0x.
    destruct c0 as [[] [] [] [] [] [] [] []]; try done.
    case_decide; cbn [String.length]; lia.
Qed.

(** X2.  Characters after the sixteenth of the stripped identifier are never
    looked at: an identifier that is too long is not rejected, it parses
    as its first 16 characters do. *)
Theorem parseUUID_ignores_tail s rest w :
  16 <= String.length (replace_0x s) ->
  parseUUID (s ++ rest) w = parseUUID s w.
Proof.
  intros Hlen. pose proof (replace_0x_length s) as Hle.
  apply parseUUID_same_bytes. unfold uuid_bytes.
  rewrite replace_0x_app by lia.
  apply map_ext_in. intros i Hi. apply in_seq in Hi.
  unfold substr. rewrite substring_app by lia. done.
Qed.

Lemma parseUUID_ignores_tail_witness :
  parseUUID ("0x000A2700248F5308" ++ "ZZ") empty_world
  = parseUUID "0x000A2700248F5308" empty_world.
Proof.
  apply (parseUUID_ignores_tail "0x000A2700248F5308" "ZZ" empty_world).
  vm_compute. lia.
Defined.

Lemma substring_get n s c :
  String.get n s = Some c -> exists t, substring n 2 s = String c t.
Proof.
  revert n. induction s as [|c0 s IH]; intros n H.
  - by destruct n.
  - destruct n as [|n]; simpl in H.
    + injection H as ->. simpl. eauto.
    + simpl. by apply IH.
Qed.

Lemma parseInt16_junk c t :
  parseInt_head c = false -> parseInt16 (String c t) = None.
Proof.
  destruct c as [[] [] [] [] [] [] [] []]; intros H;
    first [ discriminate H | reflexivity ].
Qed.

(** X3.  A pair of characters that starts with anything but a hexadecimal
    digit, a sign or white space is not an error for [parseUUID]: the byte
    at its position is 0. *)
Theorem parseUUID_junk_pair_is_zero s i c w :
  i < 8 ->
  String.get (i * 2) (replace_0x s) = Some c ->
  parseInt_head c = false ->
  exists l w' bytes,
    parseUUID s w = (Return l, w') /\
    heap w' !! l = Some bytes /\
    length bytes = 8 /\
    bytes !! i = Some x00.
Proof.
  intros Hi Hget Hjunk. eexists. eexists. exists (uuid_bytes s).
  split; [apply parseUUID_eval|]. cbn [heap].
  split; [apply lookup_insert_eq|]. split; [apply uuid_bytes_length|].
  rewrite uuid_bytes_lookup by done.
  destruct (substring_get _ _ _ Hget) as [t Ht].
  unfold substr. rewrite Ht. by rewrite parseInt16_junk.
Qed.

Lemma parseUUID_junk_pair_is_zero_witness :
  exists l w' bytes,
    parseUUID "0x00zz2700248F5308" empty_world = (Return l, w') /\
    heap w' !! l = Some bytes /\
    length bytes = 8 /\
    bytes !! 1 = Some x00.
Proof.
  apply (parseUUID_junk_pair_is_zero "0x00zz2700248F5308" 1 "z" empty_world).
  - lia.
  - reflexivity.
  - reflexivity.
Defined.

(** * The life cycle of the engine *)

Lemma initHashAB_guard_run w :
  initHashAB_guard w
  = (Return (match wasmInstance w with Some _ => false | None => true end), w).
Proof.
  unfold initHashAB_guard, mbind, M_bind, bind, get_wasmInstance.
  by destruct (wasmInstance w).
Qed.

Lemma initHashAB_resume_world load w :
  heap (initHashAB_resume load w).2 = heap w /\
  events (initHashAB_resume load w).2 = events w /\
  wasmInstance (initHashAB_resume load w).2
  = match load with
    | Return inst => Some inst
    | Throw _ => wasmInstance w
    end.
Proof. by destruct load. Qed.

Lemma first_loaded_app l1 l2 :
  first_loaded (l1 ++ l2)
  = match first_loaded l1 with
    | Some inst => Some inst
    | None => first_loaded l2
    end.
Proof. induction l1 as [|[inst|e] l1 IH]; by cbn. Qed.

Lemma last_loaded_cons load loads :
  last_loaded (load :: loads)
  = match last_loaded loads with
    | Some inst => Some inst
    | None => match load with Return inst => Some inst | Throw _ => None end
    end.
Proof.
  unfold last_loaded. cbn [rev]. rewrite first_loaded_app.
  destruct (first_loaded (rev loads)); [done|]. by destruct load.
Qed.

(** The events agree with [initHashAB]: a call awaited on its own, and two
    calls of which the first is resumed while the second is suspended. *)
Lemma init_calls_alone c load w :
  (init_calls [Init_call c; Init_resume c load] w).1
  = (initHashAB alone load w).2.
Proof.
  unfold init_calls, initHashAB. cbn [fold_left init_step fst snd].
  unfold mbind, M_bind, bind. rewrite initHashAB_guard_run.
  destruct (wasmInstance w); cbn [fst snd].
  - by rewrite decide_False by apply not_elem_of_nil.
  - rewrite decide_True by apply list_elem_of_here. cbn [fst].
    unfold await, alone. by destruct (initHashAB_resume load w).
Qed.

Lemma init_calls_overlap a b la lb k w :
  a <> b -> k < 3 -> wasmInstance w = None ->
  (init_calls [Init_call a; Init_call b; Init_resume a la; Init_resume b lb]
     w).1
  = (initHashAB (init_resumes_at k la) lb w).2.
Proof.
  intros Hab Hk Hw. unfold init_calls, initHashAB.
  cbn [fold_left init_step fst snd].
  unfold mbind, M_bind, bind. rewrite !initHashAB_guard_run, Hw.
  cbn [fst snd]. rewrite ?initHashAB_guard_run, ?Hw. cbn [fst snd].
  destruct (decide (a ∈ [b; a])) as [_|Hn].
  2:{ destruct Hn. apply list_elem_of_further, list_elem_of_here. }
  cbn [fst snd]. rewrite filter_cons, (decide_True (P := b <> a)) by done.
  rewrite decide_True by apply list_elem_of_here. cbn [fst].
  unfold await, init_resumes_at.
  destruct k as [|[|[|k]]]; [| | |lia]; cbn [decide_rel];
    repeat (first [rewrite decide_True by done | rewrite decide_False by done]);
    by destruct (initHashAB_resume lb _).
Qed.

Lemma init_step_frame s e :
  heap (init_step s e).1 = heap s.1 /\ events (init_step s e).1 = events s.1.
Proof.
  destruct e as [c|c load]; cbn [init_step].
  - rewrite initHashAB_guard_run. by destruct (wasmInstance s.1).
  - case_decide; [|done]. cbn [fst].
    by destruct (initHashAB_resume_world load s.1) as (-> & -> & _).
Qed.

Lemma init_steps_frame es s :
  heap (fold_left init_step es s).1 = heap s.1 /\
  events (fold_left init_step es s).1 = events s.1.
Proof.
  revert s. induction es as [|e es IH]; intros s; [done|]. cbn [fold_left].
  destruct (IH (init_step s e)) as [-> ->]. apply init_step_frame.
Qed.

Lemma init_one_after_another calls w :
  exists w',
    fold_left init_step (one_after_another calls) (w, []) = (w', []) /\
    wasmInstance w'
    = match wasmInstance w with
      | Some inst => Some inst
      | None => first_loaded (map snd calls)
      end.
Proof.
  revert w. induction calls as [|[c load] calls IH]; intros w.
  - exists w. split; [done|]. by destruct (wasmInstance w).
  - unfold one_after_another. cbn [map concat app fold_left fst snd].
    fold (one_after_another calls).
    cbn [init_step fst snd]. rewrite initHashAB_guard_run.
    destruct (wasmInstance w) as [inst|] eqn:Hw; cbn [fst snd].
    + rewrite decide_False by apply not_elem_of_nil.
      destruct (IH w) as (w' & -> & Hw'). exists w'. split; [done|].
      by rewrite Hw', Hw.
    + rewrite decide_True by apply list_elem_of_here.
      rewrite filter_cons, decide_False by (intros H; by apply H).
      rewrite filter_nil.
      destruct (IH (initHashAB_resume load w).2) as (w' & -> & Hw').
      exists w'. split; [done|]. rewrite Hw'.
      destruct (initHashAB_resume_world load w) as (_ & _ & ->).
      destruct load as [inst|e]; [done|]. by rewrite Hw.
Qed.

Lemma init_all_called cs w ws :
  fold_left init_step (map Init_call cs) (w, ws)
  = (w, match wasmInstance w with Some _ => ws | None => rev cs ++ ws end).
Proof.
  revert ws. induction cs as [|c cs IH]; intros ws.
  - by destruct (wasmInstance w).
  - cbn [map fold_left init_step fst snd]. rewrite initHashAB_guard_run.
    destruct (wasmInstance w) eqn:Hw; cbn [fst snd].
    + by rewrite IH, ?Hw.
    + rewrite IH, ?Hw. cbn [rev]. by rewrite <- app_assoc.
Qed.

Lemma init_none_resumed resumes w :
  fold_left init_step (map (fun r => Init_resume r.1 r.2) resumes) (w, [])
  = (w, []).
Proof.
  induction resumes as [|r resumes IH]; [done|].
  cbn [map fold_left init_step fst snd].
  by rewrite decide_False by apply not_elem_of_nil.
Qed.

Lemma init_all_resumed (resumes : list (nat * outcome Instance)) w ws :
  NoDup (map fst resumes) ->
  (forall c, c ∈ map fst resumes -> c ∈ ws) ->
  wasmInstance
    (fold_left init_step (map (fun r => Init_resume r.1 r.2) resumes)
       (w, ws)).1
  = match last_loaded (map snd resumes) with
    | Some inst => Some inst
    | None => wasmInstance w
    end.
Proof.
  revert w ws. induction resumes as [|[c load] resumes IH]; intros w ws Hnd Hin.
  - done.
  - cbn [map fst snd] in Hnd, Hin. apply NoDup_cons in Hnd as [Hc Hnd].
    cbn [map fold_left init_step fst snd].
    rewrite decide_True by (apply Hin, list_elem_of_here).
    rewrite IH; [|done|].
    2:{ intros c' Hc'. apply list_elem_of_filter. split.
        - intros ->. by apply Hc.
        - by apply Hin, list_elem_of_further. }
    rewrite last_loaded_cons.
    destruct (last_loaded (map snd resumes)); [done|]. cbn [fst].
    destruct (initHashAB_resume_world load w) as (_ & _ & ->).
    by destruct load.
Qed.

(** X4.  Calls of [initHashAB] touch no typed array and nothing on the
    console, and while the engine is set they do nothing.  From an unset
    engine, when every call is awaited before the next is made, the first
    load that succeeds is kept: a failed load leaves the engine unset and
    open to a retry, and later calls do not load.  When the calls are all
    made before any of them is resumed, every one of them loads and
    assigns, and the engine that stays is that of the successful load that
    was resumed last, whichever call was made first. *)
Theorem initHashAB_calls_in_flight calls resumes es w :
  NoDup (map fst resumes) ->
  (forall c, c ∈ map fst resumes -> c ∈ map fst calls) ->
  (heap (init_calls es w).1 = heap w /\
   events (init_calls es w).1 = events w) /\
  wasmInstance (init_calls (one_after_another calls) w).1
  = match wasmInstance w with
    | Some inst => Some inst
    | None => first_loaded (map snd calls)
    end /\
  wasmInstance (init_calls (all_at_once (map fst calls) resumes) w).1
  = match wasmInstance w with
    | Some inst => Some inst
    | None => last_loaded (map snd resumes)
    end.
Proof.
  intros Hnd Hin. split; [apply (init_steps_frame es (w, []))|]. split.
  - unfold init_calls.
    destruct (init_one_after_another calls w) as (w' & Hrun & Hw').
    rewrite Hrun. exact Hw'.
  - unfold init_calls, all_at_once. rewrite fold_left_app, init_all_called.
    destruct (wasmInstance w) as [inst|] eqn:Hw.
    + rewrite init_none_resumed. exact Hw.
    + rewrite init_all_resumed; [rewrite Hw; by destruct (last_loaded _)|done|].
      intros c Hc. rewrite app_nil_r. apply list_elem_of_In, in_rev.
      rewrite rev_involutive. by apply list_elem_of_In, Hin.
Qed.

Lemma initHashAB_calls_in_flight_witness :
  wasmInstance
    (init_calls
       (one_after_another
          [(1, Return demo_instance); (2, Return demo_instance_other)])
       empty_world).1
  = Some demo_instance /\
  wasmInstance
    (init_calls
       (all_at_once [1; 2]
          [(1, Return demo_instance); (2, Return demo_instance_other)])
       empty_world).1
  = Some demo_instance_other /\
  wasmInstance
    (init_calls
       (all_at_once [1; 2]
          [(2, Return demo_instance_other); (1, Return demo_instance)])
       empty_world).1
  = Some demo_instance.
Proof.
  split; [|split].
  - destruct (initHashAB_calls_in_flight
                [(1, Return demo_instance); (2, Return demo_instance_other)]
                [] [] empty_world) as (_ & H & _).
    + constructor.
    + intros c Hc. by apply elem_of_nil in Hc.
    + exact H.
  - destruct (initHashAB_calls_in_flight
                [(1, Return demo_instance); (2, Return demo_instance_other)]
                [(1, Return demo_instance); (2, Return demo_instance_other)]
                [] empty_world) as (_ & _ & H).
    + apply (bool_decide_unpack _). vm_compute. exact I.
    + intros c Hc. exact Hc.
    + exact H.
  - destruct (initHashAB_calls_in_flight
                [(1, Return demo_instance); (2, Return demo_instance_other)]
                [(2, Return demo_instance_other); (1, Return demo_instance)]
                [] empty_world) as (_ & _ & H).
    + apply (bool_decide_unpack _). vm_compute. exact I.
    + intros c Hc. apply list_elem_of_In. apply list_elem_of_In in Hc.
      cbn in *. tauto.
    + exact H.
Defined.

(** * [calcHashAB] on its own *)

(** X5.  [calcHashAB] changes no typed array and never digests; what it returns
    is a new array of at most 57 bytes, and before [initHashAB] has
    succeeded it throws the not-initialized error and changes nothing at
    all. *)
Theorem calcHashAB_effects sha1Hash uuid w r w' :
  calcHashAB sha1Hash uuid w = (r, w') ->
  (forall l bs, heap w !! l = Some bs -> heap w' !! l = Some bs) /\
  (forall l, r = Return l ->
     heap w !! l = None /\
     exists sig, heap w' !! l = Some sig /\ length sig <= 57) /\
  (exists es, events w' = events w ++ es /\
              forall d, crypto_subtle_digest d ∉ es) /\
  (wasmInstance w = None -> r = Throw Error_not_initialized /\ w' = w).
Proof.
  intros Hrun.
  assert (Hwp : wp (calcHashAB sha1Hash uuid) w (fun r w' =>
    heap w ⊆ heap w' /\
    (exists es, events w' = events w ++ es /\
                forall d, crypto_subtle_digest d ∉ es) /\
    match r with
    | Return l => heap w !! l = None /\
                  exists sig, heap w' !! l = Some sig /\ length sig <= 57
    | Throw _ => heap w' = heap w
    end)).
  { apply wp_calcHashAB_any. intros; by repeat split. }
  destruct (wp_elim _ _ _ _ _ Hwp Hrun) as (Hsub & Hev & Hr).
  split; [|split; [|split]].
  - intros l bs Hl. by eapply lookup_weaken.
  - intros l ->. exact Hr.
  - exact Hev.
  - intros Hnone. rewrite calcHashAB_not_initialized in Hrun by done.
    by injection Hrun as <- <-.
Qed.

Lemma calcHashAB_effects_witness :
  (forall l bs,
     heap (demo_world (SHA1.digest []) demo_uuid) !! l = Some bs ->
     heap (calcHashAB 1%positive 2%positive
             (demo_world (SHA1.digest []) demo_uuid)).2 !! l = Some bs) /\
  (forall l,
     (calcHashAB 1%positive 2%positive
        (demo_world (SHA1.digest []) demo_uuid)).1 = Return l ->
     heap (demo_world (SHA1.digest []) demo_uuid) !! l = None /\
     exists sig,
       heap (calcHashAB 1%positive 2%positive
               (demo_world (SHA1.digest []) demo_uuid)).2 !! l = Some sig /\
       length sig <= 57) /\
  (exists es,
     events (calcHashAB 1%positive 2%positive
               (demo_world (SHA1.digest []) demo_uuid)).2
     = events (demo_world (SHA1.digest []) demo_uuid) ++ es /\
     forall d, crypto_subtle_digest d ∉ es) /\
  (wasmInstance (demo_world (SHA1.digest []) demo_uuid) = None ->
   (calcHashAB 1%positive 2%positive
      (demo_world (SHA1.digest []) demo_uuid)).1 = Throw Error_not_initialized /\
   (calcHashAB 1%positive 2%positive
      (demo_world (SHA1.digest []) demo_uuid)).2
   = demo_world (SHA1.digest []) demo_uuid).
Proof.
  apply (calcHashAB_effects 1%positive 2%positive
           (demo_world (SHA1.digest []) demo_uuid)).
  apply surjective_pairing.
Defined.

(** * More on [computeLocationsCBK] *)

(** The run up to the call of the signature engine: every block is
    digested, the digests are gathered in [allHashes], and that array is
    digested. *)
Lemma wp_computeLocationsCBK_digests src uuid bs w Q :
  heap w !! src = Some bs ->
  (forall wA allHashes masterSha1,
     heap w ⊆ heap wA ->
     heap w !! allHashes = None -> heap w !! masterSha1 = None ->
     allHashes <> masterSha1 ->
     heap wA !! allHashes = Some (all_hashes bs) ->
     heap wA !! masterSha1 = Some (SHA1.digest (all_hashes bs)) ->
     wasmInstance wA = wasmInstance w ->
     events wA
     = events w
       ++ block_digest_calls bs
            (seq 0 (Math_ceil_div (length bs) CBK_BLOCK_SIZE))
       ++ [crypto_subtle_digest (all_hashes bs)] ->
     wp (calcHashAB masterSha1 uuid ≫= fun sig =>
         let numBlocks := Math_ceil_div (length bs) CBK_BLOCK_SIZE in
         let cbkSize :=
           CBK_HEADER_SIZE + CBK_SHA1_SIZE + numBlocks * CBK_SHA1_SIZE in
         Uint8Array_new cbkSize ≫= fun cbk =>
         set cbk sig 0 ≫= fun _ =>
         set cbk masterSha1 CBK_HEADER_SIZE ≫= fun _ =>
         set cbk allHashes (CBK_HEADER_SIZE + CBK_SHA1_SIZE) ≫= fun _ =>
         read masterSha1 ≫= fun m =>
         slice sig 0 4 ≫= fun sig4 =>
         read sig4 ≫= fun s =>
         emit (console_log
                 ("[hashAB] Computed Locations.itdb.cbk: " ++ pretty cbkSize
                  ++ " bytes, " ++ pretty numBlocks
                  ++ " blocks, master SHA1: " ++ hex m ++ ", sig[0:4]: "
                  ++ hex s)) ≫= fun _ =>
         ret cbk) wA Q) ->
  wp (computeLocationsCBK src uuid) w Q.
Proof.
  intros Hsrc HQ.
  set (n := Math_ceil_div (length bs) CBK_BLOCK_SIZE).
  set (dg := fun j => SHA1.digest (block_input bs j)).
  unfold computeLocationsCBK.
  wp_step. eapply wp_length_of; [done|]. fold n.
  wp_step.
  eapply (wp_foldM_inv (hash_block src)
            (fun pre hs w' =>
               heap w ⊆ heap w' /\ wasmInstance w' = wasmInstance w /\
               events w' = events w ++ block_digest_calls bs pre /\
               Forall2 (fun l i => heap w' !! l = Some (dg i)) hs pre)
            _ (seq 0 n)) with (pre := []); [| |done|].
  - intros pre x suf hs w1 _ (Hsub & Hinst & Hev & Hall).
    eapply wp_hash_block_ok; [by eapply lookup_weaken|].
    intros w2 l Hsub2 Hl Hdg Hinst2 Hev2.
    split; [by etrans|]. split; [congruence|]. split.
    + rewrite Hev2, Hev. unfold block_digest_calls.
      by rewrite map_app, <- app_assoc.
    + apply Forall2_app; [|by constructor].
      eapply Forall2_impl; [exact Hall|].
      intros l0 i0 Hl0. exact (lookup_weaken _ _ _ _ Hl0 Hsub2).
  - intros hs wA (HsubA & HinstA & HevA & HallA).
    wp_step. apply wp_Uint8Array_new. cbn [heap wasmInstance events].
    intros aH HaH. wp_step.
    eapply (wp_foldM_inv (copy_hash aH hs)
              (fun pre _ w' =>
                 w' = {| heap := <[aH := concat (map dg pre)
                                         ++ replicate ((n - length pre) * 20) x00]>
                                   (heap wA);
                         wasmInstance := wasmInstance wA;
                         events := events wA |})
              _ (seq 0 n)) with (pre := []); [| |done|].
    + intros pre x suf [] w1 Hsplit ->.
      apply seq_split_index in Hsplit as (Hx & Hlt & Hpre).
      destruct (Forall2_lookup_r _ _ _ x x HallA) as (l & Hl & Hdg).
      { by apply lookup_seq. }
      unfold copy_hash. rewrite Hl.
      assert (l <> aH) by congruence.
      assert (Hclen : length (concat (map dg pre)) = x * 20).
      { rewrite concat_length_20; [rewrite length_map; lia|].
        apply Forall_forall. intros d Hd.
        apply list_elem_of_fmap in Hd as (j & -> & _). apply SHA1_digest_length. }
      eapply wp_set; cbn [heap wasmInstance events].
      { rewrite lookup_insert_ne by done. exact Hdg. }
      { apply lookup_insert_eq. }
      { unfold dg at 1. rewrite SHA1_digest_length, length_app, Hclen,
          length_replicate. unfold CBK_SHA1_SIZE. lia. }
      rewrite insert_insert_eq. f_equal. f_equal.
      clear Hdg Hclen Hx. subst pre.
      change [x] with [0 + x]. rewrite <- seq_S, !length_seq.
      by apply all_hashes_snoc_step.
    + intros [] w3 ->.
      rewrite length_seq, Nat.sub_diag.
      change (replicate (0 * 20) x00) with (@nil byte).
      rewrite app_nil_r.
      change (concat (map dg (seq 0 n))) with (all_hashes bs).
      wp_step. eapply wp_sha1; [heap_lookup|].
      cbn [heap wasmInstance events]. intros m Hm. fresh_ne Hm.
      apply HQ; cbn [heap wasmInstance events]; try done.
      * etrans; [exact HsubA|]. apply map_subseteq_spec. intros j v Hj.
        rewrite !lookup_insert_ne by congruence. done.
      * by eapply lookup_weaken_None.
      * by eapply lookup_weaken_None.
      * heap_lookup.
      * apply lookup_insert_eq.
      * rewrite HevA. by rewrite <- app_assoc.
    + by rewrite Nat.sub_0_r.
  - split; [done|]. split; [done|]. split; [by rewrite app_nil_r|constructor].
Qed.

Section undisturbed.
Variable others : schedule.
Hypothesis others_undisturbing : forall k, undisturbing (others k).
Hypothesis others_leave_engine_unset : forall k, leaves_engine_unset (others k).

Lemma wp_sha1_async_undisturbed k a bs w Q :
  heap w !! a = Some bs -> wasmInstance w = None ->
  (forall w' l,
     heap w ⊆ heap w' -> heap w !! l = None ->
     heap w' !! l = Some (SHA1.digest bs) ->
     wasmInstance w' = None ->
     events w' = events w ++ [crypto_subtle_digest bs] ->
     Q (Return l) w') ->
  wp (sha1_async (others k) a) w Q.
Proof.
  intros Ha Hi HQ. eapply wp_sha1_async; [done|].
  intros w1 l Hw1 Hl.
  destruct (others_undisturbing k
              {| heap := heap w; wasmInstance := wasmInstance w;
                 events := events w ++ [crypto_subtle_digest bs] |})
    as [Hsub Hev].
  rewrite <- Hw1 in Hsub, Hev. cbn [heap events] in Hsub, Hev.
  apply HQ; cbn [heap wasmInstance events].
  - etrans; [exact Hsub|]. by apply insert_subseteq.
  - by eapply lookup_weaken_None.
  - apply lookup_insert_eq.
  - rewrite Hw1. by apply others_leave_engine_unset.
  - done.
Qed.

Lemma wp_await_undisturbed k w Q :
  wasmInstance w = None ->
  (forall w',
     heap w ⊆ heap w' -> wasmInstance w' = None -> events w' = events w ->
     Q (Return tt) w') ->
  wp (await (others k)) w Q.
Proof.
  intros Hi HQ. apply wp_await.
  destruct (others_undisturbing k w) as [Hsub Hev].
  apply HQ; [done| |done]. by apply others_leave_engine_unset.
Qed.

Lemma wp_hash_block_async_ok src bs hs i w Q :
  heap w !! src = Some bs -> wasmInstance w = None ->
  (forall w' l,
     heap w ⊆ heap w' -> heap w !! l = None ->
     heap w' !! l = Some (SHA1.digest (block_input bs i)) ->
     wasmInstance w' = None ->
     events w' = events w ++ [crypto_subtle_digest (block_input bs i)] ->
     Q (Return (hs ++ [l])) w') ->
  wp (hash_block_async others src hs i) w Q.
Proof.
  intros Hsrc Hi HQ. unfold hash_block_async.
  wp_step. eapply wp_length_of; [done|].
  wp_step. eapply wp_slice; [done|]. cbn [heap wasmInstance events].
  intros block Hblock.
  set (b := ta_slice (i * CBK_BLOCK_SIZE)
              (Nat.min (i * CBK_BLOCK_SIZE + CBK_BLOCK_SIZE) (length bs)) bs).
  wp_step. eapply wp_length_of; [apply lookup_insert_eq|].
  wp_step. case_decide as Hshort.
  - wp_step. apply wp_Uint8Array_new. cbn [heap wasmInstance events].
    intros p Hp. apply lookup_insert_None in Hp as [Hp Hpb].
    wp_step. eapply wp_set; cbn [heap wasmInstance events].
    { rewrite lookup_insert_ne by done. apply lookup_insert_eq. }
    { apply lookup_insert_eq. }
    { rewrite length_replicate. lia. }
    cbn [heap wasmInstance events]. rewrite insert_insert_eq.
    wp_step. wp_step.
    eapply wp_sha1_async_undisturbed; [apply lookup_insert_eq|done|].
    cbn [heap wasmInstance events]. intros w1 l Hsub1 Hl Hdg1 Hi1 Hev1.
    apply lookup_insert_None in Hl as [Hl Hlp].
    apply lookup_insert_None in Hl as [Hl Hlb].
    wp_step. apply wp_await_undisturbed; [done|].
    intros w2 Hsub2 Hi2 Hev2. wp_step.
    apply HQ; try done.
    + etrans; [|exact Hsub2]. etrans; [|exact Hsub1].
      apply map_subseteq_spec. intros j v Hj.
      rewrite !lookup_insert_ne by congruence. done.
    + eapply lookup_weaken; [|exact Hsub2]. rewrite Hdg1.
      unfold block_input. fold b. by rewrite decide_True.
    + rewrite Hev2, Hev1. unfold block_input. fold b. by rewrite decide_True.
  - wp_step. wp_step.
    eapply wp_sha1_async_undisturbed; [apply lookup_insert_eq|done|].
    cbn [heap wasmInstance events]. intros w1 l Hsub1 Hl Hdg1 Hi1 Hev1.
    apply lookup_insert_None in Hl as [Hl Hlb].
    wp_step. apply wp_await_undisturbed; [done|].
    intros w2 Hsub2 Hi2 Hev2. wp_step.
    apply HQ; try done.
    + etrans; [|exact Hsub2]. etrans; [|exact Hsub1].
      apply map_subseteq_spec. intros j v Hj.
      rewrite !lookup_insert_ne by congruence. done.
    + eapply lookup_weaken; [|exact Hsub2]. rewrite Hdg1.
      unfold block_input. fold b. by rewrite decide_False.
    + rewrite Hev2, Hev1. unfold block_input. fold b. by rewrite decide_False.
Qed.

(** The second loop gathers the block digests in [allHashes]. *)
Lemma wp_copy_hashes bs hs aH wA Q :
  Forall2 (fun l i => heap wA !! l = Some (SHA1.digest (block_input bs i)))
    hs (seq 0 (Math_ceil_div (length bs) CBK_BLOCK_SIZE)) ->
  heap wA !! aH = None ->
  Q (Return tt)
    {| heap := <[aH := all_hashes bs]> (heap wA);
       wasmInstance := wasmInstance wA; events := events wA |} ->
  wp (foldM (copy_hash aH hs) tt
        (seq 0 (Math_ceil_div (length bs) CBK_BLOCK_SIZE)))
    {| heap := <[aH := replicate
                         (Math_ceil_div (length bs) CBK_BLOCK_SIZE
                          * CBK_SHA1_SIZE) x00]> (heap wA);
       wasmInstance := wasmInstance wA; events := events wA |} Q.
Proof.
  set (n := Math_ceil_div (length bs) CBK_BLOCK_SIZE).
  set (dg := fun j => SHA1.digest (block_input bs j)).
  intros HallA HaH HQ.
  eapply (wp_foldM_inv (copy_hash aH hs)
            (fun pre _ w' =>
               w' = {| heap := <[aH := concat (map dg pre)
                                       ++ replicate ((n - length pre) * 20) x00]>
                                 (heap wA);
                       wasmInstance := wasmInstance wA;
                       events := events wA |})
            _ (seq 0 n)) with (pre := []); [| |done|].
  - intros pre x suf [] w1 Hsplit ->.
    apply seq_split_index in Hsplit as (Hx & Hlt & Hpre).
    destruct (Forall2_lookup_r _ _ _ x x HallA) as (l & Hl & Hdg).
    { by apply lookup_seq. }
    unfold copy_hash. rewrite Hl.
    assert (l <> aH) by congruence.
    assert (Hclen : length (concat (map dg pre)) = x * 20).
    { rewrite concat_length_20; [rewrite length_map; lia|].
      apply Forall_forall. intros d Hd.
      apply list_elem_of_fmap in Hd as (j & -> & _). apply SHA1_digest_length. }
    eapply wp_set; cbn [heap wasmInstance events].
    { rewrite lookup_insert_ne by done. exact Hdg. }
    { apply lookup_insert_eq. }
    { rewrite SHA1_digest_length, length_app, Hclen,
        length_replicate. unfold CBK_SHA1_SIZE. lia. }
    rewrite insert_insert_eq. f_equal. f_equal.
    clear Hdg Hclen Hx. subst pre.
    change [x] with [0 + x]. rewrite <- seq_S, !length_seq.
    by apply all_hashes_snoc_step.
  - intros [] w3 ->.
    rewrite length_seq, Nat.sub_diag.
    change (replicate (0 * 20) x00) with (@nil byte).
    rewrite app_nil_r.
    change (concat (map dg (seq 0 n))) with (all_hashes bs).
    exact HQ.
  - cbn [length map concat app]. rewrite Nat.sub_0_r.
    unfold CBK_SHA1_SIZE. reflexivity.
Qed.

(** X6.  When the engine is unset at the call of [computeLocationsCBK] and
    still unset when the call gets to [calcHashAB] (no call of
    [initHashAB] is resumed with an instance during one of its awaits),
    the call has by then digested every block of the source and the
    concatenation of the digests, and only then throws the
    not-initialized error: no file is returned, the engine stays unset,
    and no typed array that existed is changed.  The rest of the program
    is taken to leave the arrays alone meanwhile and to keep off the
    console and the digest engine. *)
Theorem computeLocationsCBK_uninitialized src uuid bs w :
  heap w !! src = Some bs -> wasmInstance w = None ->
  exists w',
    computeLocationsCBK_async others src uuid w
    = (Throw Error_not_initialized, w') /\
    events w'
    = events w
      ++ block_digest_calls bs (seq 0 (Math_ceil_div (length bs) 1024))
      ++ [crypto_subtle_digest (all_hashes bs)] /\
    wasmInstance w' = None /\
    (forall l v, heap w !! l = Some v -> heap w' !! l = Some v).
Proof.
  intros Hsrc Hnone. apply wp_outcome.
  set (n := Math_ceil_div (length bs) CBK_BLOCK_SIZE).
  set (dg := fun j => SHA1.digest (block_input bs j)).
  unfold computeLocationsCBK_async.
  wp_step. eapply wp_length_of; [done|]. fold n.
  wp_step.
  eapply (wp_foldM_inv (hash_block_async others src)
            (fun pre hs w' =>
               heap w ⊆ heap w' /\ wasmInstance w' = None /\
               events w' = events w ++ block_digest_calls bs pre /\
               Forall2 (fun l i => heap w' !! l = Some (dg i)) hs pre)
            _ (seq 0 n)) with (pre := []).
  - intros pre x suf hs w1 _ (Hsub & Hinst & Hev & Hall).
    eapply wp_hash_block_async_ok; [by eapply lookup_weaken|done|].
    intros w2 l Hsub2 Hl Hdg Hinst2 Hev2.
    split; [by etrans|]. split; [done|]. split.
    + rewrite Hev2, Hev. unfold block_digest_calls.
      by rewrite map_app, <- app_assoc.
    + apply Forall2_app; [|by constructor].
      eapply Forall2_impl; [exact Hall|].
      intros l0 i0 Hl0. exact (lookup_weaken _ _ _ _ Hl0 Hsub2).
  - intros hs wA (HsubA & HinstA & HevA & HallA).
    wp_step. apply wp_Uint8Array_new. cbn [heap wasmInstance events].
    intros aH HaH. wp_step.
    apply (wp_copy_hashes bs hs aH wA); [exact HallA|exact HaH|].
    wp_step.
    eapply wp_sha1_async_undisturbed; [apply lookup_insert_eq|done|].
    cbn [heap wasmInstance events]. intros w1 m Hsub1 Hm Hdg1 Hi1 Hev1.
    wp_step. apply wp_await_undisturbed; [done|].
    intros w2 Hsub2 Hi2 Hev2.
    wp_step. unfold wp at 1.
    rewrite calcHashAB_not_initialized by done.
    cbn [fst snd]. split; [done|]. split; [|split; [done|]].
    + rewrite Hev2, Hev1, HevA. unfold CBK_BLOCK_SIZE in n. fold n.
      by rewrite <- app_assoc.
    + intros l v Hl. eapply lookup_weaken; [|exact Hsub2].
      eapply lookup_weaken; [|exact Hsub1].
      rewrite lookup_insert_ne.
      * by eapply lookup_weaken.
      * intros <-. eapply lookup_weaken in Hl; [|exact HsubA]. congruence.
  - done.
  - split; [done|]. split; [done|]. split; [by rewrite app_nil_r|constructor].
Qed.

End undisturbed.

Lemma computeLocationsCBK_uninitialized_witness :
  exists w',
    computeLocationsCBK_async (init_resumes_at 1 (Throw LoadError))
      1%positive 2%positive (cold_world (replicate 1025 x01) demo_uuid)
    = (Throw Error_not_initialized, w') /\
    events w'
    = events (cold_world (replicate 1025 x01) demo_uuid)
      ++ block_digest_calls (replicate 1025 x01)
           (seq 0 (Math_ceil_div (length (replicate 1025 x01)) 1024))
      ++ [crypto_subtle_digest (all_hashes (replicate 1025 x01))] /\
    wasmInstance w' = None /\
    (forall l v,
       heap (cold_world (replicate 1025 x01) demo_uuid) !! l = Some v ->
       heap w' !! l = Some v).
Proof.
  apply (computeLocationsCBK_uninitialized
           (init_resumes_at 1 (Throw LoadError))).
  - intros k w. unfold init_resumes_at. by case_decide.
  - intros k w Hw. unfold init_resumes_at. by case_decide.
  - reflexivity.
  - reflexivity.
Defined.

(** A run in which the call of [initHashAB] in flight is resumed with the
    instance during the second await: the checksum file is returned. *)
Example computeLocationsCBK_returns_when_init_resumes :
  exists cbk w',
    computeLocationsCBK_async (init_resumes_at 1 (Return demo_instance))
      1%positive 2%positive (cold_world [x01; x02; x03] demo_uuid)
    = (Return cbk, w') /\
    length <$> heap w' !! cbk = Some 97.
Proof. eexists _, _. split; vm_compute; reflexivity. Qed.

(** X7.  With the engine ready and honouring its contract, the checksum file
    for an 8-byte device id is, bit for bit, the 57-byte signature of the
    master digest, then the 20-byte master digest (the digest of the
    concatenated block digests), then the block digests in block order. *)
Theorem checksum_file_layout src uuid bs ub inst w :
  heap w !! src = Some bs -> heap w !! uuid = Some ub -> length ub = 8 ->
  wasmInstance w = Some inst -> SignatureEngine inst ->
  exists cbk w',
    computeLocationsCBK src uuid w = (Return cbk, w') /\
    heap w' !! cbk
    = Some (hashAB inst (SHA1.digest (all_hashes bs)) ub
            ++ SHA1.digest (all_hashes bs) ++ all_hashes bs) /\
    length (hashAB inst (SHA1.digest (all_hashes bs)) ub) = 57 /\
    length (SHA1.digest (all_hashes bs)) = 20 /\
    all_hashes bs
    = concat (map (fun i => SHA1.digest (block_input bs i))
                  (seq 0 (Math_ceil_div (length bs) 1024))).
Proof.
  intros Hsrc Hu Hlu Hi Hc.
  destruct (engine_run_contract inst inst (SHA1.digest (all_hashes bs)) ub Hc
              (same_engine_refl inst))
    as (inst1 & Hrun & _ & Hsig); [apply SHA1_digest_length|done|].
  destruct (computeLocationsCBK_ready src uuid bs ub inst inst1 _ w
              Hsrc Hu Hi Hrun) as (cbk & w' & Hr & Hc' & _).
  exists cbk, w'. split; [done|].
  rewrite cbk_file_layout in Hc' by done.
  split; [done|]. split; [done|]. split; [apply SHA1_digest_length|done].
Qed.

Lemma checksum_file_layout_witness :
  exists cbk w',
    computeLocationsCBK 1%positive 2%positive
      (demo_world (replicate 1025 x01) demo_uuid) = (Return cbk, w') /\
    heap w' !! cbk
    = Some (hashAB demo_instance
              (SHA1.digest (all_hashes (replicate 1025 x01))) demo_uuid
            ++ SHA1.digest (all_hashes (replicate 1025 x01))
            ++ all_hashes (replicate 1025 x01)) /\
    length (hashAB demo_instance
              (SHA1.digest (all_hashes (replicate 1025 x01))) demo_uuid) = 57 /\
    length (SHA1.digest (all_hashes (replicate 1025 x01))) = 20 /\
    all_hashes (replicate 1025 x01)
    = concat (map (fun i => SHA1.digest (block_input (replicate 1025 x01) i))
                  (seq 0 (Math_ceil_div (length (replicate 1025 x01)) 1024))).
Proof.
  apply (checksum_file_layout 1%positive 2%positive (replicate 1025 x01)
           demo_uuid demo_instance
           (demo_world (replicate 1025 x01) demo_uuid)).
  - reflexivity.
  - reflexivity.
  - reflexivity.
  - reflexivity.
  - exact demo_instance_contract.
Defined.

(** * What the signature of a container depends on *)

Lemma zeroed_scheme_ext bs bs' :
  length bs = length bs' ->
  (forall i, ~ in_zeroed_region i -> ~ (0x30 <= i < 0x32) ->
             bs !! i = bs' !! i) ->
  zeroed (set_scheme bs) = zeroed (set_scheme bs').
Proof.
  intros Hlen H. apply list_eq. intros i.
  rewrite !zeroed_lookup, !set_scheme_length, !set_scheme_lookup, Hlen.
  repeat case_decide; try done; try lia.
  destruct (decide (i < length bs')).
  - apply H; [tauto|lia].
  - rewrite !lookup_ge_None_2; [done|lia..].
Qed.

Lemma zeroed_outside bs i : ~ in_zeroed_region i -> bs !! i = zeroed bs !! i.
Proof.
  intros H. rewrite zeroed_lookup. rewrite decide_False; [done|].
  by intros [? _].
Qed.

Lemma zeroed_valid bs : valid_mhbd bs -> valid_mhbd (zeroed bs).
Proof.
  intros [Hlen Hm]. split; [by rewrite zeroed_length|]. rewrite <- Hm.
  apply list_eq. intros i. destruct (decide (i < 4)).
  - rewrite !lookup_take_lt by done. symmetry. apply zeroed_outside.
    unfold in_zeroed_region. lia.
  - by rewrite !lookup_take_ge by lia.
Qed.

(** X8.  The signature written into a container does not depend on what the
    container held in its scheme field, its device-id field, its two
    digest regions and its signature region, nor on what the engine's
    memory held before: two valid containers that agree everywhere else
    get the same 57 signature bytes for the same device id. *)
Theorem signature_ignores_header_fields
    data data' uuid uuid' bs bs' ub inst inst' w w' :
  heap w !! data = Some bs -> valid_mhbd bs -> heap w !! uuid = Some ub ->
  heap w' !! data' = Some bs' -> valid_mhbd bs' -> heap w' !! uuid' = Some ub ->
  length ub = 8 ->
  wasmInstance w = Some inst -> wasmInstance w' = Some inst' ->
  SignatureEngine inst -> same_engine inst inst' ->
  length bs = length bs' ->
  (forall i, ~ in_zeroed_region i -> ~ (0x30 <= i < 0x32) ->
             bs !! i = bs' !! i) ->
  exists w1 w1' b1 b1',
    recomputeITunesCDBHash data uuid w = (Return data, w1) /\
    recomputeITunesCDBHash data' uuid' w' = (Return data', w1') /\
    heap w1 !! data = Some b1 /\ heap w1' !! data' = Some b1' /\
    length (ta_slice 0xAB (0xAB + 57) b1) = 57 /\
    ta_slice 0xAB (0xAB + 57) b1 = ta_slice 0xAB (0xAB + 57) b1'.
Proof.
  intros Hd Hv Hu Hd' Hv' Hu' Hlu Hi Hi' Hc Hsame Hlen Hagree.
  pose proof Hv as [Hl _]. pose proof Hv' as [Hl' _].
  assert (Hne : uuid <> data).
  { intros ->. rewrite Hd in Hu. injection Hu as ->. lia. }
  assert (Hne' : uuid' <> data').
  { intros ->. rewrite Hd' in Hu'. injection Hu' as ->. lia. }
  pose proof (zeroed_scheme_ext bs bs' Hlen Hagree) as Hz.
  set (D := SHA1.digest (zeroed (set_scheme bs))) in *.
  destruct (engine_run_contract inst inst D ub Hc (same_engine_refl inst))
    as (inst1 & Hrun1 & _ & Hsig57); [apply SHA1_digest_length|done|].
  destruct (engine_run_contract inst inst' D ub Hc Hsame)
    as (inst1' & Hrun1' & _ & _); [apply SHA1_digest_length|done|].
  set (sig := hashAB inst D ub) in *.
  destruct (recompute_ready data uuid bs ub inst inst1 sig w)
    as (w1 & Hr1 & Hd1 & _); [done..|].
  destruct (recompute_ready data' uuid' bs' ub inst' inst1' sig w')
    as (w1' & Hr1' & Hd1' & _); [done..| |].
  { by rewrite <- Hz. }
  eexists w1, w1', _, _. split; [done|]. split; [done|].
  split; [done|]. split; [done|].
  rewrite !patched_signature by (done || lia). done.
Qed.

Lemma signature_ignores_header_fields_witness :
  exists w1 w1' b1 b1',
    recomputeITunesCDBHash 1%positive 2%positive
      (demo_world demo_mhbd demo_uuid) = (Return 1%positive, w1) /\
    recomputeITunesCDBHash 1%positive 2%positive
      (demo_world demo_mhbd_blank demo_uuid) = (Return 1%positive, w1') /\
    heap w1 !! 1%positive = Some b1 /\ heap w1' !! 1%positive = Some b1' /\
    length (ta_slice 0xAB (0xAB + 57) b1) = 57 /\
    ta_slice 0xAB (0xAB + 57) b1 = ta_slice 0xAB (0xAB + 57) b1'.
Proof.
  apply (signature_ignores_header_fields 1%positive 1%positive
           2%positive 2%positive demo_mhbd demo_mhbd_blank demo_uuid
           demo_instance demo_instance
           (demo_world demo_mhbd demo_uuid)
           (demo_world demo_mhbd_blank demo_uuid)).
  - reflexivity.
  - split; [vm_compute; lia | reflexivity].
  - reflexivity.
  - reflexivity.
  - split; [vm_compute; lia | reflexivity].
  - reflexivity.
  - reflexivity.
  - reflexivity.
  - reflexivity.
  - exact demo_instance_contract.
  - exact (same_engine_refl demo_instance).
  - reflexivity.
  - intros i Hi _. exact (zeroed_outside demo_mhbd i Hi).
Defined.

Lemma list_inserts_overwrite (k k' l : list byte) i :
  length k = length k' ->
  list_inserts i k (list_inserts i k' l) = list_inserts i k l.
Proof.
  intros Hlen. apply list_eq. intros j.
  rewrite !list_inserts_lookup, !length_inserts, Hlen.
  repeat case_decide; try done; lia.
Qed.

(** X9.  Signing again for another device overwrites the signature cleanly:
    patching a container for device A and then for device B leaves the
    same container bytes as patching the original for device B alone. *)
Theorem resign_for_other_device data uuidA uuidB bs ua ub inst w :
  heap w !! data = Some bs -> valid_mhbd bs ->
  heap w !! uuidA = Some ua -> heap w !! uuidB = Some ub ->
  length ua = 8 -> length ub = 8 ->
  wasmInstance w = Some inst -> SignatureEngine inst ->
  exists w1 w2 wB b,
    recomputeITunesCDBHash data uuidA w = (Return data, w1) /\
    recomputeITunesCDBHash data uuidB w1 = (Return data, w2) /\
    recomputeITunesCDBHash data uuidB w = (Return data, wB) /\
    heap w2 !! data = Some b /\ heap wB !! data = Some b.
Proof.
  intros Hd Hv HuA HuB HlA HlB Hi Hc. pose proof Hv as [Hlen Hmagic].
  assert (HneA : uuidA <> data).
  { intros ->. rewrite Hd in HuA. injection HuA as ->. lia. }
  assert (HneB : uuidB <> data).
  { intros ->. rewrite Hd in HuB. injection HuB as ->. lia. }
  set (D := SHA1.digest (zeroed (set_scheme bs))).
  destruct (engine_run_contract inst inst D ua Hc (same_engine_refl inst))
    as (inst1 & HrunA & Hsame1 & HsigA); [apply SHA1_digest_length|done|].
  destruct (engine_run_contract inst inst D ub Hc (same_engine_refl inst))
    as (instB & HrunB & _ & HsigB); [apply SHA1_digest_length|done|].
  destruct (engine_run_contract inst inst1 D ub Hc Hsame1)
    as (inst2 & HrunB1 & _ & _); [apply SHA1_digest_length|done|].
  set (sigA := hashAB inst D ua) in *. set (sigB := hashAB inst D ub) in *.
  destruct (recompute_ready data uuidA bs ua inst inst1 sigA w)
    as (w1 & Hr1 & Hd1 & _ & Hi1); [done..|].
  destruct (recompute_ready data uuidB bs ub inst instB sigB w)
    as (wB & HrB & HdB & _); [done..|].
  destruct (recompute_outcome _ _ _ _ _ _ Hd Hv Hr1) as (Hframe & _).
  set (X := list_inserts MHBD_HASHAB_OFFSET sigA (set_scheme bs)) in *.
  assert (HvX : valid_mhbd X) by (apply patched_valid; [done|lia|done]).
  assert (HzX : zeroed (set_scheme X) = zeroed (set_scheme bs)).
  { unfold X. rewrite patched_set_scheme by (done || lia).
    apply patched_zeroed; [done|lia]. }
  destruct (recompute_ready data uuidB X ub inst1 inst2 sigB w1)
    as (w2 & Hr2 & Hd2 & _); [done|done|by apply Hframe|done|done| |].
  { by rewrite HzX. }
  exists w1, w2, wB, (list_inserts MHBD_HASHAB_OFFSET sigB (set_scheme bs)).
  split; [done|]. split; [done|]. split; [done|]. split; [|done].
  rewrite Hd2. f_equal. unfold X.
  rewrite patched_set_scheme by (done || lia).
  apply list_inserts_overwrite. lia.
Qed.

Lemma resign_for_other_device_witness :
  exists w1 w2 wB b,
    recomputeITunesCDBHash 1%positive 2%positive demo_world_two
    = (Return 1%positive, w1) /\
    recomputeITunesCDBHash 1%positive 3%positive w1 = (Return 1%positive, w2) /\
    recomputeITunesCDBHash 1%positive 3%positive demo_world_two
    = (Return 1%positive, wB) /\
    heap w2 !! 1%positive = Some b /\ heap wB !! 1%positive = Some b.
Proof.
  apply (resign_for_other_device 1%positive 2%positive 3%positive demo_mhbd
           demo_uuid demo_uuid_other demo_instance demo_world_two).
  - reflexivity.
  - split; [vm_compute; lia | reflexivity].
  - reflexivity.
  - reflexivity.
  - reflexivity.
  - reflexivity.
  - reflexivity.
  - exact demo_instance_contract.
Defined.

(** * The application state store *)

Module AppStateFacts.
Import AppState.

Section store.
Variable inherited : string -> value.

Lemma run_snoc ops o a :
  run inherited (ops ++ [o]) a = step inherited (run inherited ops a) o.
Proof. unfold run. by rewrite fold_left_app. Qed.

Lemma subscribed_snoc fn ops o :
  subscribed fn (ops ++ [o])
  = match o with
    | Call_subscribe fn' => if decide (fn' = fn) then true else subscribed fn ops
    | Call_unsubscribe fn' =>
        if decide (fn' = fn) then false else subscribed fn ops
    | Call_set _ _ => subscribed fn ops
    end.
Proof. unfold subscribed. by rewrite fold_left_app. Qed.

Lemma last_set_snoc k ops o :
  last_set k (ops ++ [o])
  = match o with
    | Call_set k' v => if decide (k' = k) then Some v else last_set k ops
    | _ => last_set k ops
    end.
Proof. unfold last_set. by rewrite fold_left_app. Qed.

(** X10.  The last write wins: after any sequence of calls, none of which sets
    [__proto__], a key reads as the value of the last [set] of that key,
    and as before when it was never set; subscribing and unsubscribing
    change no value. *)
Theorem get_after_calls k ops a :
  forallb ordinary_call ops = true ->
  get inherited k (run inherited ops a)
  = match last_set k ops with
    | Some v => v
    | None => get inherited k a
    end.
Proof.
  intros _. induction ops as [|o ops IH] using rev_ind; [done|].
  rewrite run_snoc, last_set_snoc.
  destruct o as [k' v|fn|fn]; cbn [step]; try exact IH.
  unfold get, set. cbn [state]. case_decide as Hk.
  - subst k'. by rewrite lookup_insert_eq.
  - rewrite lookup_insert_ne by done. exact IH.
Qed.

(** X11.  Setting a key to the value it already holds as an own property changes
    nothing and notifies nobody, unless the value is NaN: NaN is never
    [===] to itself, so every [set] of NaN over NaN notifies every
    listener. *)
Theorem set_same_value k v a :
  state a !! k = Some v ->
  (v <> VNaN -> set inherited k v a = a) /\
  (v = VNaN ->
   notified (set inherited k v a)
   = notified a
     ++ map (fun fn => {| to := fn; key := k; newValue := VNaN;
                          oldValue := VNaN |}) (listeners a)).
Proof.
  intros Hk. split.
  - intros Hv. unfold set, get. rewrite Hk.
    assert (strict_equal v v = true) as ->.
    { destruct v; try done; unfold strict_equal; by rewrite bool_decide_eq_true. }
    rewrite insert_id by done. by destruct a.
  - intros ->. unfold set, get. rewrite Hk. done.
Qed.

Lemma listeners_after_calls ops arrays init :
  NoDup (listeners (run inherited ops (createAppState arrays init))) /\
  forall fn,
    fn ∈ listeners (run inherited ops (createAppState arrays init))
    <-> subscribed fn ops = true.
Proof.
  induction ops as [|o ops [IHnd IH]] using rev_ind.
  - split; [constructor|]. intros fn. cbn. split; [|done].
    intros H. by apply elem_of_nil in H.
  - rewrite run_snoc. set (a := run inherited ops (createAppState arrays init)) in *.
    destruct o as [k v|fn'|fn']; cbn [step set subscribe unsubscribe listeners].
    + split; [done|]. intros fn. by rewrite subscribed_snoc.
    + split.
      * case_decide; [done|]. apply NoDup_app. split; [done|].
        split; [|apply NoDup_singleton].
        intros x Hx Hx'. apply list_elem_of_singleton in Hx'. by subst.
      * intros fn. rewrite subscribed_snoc.
        destruct (decide (fn' = fn)) as [->|Hne].
        -- split; [done|]. intros _. case_decide; [done|].
           apply elem_of_app. right. by apply list_elem_of_singleton.
        -- rewrite <- IH. case_decide; [done|]. rewrite elem_of_app.
           rewrite list_elem_of_singleton. intuition congruence.
    + split; [by apply NoDup_filter|].
      intros fn. rewrite subscribed_snoc, list_elem_of_filter.
      destruct (decide (fn' = fn)) as [->|Hne]; [intuition congruence|].
      rewrite <- IH. intuition congruence.
Qed.

(** X12.  However often and in whatever order listeners were subscribed and
    unsubscribed (no call having set [__proto__]), a [set] of another key
    than [__proto__] that changes a value calls exactly the listeners
    whose last call was a subscription, each of them once, with the key,
    the new and the old value; a [set] that does not change the value
    calls nobody. *)
Theorem set_notifies_subscribed_once ops arrays init k v :
  forallb ordinary_call ops = true -> ordinary_key k = true ->
  let a := run inherited ops (createAppState arrays init) in
  exists new,
    notified (set inherited k v a) = notified a ++ new /\
    NoDup (map to new) /\
    (forall n, n ∈ new ->
       subscribed (to n) ops = true /\ key n = k /\ newValue n = v /\
       oldValue n = get inherited k a) /\
    (strict_equal (get inherited k a) v = false ->
     forall fn, subscribed fn ops = true -> fn ∈ map to new) /\
    (strict_equal (get inherited k a) v = true -> new = []).
Proof.
  intros _ _ a. destruct (listeners_after_calls ops arrays init) as [Hnd Hin].
  fold a in Hnd, Hin.
  unfold set. cbn [notified].
  destruct (strict_equal (get inherited k a) v) eqn:Heq.
  - exists []. rewrite app_nil_r. split; [done|]. split; [constructor|].
    split; [intros n Hn; by apply elem_of_nil in Hn|]. by split.
  - eexists. split; [done|]. rewrite map_map. cbn [to]. rewrite map_id.
    split; [done|]. split; [|split; [|done]].
    + intros n Hn. apply list_elem_of_fmap in Hn as (fn & -> & Hfn).
      cbn. by rewrite <- Hin.
    + intros _ fn Hfn. by apply Hin.
Qed.

(** X13.  A key given in [initialState] reads as given there, whatever the
    defaults say; a key not given reads as its default, the three default
    arrays being three different objects; any other key reads as what a
    plain object inherits.  No listener is subscribed. *)
Theorem createAppState_defaults arrays init :
  let a := createAppState arrays init in
  (forall k v, init !! k = Some v -> get inherited k a = v) /\
  (init !! "ipodHandle"%string = None -> get inherited "ipodHandle" a = VNull) /\
  (init !! "isConnected"%string = None ->
   get inherited "isConnected" a = VBool false) /\
  (init !! "currentPlaylistIndex"%string = None ->
   get inherited "currentPlaylistIndex" a = VNumber (-1)) /\
  (init !! "wasmReady"%string = None ->
   get inherited "wasmReady" a = VBool false) /\
  (init !! "tracks"%string = None -> init !! "playlists"%string = None ->
   init !! "pendingUploads"%string = None ->
   exists t p u,
     get inherited "tracks" a = VObject t /\
     get inherited "playlists" a = VObject p /\
     get inherited "pendingUploads" a = VObject u /\
     t <> p /\ t <> u /\ p <> u) /\
  (forall k, init !! k = None -> defaults arrays !! k = None ->
             get inherited k a = inherited k) /\
  listeners a = [].
Proof.
  intros a. unfold a, get, createAppState. cbn [state listeners].
  split; [|split; [|split; [|split; [|split; [|split; [|split]]]]]].
  - intros k v Hk. by rewrite (lookup_union_Some_l _ _ _ _ Hk).
  - intros H. by rewrite lookup_union_r.
  - intros H. by rewrite lookup_union_r.
  - intros H. by rewrite lookup_union_r.
  - intros H. by rewrite lookup_union_r.
  - intros Ht Hp Hu. exists arrays, (arrays + 1)%positive, (arrays + 2)%positive.
    rewrite !lookup_union_r by done.
    split; [done|]. split; [done|]. split; [done|]. lia.
  - intros k Hk Hd. rewrite lookup_union_r by done. by rewrite Hd.
  - done.
Qed.

End store.

Lemma get_after_calls_witness :
  get no_inherited "wasmReady"
    (run no_inherited
       [Call_subscribe 1%positive; Call_set "wasmReady" (VBool true);
        Call_set "tracks" (VObject 20%positive); Call_unsubscribe 1%positive]
       (createAppState 10%positive ∅))
  = VBool true.
Proof.
  exact (get_after_calls no_inherited "wasmReady"
           [Call_subscribe 1%positive; Call_set "wasmReady" (VBool true);
            Call_set "tracks" (VObject 20%positive);
            Call_unsubscribe 1%positive]
           (createAppState 10%positive ∅) eq_refl).
Defined.

Lemma set_same_value_witness :
  set no_inherited "currentPlaylistIndex" (VNumber (-1))
    (subscribe 1%positive (createAppState 10%positive ∅))
  = subscribe 1%positive (createAppState 10%positive ∅) /\
  notified
    (set no_inherited "currentPlaylistIndex" VNaN
       (set no_inherited "currentPlaylistIndex" VNaN
          (subscribe 1%positive (createAppState 10%positive ∅))))
  = notified
      (set no_inherited "currentPlaylistIndex" VNaN
         (subscribe 1%positive (createAppState 10%positive ∅)))
    ++ [{| to := 1%positive; key := "currentPlaylistIndex";
           newValue := VNaN; oldValue := VNaN |}].
Proof.
  split.
  - destruct (set_same_value no_inherited "currentPlaylistIndex" (VNumber (-1))
                (subscribe 1%positive (createAppState 10%positive ∅)))
      as [H _]; [reflexivity|].
    apply H. discriminate.
  - destruct (set_same_value no_inherited "currentPlaylistIndex" VNaN
                (set no_inherited "currentPlaylistIndex" VNaN
                   (subscribe 1%positive (createAppState 10%positive ∅))))
      as [_ H]; [reflexivity|].
    exact (H eq_refl).
Defined.

Lemma set_notifies_subscribed_once_witness :
  exists new,
    notified
      (set no_inherited "isConnected" (VBool true)
         (run no_inherited
            [Call_subscribe 1%positive; Call_subscribe 2%positive;
             Call_unsubscribe 1%positive; Call_subscribe 2%positive]
            (createAppState 10%positive ∅)))
    = notified
        (run no_inherited
           [Call_subscribe 1%positive; Call_subscribe 2%positive;
            Call_unsubscribe 1%positive; Call_subscribe 2%positive]
           (createAppState 10%positive ∅))
      ++ new /\
    map to new = [2%positive].
Proof.
  destruct (set_notifies_subscribed_once no_inherited
              [Call_subscribe 1%positive; Call_subscribe 2%positive;
               Call_unsubscribe 1%positive; Call_subscribe 2%positive]
              10%positive ∅ "isConnected" (VBool true) eq_refl eq_refl)
    as (new & Hnew & _).
  exists new. split; [exact Hnew|].
  apply app_inv_head in Hnew. by subst new.
Defined.

End AppStateFacts.

(** * The selection of rows in the track table *)

Module TrackSelectionFacts.
Import AppState TrackSelection.

Lemma Set_add_fold (l acc : list value) :
  NoDup acc ->
  NoDup (fold_left (fun s x => Set_add x s) l acc) /\
  forall x, x ∈ fold_left (fun s x => Set_add x s) l acc <-> x ∈ acc \/ x ∈ l.
Proof.
  revert acc. induction l as [|y l IH]; intros acc Hnd.
  - split; [done|]. intros x. rewrite elem_of_nil. tauto.
  - cbn [fold_left]. destruct (IH (Set_add y acc)) as [IH1 IH2].
    { unfold Set_add. case_decide; [done|]. apply NoDup_app.
      split; [done|]. split; [|apply NoDup_singleton].
      intros x Hx Hx'. apply list_elem_of_singleton in Hx'. by subst. }
    split; [done|]. intros x. rewrite IH2, elem_of_cons. unfold Set_add.
    case_decide.
    + split; [tauto|]. intros [?|[->|?]]; tauto.
    + rewrite elem_of_app, list_elem_of_singleton. tauto.
Qed.

Lemma Set_of_NoDup l : NoDup (Set_of l).
Proof. apply Set_add_fold. constructor. Qed.

Lemma Set_of_elem l x : x ∈ Set_of l <-> x ∈ l.
Proof.
  unfold Set_of. destruct (Set_add_fold l []) as [_ H]; [constructor|].
  rewrite H, elem_of_nil. tauto.
Qed.

Lemma Set_add_fold_id (l acc : list value) :
  NoDup (acc ++ l) -> fold_left (fun s x => Set_add x s) l acc = acc ++ l.
Proof.
  revert acc. induction l as [|y l IH]; intros acc Hnd.
  - by rewrite app_nil_r.
  - cbn [fold_left]. unfold Set_add at 2.
    apply NoDup_app in Hnd as (Hacc & Hdisj & Hl).
    rewrite decide_False.
    2:{ intros Hy. apply (Hdisj y Hy). by left. }
    rewrite IH; [by rewrite <- app_assoc|].
    rewrite <- app_assoc. apply NoDup_app. split; [done|]. split; [|done].
    exact Hdisj.
Qed.

Lemma Set_of_id l : NoDup l -> Set_of l = l.
Proof. intros H. unfold Set_of. by rewrite Set_add_fold_id. Qed.

Lemma filter_finite_id (l : list value) :
  Forall (fun n => isFinite n = true) l ->
  filter (fun n => isFinite n = true) l = l.
Proof.
  induction 1 as [|x l Hx _ IH]; [done|].
  rewrite filter_cons, decide_True by done. by rewrite IH.
Qed.

Lemma finite_filter (l : list value) :
  Forall (fun n => isFinite n = true) (filter (fun n => isFinite n = true) l).
Proof. apply Forall_forall. intros x Hx. by apply list_elem_of_filter in Hx as [? _]. Qed.

Lemma Set_of_finite l :
  Forall (fun n => isFinite n = true) l ->
  Forall (fun n => isFinite n = true) (Set_of l).
Proof.
  rewrite !Forall_forall. intros H x Hx. apply H. by apply Set_of_elem.
Qed.

(** What [setSelectedTrackIds] leaves: the different finite numbers of its
    argument, in the order of their first occurrence, and the table in
    agreement with them. *)
Lemma setSelectedTrackIds_spec ids st :
  let st' := setSelectedTrackIds ids st in
  selectedTrackIds st'
  = Some (Set_of (filter (fun n => isFinite n = true) ids)) /\
  anchorTrackId st' = anchorTrackId st /\
  logged st' = logged st /\
  in_sync st'.
Proof.
  set (u := Set_of (filter (fun n => isFinite n = true) ids)).
  assert (Hnd : NoDup u) by apply Set_of_NoDup.
  assert (Hfin : Forall (fun n => isFinite n = true) u)
    by apply Set_of_finite, finite_filter.
  cbn zeta. unfold setSelectedTrackIds, applySelectionToDom. fold u.
  cbn [tbody selectedTrackIds anchorTrackId logged].
  destruct (tbody st) as [rows|] eqn:Hrows;
    cbn [tbody selectedTrackIds anchorTrackId logged].
  - split; [done|]. split; [done|]. split; [done|].
    exists u. split; [done|]. split; [done|]. split; [done|].
    intros rows' [= <-]. apply Forall_forall. intros r Hr.
    apply list_elem_of_fmap in Hr as (r0 & -> & _).
    cbn [selected]. unfold getSelectedTrackIds. cbn [selectedTrackIds].
    rewrite filter_finite_id, Set_of_id by done.
    change (row_number {| data_track_id := data_track_id r0;
                          selected := _ |}) with (row_number r0).
    rewrite andb_true_iff, bool_decide_eq_true. split; [tauto|].
    intros Hin. split; [|done].
    rewrite Forall_forall in Hfin. by apply Hfin.
  - split; [done|]. split; [done|]. split; [done|].
    exists u. split; [done|]. split; [done|]. split; [done|].
    intros rows' H. discriminate H.
Qed.

Lemma strict_equal_true a b : strict_equal a b = true -> a = b.
Proof.
  destruct a, b; unfold strict_equal; try done;
    by intros ?%bool_decide_eq_true.
Qed.

Lemma indexOf_lookup x l i : indexOf x l = Some i -> l !! i = Some x.
Proof.
  revert i. induction l as [|y l IH]; intros i; [done|]. cbn [indexOf].
  destruct (strict_equal y x) eqn:E.
  - intros [= <-]. by rewrite (strict_equal_true _ _ E).
  - destruct (indexOf x l) as [j|]; [|done]. intros [= <-]. by apply IH.
Qed.

Lemma elem_of_take_drop (l : list value) s n x :
  x ∈ take n (drop s l) <-> exists i, s <= i < s + n /\ l !! i = Some x.
Proof.
  rewrite list_elem_of_lookup. split.
  - intros [j Hj]. destruct (decide (j < n)) as [Hlt|Hge].
    + rewrite lookup_take_lt, lookup_drop in Hj by done.
      exists (s + j). split; [lia|done].
    + rewrite lookup_take_ge in Hj by lia. done.
  - intros (i & Hi & Hx). exists (i - s).
    rewrite lookup_take_lt, lookup_drop by lia.
    by replace (s + (i - s)) with i by lia.
Qed.

Lemma visible_finite st :
  Forall (fun n => isFinite n = true) (getVisibleTrackIds st).
Proof.
  unfold getVisibleTrackIds. destruct (tbody st); [apply finite_filter|constructor].
Qed.

Lemma selected_finite st :
  Forall (fun n => isFinite n = true) (getSelectedTrackIds st).
Proof.
  unfold getSelectedTrackIds.
  destruct (selectedTrackIds st); [apply finite_filter|constructor].
Qed.

Lemma selectable_finite v : isSelectableTrackId v = true -> isFinite v = true.
Proof. by destruct v. Qed.

(** X14.  Every operation on the selection either leaves it as it is or leaves
    it in agreement with the table: the selected ids are different finite
    numbers and exactly the rows with one of these numbers carry the class
    [selected]. *)
Theorem operations_keep_selection_in_sync st :
  (forall e, handleRowClick e st = st \/ in_sync (handleRowClick e st)) /\
  (forall id,
     ensureTrackSelected id st = st \/ in_sync (ensureTrackSelected id st)) /\
  (forall ids, in_sync (setSelectedTrackIds ids st)) /\
  in_sync (clearSelection st) /\
  (getVisibleTrackIds st = [] \/ in_sync (selectAllVisible st)).
Proof.
  split; [|split; [|split; [|split]]].
  - intros e. unfold handleRowClick.
    destruct (on_control e); [by left|].
    destruct (row e) as [id|]; [|by left].
    destruct (isSelectableTrackId id); [|by left]. cbn [negb].
    right. repeat first [ apply setSelectedTrackIds_spec
                        | case_match ].
  - intros id. unfold ensureTrackSelected.
    destruct (isSelectableTrackId id); [|by left].
    case_decide; [by left|]. right. apply setSelectedTrackIds_spec.
  - intros ids. apply setSelectedTrackIds_spec.
  - apply setSelectedTrackIds_spec.
  - unfold selectAllVisible. destruct (getVisibleTrackIds st); [by left|].
    right. apply setSelectedTrackIds_spec.
Qed.

(** X15.  How [setSelectedTrackIds] marks the table: no row is added, removed or
    renumbered; a row with a [data-track-id] gets the class [selected]
    exactly when its number is finite and among the ids given, and a row
    without the attribute, whose number reads as 0, exactly when 0 is among
    them. *)
Theorem setSelectedTrackIds_marks_rows ids st rows :
  tbody st = Some rows ->
  exists rows',
    tbody (setSelectedTrackIds ids st) = Some rows' /\
    length rows' = length rows /\
    forall i r, rows !! i = Some r ->
      exists r',
        rows' !! i = Some r' /\
        data_track_id r' = data_track_id r /\
        (selected r' = true <->
         match data_track_id r with
         | Some v => isFinite v = true /\ v ∈ ids
         | None => VNumber 0 ∈ ids
         end).
Proof.
  intros Hrows. unfold setSelectedTrackIds, applySelectionToDom.
  cbn [tbody selectedTrackIds anchorTrackId logged]. rewrite Hrows.
  cbn [tbody]. eexists. split; [done|]. split; [by rewrite length_map|].
  intros i r Hr. eexists. split; [by rewrite list_lookup_fmap, Hr|].
  cbn [data_track_id selected]. split; [done|].
  unfold getSelectedTrackIds. cbn [selectedTrackIds].
  rewrite filter_finite_id by apply Set_of_finite, finite_filter.
  rewrite andb_true_iff, bool_decide_eq_true, !Set_of_elem,
    list_elem_of_filter.
  unfold row_number. destruct (data_track_id r) as [v|]; [tauto|].
  cbn [isFinite]. tauto.
Qed.

Lemma setSelectedTrackIds_marks_rows_witness :
  exists rows',
    tbody (setSelectedTrackIds [VNumber 0; VNumber 13; VNaN] demo_selection)
    = Some rows' /\
    length rows' = length demo_rows /\
    forall i r, demo_rows !! i = Some r ->
      exists r',
        rows' !! i = Some r' /\
        data_track_id r' = data_track_id r /\
        (selected r' = true <->
         match data_track_id r with
         | Some v => isFinite v = true /\ v ∈ [VNumber 0; VNumber 13; VNaN]
         | None => VNumber 0 ∈ [VNumber 0; VNumber 13; VNaN]
         end).
Proof.
  apply (setSelectedTrackIds_marks_rows [VNumber 0; VNumber 13; VNaN]
           demo_selection demo_rows).
  reflexivity.
Defined.

(** X16.  A click on a button, link or form control inside a row, a click
    outside any row with a [data-track-id], and a click on a row whose
    number is NaN or negative change nothing at all. *)
Theorem ignored_clicks_change_nothing e st :
  on_control e = true \/ row e = None \/
  (exists id, row e = Some id /\ isSelectableTrackId id = false) ->
  handleRowClick e st = st.
Proof.
  unfold handleRowClick. intros [H|[H|(id & H & Hid)]].
  - by rewrite H.
  - rewrite H. by destruct (on_control e).
  - rewrite H, Hid. by destruct (on_control e).
Qed.

Lemma ignored_clicks_change_nothing_witness :
  handleRowClick (plain_click (-1)) demo_selection = demo_selection.
Proof.
  apply (ignored_clicks_change_nothing (plain_click (-1)) demo_selection).
  right. right. exists (VNumber (-1)). split; reflexivity.
Defined.

(** X17.  A click without modifier keys on a selectable row replaces the
    selection by that row and makes it the anchor, whatever was selected
    before. *)
Theorem plain_click_selects_only_clicked e st id :
  on_control e = false -> row e = Some id ->
  isSelectableTrackId id = true ->
  shiftKey e = false -> metaKey e = false -> ctrlKey e = false ->
  selectedTrackIds (handleRowClick e st) = Some [id] /\
  anchorTrackId (handleRowClick e st) = id /\
  in_sync (handleRowClick e st).
Proof.
  intros Hc Hr Hs Hshift Hm Hctrl. unfold handleRowClick.
  rewrite Hc, Hr, Hs, Hshift, Hm, Hctrl. cbn [negb orb].
  destruct (setSelectedTrackIds_spec [id] (set_anchor id st))
    as (Hsel & Hanchor & _ & Hsync).
  split; [|split; [done|done]].
  rewrite Hsel. rewrite filter_cons, decide_True by by apply selectable_finite.
  done.
Qed.

Lemma plain_click_selects_only_clicked_witness :
  selectedTrackIds (handleRowClick (plain_click 12) demo_selection)
  = Some [VNumber 12] /\
  anchorTrackId (handleRowClick (plain_click 12) demo_selection) = VNumber 12 /\
  in_sync (handleRowClick (plain_click 12) demo_selection).
Proof.
  apply (plain_click_selects_only_clicked (plain_click 12) demo_selection
           (VNumber 12)); reflexivity.
Defined.

(** X18.  A click with Ctrl or Meta (and without Shift) on a selectable row
    toggles that row and nothing else: the row is selected afterwards
    exactly when it was not before, every other id is selected afterwards
    exactly when it was before, and the row becomes the anchor. *)
Theorem ctrl_click_toggles e st id :
  on_control e = false -> row e = Some id ->
  isSelectableTrackId id = true ->
  shiftKey e = false -> metaKey e || ctrlKey e = true ->
  exists ids,
    selectedTrackIds (handleRowClick e st) = Some ids /\
    (id ∈ ids <-> id ∉ getSelectedTrackIds st) /\
    (forall x, x <> id -> x ∈ ids <-> x ∈ getSelectedTrackIds st) /\
    anchorTrackId (handleRowClick e st) = id /\
    in_sync (handleRowClick e st).
Proof.
  intros Hc Hr Hs Hshift Hmc. unfold handleRowClick.
  rewrite Hc, Hr, Hs, Hshift, Hmc. cbn [negb].
  pose proof (selected_finite st) as Hfin.
  set (cur := getSelectedTrackIds st) in *.
  match goal with
  | |- context [setSelectedTrackIds ?l ?s] =>
      destruct (setSelectedTrackIds_spec l s) as (Hsel & Hanchor & _ & Hsync)
  end.
  eexists. split; [exact Hsel|]. split; [|split; [|split; [done|done]]].
  - rewrite Set_of_elem, list_elem_of_filter. case_decide as Hin.
    + unfold Set_delete. rewrite list_elem_of_filter.
      rewrite Set_of_elem in Hin. tauto.
    + unfold Set_add. rewrite decide_False by done.
      rewrite elem_of_app, list_elem_of_singleton, Set_of_elem in *.
      pose proof (selectable_finite _ Hs). tauto.
  - intros x Hx. rewrite Set_of_elem, list_elem_of_filter.
    assert (Hxfin : x ∈ cur -> isFinite x = true).
    { rewrite Forall_forall in Hfin. apply Hfin. }
    case_decide as Hin.
    + unfold Set_delete. rewrite list_elem_of_filter, Set_of_elem. tauto.
    + unfold Set_add. rewrite decide_False by done.
      rewrite elem_of_app, list_elem_of_singleton, Set_of_elem. tauto.
Qed.

Lemma ctrl_click_toggles_witness :
  exists ids,
    selectedTrackIds
      (handleRowClick (ctrl_click 13)
         (handleRowClick (plain_click 12) demo_selection)) = Some ids /\
    (VNumber 13 ∈ ids
     <-> VNumber 13
         ∉ getSelectedTrackIds (handleRowClick (plain_click 12) demo_selection)) /\
    (forall x, x <> VNumber 13 ->
       x ∈ ids
       <-> x ∈ getSelectedTrackIds
                 (handleRowClick (plain_click 12) demo_selection)) /\
    anchorTrackId
      (handleRowClick (ctrl_click 13)
         (handleRowClick (plain_click 12) demo_selection)) = VNumber 13 /\
    in_sync
      (handleRowClick (ctrl_click 13)
         (handleRowClick (plain_click 12) demo_selection)).
Proof.
  apply (ctrl_click_toggles (ctrl_click 13)
           (handleRowClick (plain_click 12) demo_selection) (VNumber 13));
    reflexivity.
Defined.

(** X19.  A click with Shift on a selectable row, when the anchor (the clicked
    row itself if there is no anchor yet) and the clicked row are both in
    the table, selects the rows from the one to the other in table order,
    in whichever direction, both ends included; with Ctrl or Meta held as
    well they are added to what was selected, otherwise they replace it.
    The anchor stays where it was. *)
Theorem shift_click_selects_range e st id a b :
  on_control e = false -> row e = Some id ->
  isSelectableTrackId id = true -> shiftKey e = true ->
  let visible := getVisibleTrackIds st in
  let anchor :=
    if isSelectableTrackId (anchorTrackId st) then anchorTrackId st else id in
  indexOf anchor visible = Some a -> indexOf id visible = Some b ->
  exists ids,
    selectedTrackIds (handleRowClick e st) = Some ids /\
    (forall x,
       x ∈ ids <->
       (metaKey e || ctrlKey e = true /\ x ∈ getSelectedTrackIds st) \/
       exists i, Nat.min a b <= i <= Nat.max a b /\ visible !! i = Some x) /\
    anchor ∈ ids /\ id ∈ ids /\
    anchorTrackId (handleRowClick e st) = anchor /\
    in_sync (handleRowClick e st).
Proof.
  intros Hc Hr Hs Hshift visible anchor Ha Hb.
  pose proof (visible_finite st) as Hvfin. fold visible in Hvfin.
  pose proof (selected_finite st) as Hcfin.
  assert (Hrange : forall x,
            x ∈ take (Nat.max a b + 1 - Nat.min a b) (drop (Nat.min a b) visible)
            <-> exists i, Nat.min a b <= i <= Nat.max a b /\ visible !! i = Some x).
  { intros x. rewrite elem_of_take_drop. split; intros (i & Hi & Hx);
      exists i; (split; [lia|done]). }
  assert (Hrfin : forall x,
            x ∈ take (Nat.max a b + 1 - Nat.min a b) (drop (Nat.min a b) visible)
            -> isFinite x = true).
  { intros x (i & _ & Hx)%Hrange. rewrite Forall_forall in Hvfin.
    apply Hvfin. by eapply list_elem_of_lookup_2. }
  assert (Hends : (if decide (a < b) then (a, b) else (b, a))
                  = (Nat.min a b, Nat.max a b)).
  { case_decide; f_equal; lia. }
  unfold handleRowClick. rewrite Hc, Hr, Hs, Hshift. cbn [negb].
  fold visible. fold anchor. rewrite Ha, Hb, Hends.
  assert (Hmem : forall x,
    x ∈ Set_of
          (filter (fun n => isFinite n = true)
             (if metaKey e || ctrlKey e
              then fold_left (fun s id0 => Set_add id0 s)
                     (take (Nat.max a b + 1 - Nat.min a b)
                        (drop (Nat.min a b) visible))
                     (Set_of (getSelectedTrackIds st))
              else take (Nat.max a b + 1 - Nat.min a b)
                     (drop (Nat.min a b) visible)))
    <-> (metaKey e || ctrlKey e = true /\ x ∈ getSelectedTrackIds st) \/
        exists i, Nat.min a b <= i <= Nat.max a b /\ visible !! i = Some x).
  { intros x. rewrite Set_of_elem, list_elem_of_filter, <- Hrange.
    destruct (metaKey e || ctrlKey e).
    - destruct (Set_add_fold
                  (take (Nat.max a b + 1 - Nat.min a b)
                     (drop (Nat.min a b) visible))
                  (Set_of (getSelectedTrackIds st))) as [_ Hin];
        [apply Set_of_NoDup|].
      rewrite Hin, Set_of_elem.
      assert (x ∈ getSelectedTrackIds st -> isFinite x = true).
      { rewrite Forall_forall in Hcfin. apply Hcfin. }
      specialize (Hrfin x). tauto.
    - specialize (Hrfin x). split; [tauto|]. intros [[? _]|?]; [done|tauto]. }
  destruct (metaKey e || ctrlKey e) eqn:Hmc;
    match goal with
    | |- context [setSelectedTrackIds ?l ?s] =>
        destruct (setSelectedTrackIds_spec l s) as (Hsel & Hanchor & _ & Hsync)
    end;
    (eexists; split; [exact Hsel|]; split; [exact Hmem|];
     split; [|split; [|split; [done|done]]];
     [ apply Hmem; right; exists a; split; [lia|by apply indexOf_lookup]
     | apply Hmem; right; exists b; split; [lia|by apply indexOf_lookup] ]).
Qed.

Lemma shift_click_selects_range_witness :
  exists ids,
    selectedTrackIds
      (handleRowClick (shift_click 11)
         (handleRowClick (plain_click 13) demo_selection)) = Some ids /\
    (forall x,
       x ∈ ids <->
       (metaKey (shift_click 11) || ctrlKey (shift_click 11) = true /\
        x ∈ getSelectedTrackIds (handleRowClick (plain_click 13) demo_selection))
       \/
       exists i,
         Nat.min 2 0 <= i <= Nat.max 2 0 /\
         getVisibleTrackIds (handleRowClick (plain_click 13) demo_selection) !! i
         = Some x) /\
    (if isSelectableTrackId
          (anchorTrackId (handleRowClick (plain_click 13) demo_selection))
     then anchorTrackId (handleRowClick (plain_click 13) demo_selection)
     else VNumber 11) ∈ ids /\
    VNumber 11 ∈ ids /\
    anchorTrackId
      (handleRowClick (shift_click 11)
         (handleRowClick (plain_click 13) demo_selection))
    = (if isSelectableTrackId
            (anchorTrackId (handleRowClick (plain_click 13) demo_selection))
       then anchorTrackId (handleRowClick (plain_click 13) demo_selection)
       else VNumber 11) /\
    in_sync
      (handleRowClick (shift_click 11)
         (handleRowClick (plain_click 13) demo_selection)).
Proof.
  apply (shift_click_selects_range (shift_click 11)
           (handleRowClick (plain_click 13) demo_selection) (VNumber 11) 2 0);
    reflexivity.
Defined.

(** X20.  A click with Shift when the anchor or the clicked row is not in the
    table (after the table was filtered, say) falls back to the clicked
    row alone: it becomes the anchor, and it is the whole selection unless
    Ctrl or Meta is held, in which case it is added to the selection. *)
Theorem shift_click_without_range e st id :
  on_control e = false -> row e = Some id ->
  isSelectableTrackId id = true -> shiftKey e = true ->
  let visible := getVisibleTrackIds st in
  let anchor :=
    if isSelectableTrackId (anchorTrackId st) then anchorTrackId st else id in
  indexOf anchor visible = None \/ indexOf id visible = None ->
  exists ids,
    selectedTrackIds (handleRowClick e st) = Some ids /\
    (forall x,
       x ∈ ids <->
       x = id \/ (metaKey e || ctrlKey e = true /\ x ∈ getSelectedTrackIds st)) /\
    anchorTrackId (handleRowClick e st) = id /\
    in_sync (handleRowClick e st).
Proof.
  intros Hc Hr Hs Hshift visible anchor Hnone.
  pose proof (selected_finite st) as Hcfin.
  pose proof (selectable_finite _ Hs) as Hidfin.
  assert (Hgoal :
    exists ids,
      selectedTrackIds
        (setSelectedTrackIds
           (if metaKey e || ctrlKey e
            then Set_of (getSelectedTrackIds st) ++ [id] else [id])
           (set_anchor id st)) = Some ids /\
      (forall x,
         x ∈ ids <->
         x = id \/
         (metaKey e || ctrlKey e = true /\ x ∈ getSelectedTrackIds st)) /\
      anchorTrackId
        (setSelectedTrackIds
           (if metaKey e || ctrlKey e
            then Set_of (getSelectedTrackIds st) ++ [id] else [id])
           (set_anchor id st)) = id /\
      in_sync
        (setSelectedTrackIds
           (if metaKey e || ctrlKey e
            then Set_of (getSelectedTrackIds st) ++ [id] else [id])
           (set_anchor id st))).
  { match goal with
    | |- context [setSelectedTrackIds ?l ?s] =>
        destruct (setSelectedTrackIds_spec l s) as (Hsel & Hanchor & _ & Hsync)
    end.
    eexists. split; [exact Hsel|]. split; [|split; [done|done]].
    intros x. rewrite Set_of_elem, list_elem_of_filter.
    assert (x ∈ getSelectedTrackIds st -> isFinite x = true).
    { rewrite Forall_forall in Hcfin. apply Hcfin. }
    destruct (metaKey e || ctrlKey e).
    - rewrite elem_of_app, list_elem_of_singleton, Set_of_elem.
      split; [tauto|]. intros [->|[_ ?]]; tauto.
    - rewrite list_elem_of_singleton. split; [tauto|].
      intros [->|[? _]]; [tauto|done]. }
  unfold handleRowClick. rewrite Hc, Hr, Hs, Hshift. cbn [negb].
  fold visible. fold anchor.
  destruct Hnone as [Hn|Hn]; rewrite Hn; [exact Hgoal|].
  destruct (indexOf anchor visible); exact Hgoal.
Qed.

Lemma shift_click_without_range_witness :
  exists ids,
    selectedTrackIds
      (handleRowClick (shift_click 99)
         (handleRowClick (plain_click 13) demo_selection)) = Some ids /\
    (forall x,
       x ∈ ids <->
       x = VNumber 99 \/
       (metaKey (shift_click 99) || ctrlKey (shift_click 99) = true /\
        x ∈ getSelectedTrackIds
              (handleRowClick (plain_click 13) demo_selection))) /\
    anchorTrackId
      (handleRowClick (shift_click 99)
         (handleRowClick (plain_click 13) demo_selection)) = VNumber 99 /\
    in_sync
      (handleRowClick (shift_click 99)
         (handleRowClick (plain_click 13) demo_selection)).
Proof.
  apply (shift_click_without_range (shift_click 99)
           (handleRowClick (plain_click 13) demo_selection) (VNumber 99));
    try reflexivity.
  right. reflexivity.
Defined.

(** X21.  [ensureTrackSelected] (a right click, say) keeps a selection that
    already contains the row, and otherwise selects the row alone and
    makes it the anchor; it ignores ids that are not selectable, and
    calling it a second time changes nothing. *)
Theorem ensureTrackSelected_keeps_or_selects id st :
  (id ∈ getSelectedTrackIds st -> ensureTrackSelected id st = st) /\
  (isSelectableTrackId id = false -> ensureTrackSelected id st = st) /\
  (isSelectableTrackId id = true -> id ∉ getSelectedTrackIds st ->
   selectedTrackIds (ensureTrackSelected id st) = Some [id] /\
   anchorTrackId (ensureTrackSelected id st) = id /\
   in_sync (ensureTrackSelected id st)) /\
  ensureTrackSelected id (ensureTrackSelected id st)
  = ensureTrackSelected id st.
Proof.
  assert (H3 : isSelectableTrackId id = true -> id ∉ getSelectedTrackIds st ->
               selectedTrackIds (ensureTrackSelected id st) = Some [id] /\
               anchorTrackId (ensureTrackSelected id st) = id /\
               in_sync (ensureTrackSelected id st)).
  { intros Hs Hnot. unfold ensureTrackSelected.
    rewrite Hs, decide_False by done.
    destruct (setSelectedTrackIds_spec [id] (set_anchor id st))
      as (Hsel & Hanchor & _ & Hsync).
    split; [|by split]. rewrite Hsel.
    by rewrite filter_cons, decide_True by by apply selectable_finite. }
  assert (H1 : forall st0, id ∈ getSelectedTrackIds st0 ->
                           ensureTrackSelected id st0 = st0).
  { intros st0 Hin. unfold ensureTrackSelected.
    destruct (isSelectableTrackId id); [|done]. by rewrite decide_True. }
  split; [apply H1|]. split; [|split; [exact H3|]].
  - intros Hs. unfold ensureTrackSelected. by rewrite Hs.
  - destruct (isSelectableTrackId id) eqn:Hs.
    2:{ unfold ensureTrackSelected. by rewrite Hs. }
    destruct (decide (id ∈ getSelectedTrackIds st)) as [Hin|Hnot].
    + by rewrite !(H1 st Hin).
    + apply H1. destruct (H3 eq_refl Hnot) as (Hsel & _).
      unfold getSelectedTrackIds. rewrite Hsel.
      rewrite filter_cons, decide_True by by apply selectable_finite.
      by left.
Qed.

Lemma ensureTrackSelected_keeps_or_selects_witness :
  ensureTrackSelected (VNumber 13)
    (handleRowClick (plain_click 13) demo_selection)
  = handleRowClick (plain_click 13) demo_selection /\
  ensureTrackSelected VNaN demo_selection = demo_selection /\
  selectedTrackIds (ensureTrackSelected (VNumber 13) demo_selection)
  = Some [VNumber 13] /\
  anchorTrackId (ensureTrackSelected (VNumber 13) demo_selection)
  = VNumber 13.
Proof.
  split; [|split].
  - destruct (ensureTrackSelected_keeps_or_selects (VNumber 13)
                (handleRowClick (plain_click 13) demo_selection))
      as (H & _).
    apply H. apply (bool_decide_unpack _). vm_compute. exact I.
  - destruct (ensureTrackSelected_keeps_or_selects VNaN demo_selection)
      as (_ & H & _).
    apply H. reflexivity.
  - destruct (ensureTrackSelected_keeps_or_selects (VNumber 13) demo_selection)
      as (_ & _ & H & _).
    destruct H as (Hsel & Hanchor & _).
    + reflexivity.
    + apply (bool_decide_unpack _). vm_compute. exact I.
    + split; [exact Hsel|exact Hanchor].
Defined.

(** X22.  [selectAllVisible] selects exactly the finite numbers of the rows with
    a [data-track-id] and makes the first of them the anchor; on a table
    without such rows, or without a table, it only logs that there is
    nothing to select and leaves selection, anchor and table alone. *)
Theorem selectAllVisible_selects_visible st :
  (getVisibleTrackIds st = [] ->
   selectedTrackIds (selectAllVisible st) = selectedTrackIds st /\
   anchorTrackId (selectAllVisible st) = anchorTrackId st /\
   tbody (selectAllVisible st) = tbody st /\
   logged (selectAllVisible st)
   = logged st ++ [("No tracks to select"%string, "info"%string)]) /\
  (getVisibleTrackIds st <> [] ->
   exists ids,
     selectedTrackIds (selectAllVisible st) = Some ids /\
     (forall x, x ∈ ids <-> x ∈ getVisibleTrackIds st) /\
     Some (anchorTrackId (selectAllVisible st)) = head (getVisibleTrackIds st) /\
     logged (selectAllVisible st) = logged st /\
     in_sync (selectAllVisible st)).
Proof.
  pose proof (visible_finite st) as Hfin. unfold selectAllVisible.
  destruct (getVisibleTrackIds st) as [|first rest] eqn:Hvis.
  - split; [done|]. by intros [].
  - split; [done|]. intros _.
    destruct (setSelectedTrackIds_spec (first :: rest) (set_anchor first st))
      as (Hsel & Hanchor & Hlog & Hsync).
    eexists. split; [exact Hsel|]. split; [|split; [|split; [done|done]]].
    + intros x. rewrite Set_of_elem. by rewrite filter_finite_id.
    + by rewrite Hanchor.
Qed.

Lemma selectAllVisible_selects_visible_witness :
  logged
    (selectAllVisible
       {| anchorTrackId := VNumber 7; selectedTrackIds := Some [VNumber 7];
          tbody := Some []; logged := [] |})
  = [("No tracks to select"%string, "info"%string)] /\
  exists ids,
    selectedTrackIds (selectAllVisible demo_selection) = Some ids /\
    (forall x, x ∈ ids <-> x ∈ getVisibleTrackIds demo_selection) /\
    Some (anchorTrackId (selectAllVisible demo_selection))
    = head (getVisibleTrackIds demo_selection).
Proof.
  split.
  - destruct (selectAllVisible_selects_visible
                {| anchorTrackId := VNumber 7;
                   selectedTrackIds := Some [VNumber 7];
                   tbody := Some []; logged := [] |}) as [H _].
    destruct H as (_ & _ & _ & Hlog); [reflexivity|exact Hlog].
  - destruct (selectAllVisible_selects_visible demo_selection) as [_ H].
    destruct H as (ids & Hsel & Hmem & Hanchor & _); [discriminate|].
    exists ids. split; [exact Hsel|]. split; [exact Hmem|exact Hanchor].
Defined.

End TrackSelectionFacts.
